(** * Lecture notes to web story: a shallow embedding of the pipeline

    The repository holds two variants of one Streamlit application:
    [src/app-single.py] (the spec's variant 1, fixed template, portrait
    cover) and [src/app.py] (variant 2, uploaded template, JSON export).
    This file embeds the helper functions of both variants and proves
    properties of template filling, slug derivation, the SEO parsing
    policy, the image loop with its fallback, and the narration loop.

    Conventions of the embedding.
    - A Python [str] is a [text]: the list of its UTF-8 code units.
      [str.replace] and the search for a fence act on code units, which finds
      the same occurrences as acting on characters does; [str.strip] and
      [str.lower] act on the code points that the units encode.
    - A Python [dict] with string keys is an insertion-ordered association
      list with unique keys ([dict]); iteration follows list order, as
      [dict.items()] does.
    - Values stored in a Story Record are the objects [json.loads] can
      build ([value]).
    - Effects (network calls, user-interface messages) are threaded through
      a state-and-exception monad [M]; every external call is appended to a
      trace.  The services and library functions that the source calls and
      does not define are the fields of the class [Runtime]; the theorems
      hold for every runtime.
    - An exception is its class and its message.  Every exception of the
      model is an [Exception], so [except Exception] catches them all. *)

From Stdlib Require Import List Ascii Arith Lia ZArith Bool.
From Stdlib Require String DecimalString DecimalNat DecimalFacts.
Import ListNotations.

Set Implicit Arguments.
Set Warnings "-abstract-large-number".

(* ------------------------------------------------------------------ *)
(** * Text *)
(* ------------------------------------------------------------------ *)

Definition text := list ascii.

Inductive text_literal : Set :=
| lit_nil
| lit_cons (c : ascii) (l : text_literal).

Fixpoint lit_of_bytes (l : list Byte.byte) : text_literal :=
  match l with
  | [] => lit_nil
  | b :: l' => lit_cons (ascii_of_byte b) (lit_of_bytes l')
  end.

Fixpoint bytes_of_lit (l : text_literal) : list Byte.byte :=
  match l with
  | lit_nil => []
  | lit_cons c l' => byte_of_ascii c :: bytes_of_lit l'
  end.

Declare Scope text_scope.
Delimit Scope text_scope with text.
Bind Scope text_scope with text.

#[warnings="-via-type-remapping,-via-type-mismatch"]
String Notation text lit_of_bytes bytes_of_lit
  (via text_literal mapping [[nil] => lit_nil, [cons] => lit_cons])
  : text_scope.

Open Scope text_scope.
Open Scope list_scope.

(** Characters that cannot be written inside a literal here. *)
Definition dquote : ascii := ascii_of_nat 34.
Definition newline : ascii := ascii_of_nat 10.

Fixpoint text_eqb (a b : text) : bool :=
  match a, b with
  | [], [] => true
  | x :: a', y :: b' => Ascii.eqb x y && text_eqb a' b'
  | _, _ => false
  end.

(** [s.startswith(p)], returning what follows the prefix. *)
Fixpoint strip_prefix (p s : text) : option text :=
  match p, s with
  | [], _ => Some s
  | _ :: _, [] => None
  | a :: p', b :: s' => if Ascii.eqb a b then strip_prefix p' s' else None
  end.

(** [str.replace(old, new)] for a non-empty [old]: occurrences are found
    from the left and do not overlap.  [skip] counts the characters of a
    matched occurrence that are still to be dropped. *)
Fixpoint replace_from (old new : text) (skip : nat) (s : text) : text :=
  match s with
  | [] => []
  | c :: s' =>
      match skip with
      | S k => replace_from old new k s'
      | O =>
          match strip_prefix old s with
          | Some _ => new ++ replace_from old new (length old - 1) s'
          | None => c :: replace_from old new 0 s'
          end
      end
  end.

(** [str.replace]; with an empty [old] Python inserts [new] before every
    character and at the end. *)
Definition replace (old new s : text) : text :=
  match old with
  | [] => new ++ flat_map (fun c => c :: new) s
  | _ :: _ => replace_from old new 0 s
  end.

(* ------------------------------------------------------------------ *)
(** * Code points: [str.strip] and [str.lower] *)
(* ------------------------------------------------------------------ *)

Definition byte (c : ascii) : N := N_of_ascii c.
Definition chr (n : N) : ascii := ascii_of_N n.

(** The UTF-8 code units of a code point. *)
Definition utf8_units (cp : N) : text :=
  (if cp <? 128 then [chr cp]
   else if cp <? 2048 then [chr (192 + cp / 64); chr (128 + cp mod 64)]
   else if cp <? 65536 then
     [chr (224 + cp / 4096); chr (128 + (cp / 64) mod 64);
      chr (128 + cp mod 64)]
   else
     [chr (240 + cp / 262144); chr (128 + (cp / 4096) mod 64);
      chr (128 + (cp / 64) mod 64); chr (128 + cp mod 64)])%N.

(** The code points for which [str.isspace] holds: the ASCII controls tab
    to carriage return and file separator to unit separator, the space,
    U+0085, U+00A0, U+1680, U+2000 to U+200A, U+2028, U+2029, U+202F,
    U+205F and U+3000. *)
Definition space_codes : list N :=
  [9; 10; 11; 12; 13; 28; 29; 30; 31; 32; 133; 160; 5760; 8192; 8193; 8194;
   8195; 8196; 8197; 8198; 8199; 8200; 8201; 8202; 8232; 8233; 8239; 8287;
   12288]%N.

(** Their code units. *)
Definition spaces : list text := map utf8_units space_codes.

(** What follows the first of [pats] that [s] starts with. *)
Fixpoint strip_any (pats : list text) (s : text) : option text :=
  match pats with
  | [] => None
  | p :: pats' =>
      match strip_prefix p s with
      | Some r => Some r
      | None => strip_any pats' s
      end
  end.

(** Leading occurrences of [pats] are dropped one after the other; [fuel]
    bounds their number. *)
Fixpoint lstrip_with (pats : list text) (fuel : nat) (s : text) : text :=
  match fuel with
  | O => s
  | S f =>
      match strip_any pats s with
      | Some r => lstrip_with pats f r
      | None => s
      end
  end.

Definition lstrip (s : text) : text := lstrip_with spaces (length s) s.

(** At the end of the text the code units of a white-space character are
    met in reverse. *)
Definition rstrip (s : text) : text :=
  rev (lstrip_with (map (@rev ascii) spaces) (length s) (rev s)).

(** [str.strip()] *)
Definition strip (s : text) : text := lstrip (rstrip s).

(** A text as code points.  A code unit that starts no well-formed
    sequence is kept as it is. *)
Inductive code :=
| Code (cp : N)
| Unit (c : ascii).

(** [cp] when [units] is its encoding and it is a code point. *)
Definition code_of (units : text) (cp : N) : option N :=
  if (cp <? 1114112)%N && text_eqb (utf8_units cp) units then Some cp
  else None.

Definition cont (c : ascii) : N := (byte c - 128)%N.

Fixpoint decode (s : text) : list code :=
  match s with
  | [] => []
  | a :: s1 =>
      if (byte a <? 128)%N then Code (byte a) :: decode s1
      else
        match s1 with
        | [] => [Unit a]
        | b :: s2 =>
            match code_of [a; b] ((byte a - 192) * 64 + cont b)%N with
            | Some cp => Code cp :: decode s2
            | None =>
                match s2 with
                | [] => Unit a :: decode s1
                | c :: s3 =>
                    match code_of [a; b; c]
                            ((byte a - 224) * 4096 + cont b * 64 + cont c)%N
                    with
                    | Some cp => Code cp :: decode s3
                    | None =>
                        match s3 with
                        | [] => Unit a :: decode s1
                        | d :: s4 =>
                            match code_of [a; b; c; d]
                                    ((byte a - 240) * 262144 + cont b * 4096
                                     + cont c * 64 + cont d)%N
                            with
                            | Some cp => Code cp :: decode s4
                            | None => Unit a :: decode s1
                            end
                        end
                    end
                end
            end
        end
  end.

Definition encode (x : code) : text :=
  match x with
  | Code cp => utf8_units cp
  | Unit c => [c]
  end.

(** The simple lower-case mappings above the ASCII range, except U+0130:
    [(first, last, step, image of first)] stands for the code points
    [first], [first + step], ... up to [last], mapped to consecutive images
    with the same step. *)
Definition lower_table : list (N * N * N * N) :=
  [(192, 214, 1, 224); (216, 222, 1, 248); (256, 302, 2, 257); (306, 310, 2, 307);
   (313, 327, 2, 314); (330, 374, 2, 331); (376, 376, 1, 255); (377, 381, 2, 378);
   (385, 385, 1, 595); (386, 388, 2, 387); (390, 390, 1, 596); (391, 391, 1, 392);
   (393, 394, 1, 598); (395, 395, 1, 396); (398, 398, 1, 477); (399, 399, 1, 601);
   (400, 400, 1, 603); (401, 401, 1, 402); (403, 403, 1, 608); (404, 404, 1, 611);
   (406, 406, 1, 617); (407, 407, 1, 616); (408, 408, 1, 409); (412, 412, 1, 623);
   (413, 413, 1, 626); (415, 415, 1, 629); (416, 420, 2, 417); (422, 422, 1, 640);
   (423, 423, 1, 424); (425, 425, 1, 643); (428, 428, 1, 429); (430, 430, 1, 648);
   (431, 431, 1, 432); (433, 434, 1, 650); (435, 437, 2, 436); (439, 439, 1, 658);
   (440, 440, 1, 441); (444, 444, 1, 445); (452, 452, 1, 454); (453, 453, 1, 454);
   (455, 455, 1, 457); (456, 456, 1, 457); (458, 458, 1, 460); (459, 475, 2, 460);
   (478, 494, 2, 479); (497, 497, 1, 499); (498, 500, 2, 499); (502, 502, 1, 405);
   (503, 503, 1, 447); (504, 542, 2, 505); (544, 544, 1, 414); (546, 562, 2, 547);
   (570, 570, 1, 11365); (571, 571, 1, 572); (573, 573, 1, 410); (574, 574, 1, 11366);
   (577, 577, 1, 578); (579, 579, 1, 384); (580, 580, 1, 649); (581, 581, 1, 652);
   (582, 590, 2, 583); (880, 882, 2, 881); (886, 886, 1, 887); (895, 895, 1, 1011);
   (902, 902, 1, 940); (904, 906, 1, 941); (908, 908, 1, 972); (910, 911, 1, 973);
   (913, 929, 1, 945); (931, 939, 1, 963); (975, 975, 1, 983); (984, 1006, 2, 985);
   (1012, 1012, 1, 952); (1015, 1015, 1, 1016); (1017, 1017, 1, 1010); (1018, 1018, 1, 1019);
   (1021, 1023, 1, 891); (1024, 1039, 1, 1104); (1040, 1071, 1, 1072); (1120, 1152, 2, 1121);
   (1162, 1214, 2, 1163); (1216, 1216, 1, 1231); (1217, 1229, 2, 1218); (1232, 1326, 2, 1233);
   (1329, 1366, 1, 1377); (4256, 4293, 1, 11520); (4295, 4295, 1, 11559); (4301, 4301, 1, 11565);
   (5024, 5103, 1, 43888); (5104, 5109, 1, 5112); (7312, 7354, 1, 4304); (7357, 7359, 1, 4349);
   (7680, 7828, 2, 7681); (7838, 7838, 1, 223); (7840, 7934, 2, 7841); (7944, 7951, 1, 7936);
   (7960, 7965, 1, 7952); (7976, 7983, 1, 7968); (7992, 7999, 1, 7984); (8008, 8013, 1, 8000);
   (8025, 8031, 2, 8017); (8040, 8047, 1, 8032); (8072, 8079, 1, 8064); (8088, 8095, 1, 8080);
   (8104, 8111, 1, 8096); (8120, 8121, 1, 8112); (8122, 8123, 1, 8048); (8124, 8124, 1, 8115);
   (8136, 8139, 1, 8050); (8140, 8140, 1, 8131); (8152, 8153, 1, 8144); (8154, 8155, 1, 8054);
   (8168, 8169, 1, 8160); (8170, 8171, 1, 8058); (8172, 8172, 1, 8165); (8184, 8185, 1, 8056);
   (8186, 8187, 1, 8060); (8188, 8188, 1, 8179); (8486, 8486, 1, 969); (8490, 8490, 1, 107);
   (8491, 8491, 1, 229); (8498, 8498, 1, 8526); (8544, 8559, 1, 8560); (8579, 8579, 1, 8580);
   (9398, 9423, 1, 9424); (11264, 11311, 1, 11312); (11360, 11360, 1, 11361); (11362, 11362, 1, 619);
   (11363, 11363, 1, 7549); (11364, 11364, 1, 637); (11367, 11371, 2, 11368); (11373, 11373, 1, 593);
   (11374, 11374, 1, 625); (11375, 11375, 1, 592); (11376, 11376, 1, 594); (11378, 11378, 1, 11379);
   (11381, 11381, 1, 11382); (11390, 11391, 1, 575); (11392, 11490, 2, 11393); (11499, 11501, 2, 11500);
   (11506, 11506, 1, 11507); (42560, 42604, 2, 42561); (42624, 42650, 2, 42625); (42786, 42798, 2, 42787);
   (42802, 42862, 2, 42803); (42873, 42875, 2, 42874); (42877, 42877, 1, 7545); (42878, 42886, 2, 42879);
   (42891, 42891, 1, 42892); (42893, 42893, 1, 613); (42896, 42898, 2, 42897); (42902, 42920, 2, 42903);
   (42922, 42922, 1, 614); (42923, 42923, 1, 604); (42924, 42924, 1, 609); (42925, 42925, 1, 620);
   (42926, 42926, 1, 618); (42928, 42928, 1, 670); (42929, 42929, 1, 647); (42930, 42930, 1, 669);
   (42931, 42931, 1, 43859); (42932, 42946, 2, 42933); (42948, 42948, 1, 42900); (42949, 42949, 1, 642);
   (42950, 42950, 1, 7566); (42951, 42953, 2, 42952); (42960, 42960, 1, 42961); (42966, 42968, 2, 42967);
   (42997, 42997, 1, 42998); (65313, 65338, 1, 65345); (66560, 66599, 1, 66600); (66736, 66771, 1, 66776);
   (66928, 66938, 1, 66967); (66940, 66954, 1, 66979); (66956, 66962, 1, 66995); (66964, 66965, 1, 67003);
   (68736, 68786, 1, 68800); (71840, 71871, 1, 71872); (93760, 93791, 1, 93792); (125184, 125217, 1, 125218)]%N.

(** The ranges of the code points with the property Case_Ignorable. *)
Definition case_ignorable_table : list (N * N) :=
  [(39, 39); (46, 46); (58, 58); (94, 94); (96, 96); (168, 168);
   (173, 173); (175, 175); (180, 180); (183, 184); (688, 879); (884, 885);
   (890, 890); (900, 901); (903, 903); (1155, 1161); (1369, 1369); (1375, 1375);
   (1425, 1469); (1471, 1471); (1473, 1474); (1476, 1477); (1479, 1479); (1524, 1524);
   (1536, 1541); (1552, 1562); (1564, 1564); (1600, 1600); (1611, 1631); (1648, 1648);
   (1750, 1757); (1759, 1768); (1770, 1773); (1807, 1807); (1809, 1809); (1840, 1866);
   (1958, 1968); (2027, 2037); (2042, 2042); (2045, 2045); (2070, 2093); (2137, 2139);
   (2184, 2184); (2192, 2193); (2200, 2207); (2249, 2306); (2362, 2362); (2364, 2364);
   (2369, 2376); (2381, 2381); (2385, 2391); (2402, 2403); (2417, 2417); (2433, 2433);
   (2492, 2492); (2497, 2500); (2509, 2509); (2530, 2531); (2558, 2558); (2561, 2562);
   (2620, 2620); (2625, 2626); (2631, 2632); (2635, 2637); (2641, 2641); (2672, 2673);
   (2677, 2677); (2689, 2690); (2748, 2748); (2753, 2757); (2759, 2760); (2765, 2765);
   (2786, 2787); (2810, 2815); (2817, 2817); (2876, 2876); (2879, 2879); (2881, 2884);
   (2893, 2893); (2901, 2902); (2914, 2915); (2946, 2946); (3008, 3008); (3021, 3021);
   (3072, 3072); (3076, 3076); (3132, 3132); (3134, 3136); (3142, 3144); (3146, 3149);
   (3157, 3158); (3170, 3171); (3201, 3201); (3260, 3260); (3263, 3263); (3270, 3270);
   (3276, 3277); (3298, 3299); (3328, 3329); (3387, 3388); (3393, 3396); (3405, 3405);
   (3426, 3427); (3457, 3457); (3530, 3530); (3538, 3540); (3542, 3542); (3633, 3633);
   (3636, 3642); (3654, 3662); (3761, 3761); (3764, 3772); (3782, 3782); (3784, 3789);
   (3864, 3865); (3893, 3893); (3895, 3895); (3897, 3897); (3953, 3966); (3968, 3972);
   (3974, 3975); (3981, 3991); (3993, 4028); (4038, 4038); (4141, 4144); (4146, 4151);
   (4153, 4154); (4157, 4158); (4184, 4185); (4190, 4192); (4209, 4212); (4226, 4226);
   (4229, 4230); (4237, 4237); (4253, 4253); (4348, 4348); (4957, 4959); (5906, 5908);
   (5938, 5939); (5970, 5971); (6002, 6003); (6068, 6069); (6071, 6077); (6086, 6086);
   (6089, 6099); (6103, 6103); (6109, 6109); (6155, 6159); (6211, 6211); (6277, 6278);
   (6313, 6313); (6432, 6434); (6439, 6440); (6450, 6450); (6457, 6459); (6679, 6680);
   (6683, 6683); (6742, 6742); (6744, 6750); (6752, 6752); (6754, 6754); (6757, 6764);
   (6771, 6780); (6783, 6783); (6823, 6823); (6832, 6862); (6912, 6915); (6964, 6964);
   (6966, 6970); (6972, 6972); (6978, 6978); (7019, 7027); (7040, 7041); (7074, 7077);
   (7080, 7081); (7083, 7085); (7142, 7142); (7144, 7145); (7149, 7149); (7151, 7153);
   (7212, 7219); (7222, 7223); (7288, 7293); (7376, 7378); (7380, 7392); (7394, 7400);
   (7405, 7405); (7412, 7412); (7416, 7417); (7468, 7530); (7544, 7544); (7579, 7679);
   (8125, 8125); (8127, 8129); (8141, 8143); (8157, 8159); (8173, 8175); (8189, 8190);
   (8203, 8207); (8216, 8217); (8228, 8228); (8231, 8231); (8234, 8238); (8288, 8292);
   (8294, 8303); (8305, 8305); (8319, 8319); (8336, 8348); (8400, 8432); (11388, 11389);
   (11503, 11505); (11631, 11631); (11647, 11647); (11744, 11775); (11823, 11823); (12293, 12293);
   (12330, 12333); (12337, 12341); (12347, 12347); (12441, 12446); (12540, 12542); (40981, 40981);
   (42232, 42237); (42508, 42508); (42607, 42610); (42612, 42621); (42623, 42623); (42652, 42655);
   (42736, 42737); (42752, 42785); (42864, 42864); (42888, 42890); (42994, 42996); (43000, 43001);
   (43010, 43010); (43014, 43014); (43019, 43019); (43045, 43046); (43052, 43052); (43204, 43205);
   (43232, 43249); (43263, 43263); (43302, 43309); (43335, 43345); (43392, 43394); (43443, 43443);
   (43446, 43449); (43452, 43453); (43471, 43471); (43493, 43494); (43561, 43566); (43569, 43570);
   (43573, 43574); (43587, 43587); (43596, 43596); (43632, 43632); (43644, 43644); (43696, 43696);
   (43698, 43700); (43703, 43704); (43710, 43711); (43713, 43713); (43741, 43741); (43756, 43757);
   (43763, 43764); (43766, 43766); (43867, 43871); (43881, 43883); (44005, 44005); (44008, 44008);
   (44013, 44013); (64286, 64286); (64434, 64450); (65024, 65039); (65043, 65043); (65056, 65071);
   (65106, 65106); (65109, 65109); (65279, 65279); (65287, 65287); (65294, 65294); (65306, 65306);
   (65342, 65342); (65344, 65344); (65392, 65392); (65438, 65439); (65507, 65507); (65529, 65531);
   (66045, 66045); (66272, 66272); (66422, 66426); (67456, 67461); (67463, 67504); (67506, 67514);
   (68097, 68099); (68101, 68102); (68108, 68111); (68152, 68154); (68159, 68159); (68325, 68326);
   (68900, 68903); (69291, 69292); (69446, 69456); (69506, 69509); (69633, 69633); (69688, 69702);
   (69744, 69744); (69747, 69748); (69759, 69761); (69811, 69814); (69817, 69818); (69821, 69821);
   (69826, 69826); (69837, 69837); (69888, 69890); (69927, 69931); (69933, 69940); (70003, 70003);
   (70016, 70017); (70070, 70078); (70089, 70092); (70095, 70095); (70191, 70193); (70196, 70196);
   (70198, 70199); (70206, 70206); (70367, 70367); (70371, 70378); (70400, 70401); (70459, 70460);
   (70464, 70464); (70502, 70508); (70512, 70516); (70712, 70719); (70722, 70724); (70726, 70726);
   (70750, 70750); (70835, 70840); (70842, 70842); (70847, 70848); (70850, 70851); (71090, 71093);
   (71100, 71101); (71103, 71104); (71132, 71133); (71219, 71226); (71229, 71229); (71231, 71232);
   (71339, 71339); (71341, 71341); (71344, 71349); (71351, 71351); (71453, 71455); (71458, 71461);
   (71463, 71467); (71727, 71735); (71737, 71738); (71995, 71996); (71998, 71998); (72003, 72003);
   (72148, 72151); (72154, 72155); (72160, 72160); (72193, 72202); (72243, 72248); (72251, 72254);
   (72263, 72263); (72273, 72278); (72281, 72283); (72330, 72342); (72344, 72345); (72752, 72758);
   (72760, 72765); (72767, 72767); (72850, 72871); (72874, 72880); (72882, 72883); (72885, 72886);
   (73009, 73014); (73018, 73018); (73020, 73021); (73023, 73029); (73031, 73031); (73104, 73105);
   (73109, 73109); (73111, 73111); (73459, 73460); (78896, 78904); (92912, 92916); (92976, 92982);
   (92992, 92995); (94031, 94031); (94095, 94111); (94176, 94177); (94179, 94180); (110576, 110579);
   (110581, 110587); (110589, 110590); (113821, 113822); (113824, 113827); (118528, 118573); (118576, 118598);
   (119143, 119145); (119155, 119170); (119173, 119179); (119210, 119213); (119362, 119364); (121344, 121398);
   (121403, 121452); (121461, 121461); (121476, 121476); (121499, 121503); (121505, 121519); (122880, 122886);
   (122888, 122904); (122907, 122913); (122915, 122916); (122918, 122922); (123184, 123197); (123566, 123566);
   (123628, 123631); (125136, 125142); (125252, 125259); (127995, 127999); (917505, 917505); (917536, 917631);
   (917760, 917999)]%N.

(** The ranges of the code points with the property Cased. *)
Definition cased_table : list (N * N) :=
  [(65, 90); (97, 122); (170, 170); (181, 181); (186, 186); (192, 214);
   (216, 246); (248, 442); (444, 447); (452, 659); (661, 696); (704, 705);
   (736, 740); (837, 837); (880, 883); (886, 887); (890, 893); (895, 895);
   (902, 902); (904, 906); (908, 908); (910, 929); (931, 1013); (1015, 1153);
   (1162, 1327); (1329, 1366); (1376, 1416); (4256, 4293); (4295, 4295); (4301, 4301);
   (4304, 4346); (4349, 4351); (5024, 5109); (5112, 5117); (7296, 7304); (7312, 7354);
   (7357, 7359); (7424, 7615); (7680, 7957); (7960, 7965); (7968, 8005); (8008, 8013);
   (8016, 8023); (8025, 8025); (8027, 8027); (8029, 8029); (8031, 8061); (8064, 8116);
   (8118, 8124); (8126, 8126); (8130, 8132); (8134, 8140); (8144, 8147); (8150, 8155);
   (8160, 8172); (8178, 8180); (8182, 8188); (8305, 8305); (8319, 8319); (8336, 8348);
   (8450, 8450); (8455, 8455); (8458, 8467); (8469, 8469); (8473, 8477); (8484, 8484);
   (8486, 8486); (8488, 8488); (8490, 8493); (8495, 8500); (8505, 8505); (8508, 8511);
   (8517, 8521); (8526, 8526); (8544, 8575); (8579, 8580); (9398, 9449); (11264, 11492);
   (11499, 11502); (11506, 11507); (11520, 11557); (11559, 11559); (11565, 11565); (42560, 42605);
   (42624, 42653); (42786, 42887); (42891, 42894); (42896, 42954); (42960, 42961); (42963, 42963);
   (42965, 42969); (42997, 42998); (43000, 43002); (43824, 43866); (43868, 43880); (43888, 43967);
   (64256, 64262); (64275, 64279); (65313, 65338); (65345, 65370); (66560, 66639); (66736, 66771);
   (66776, 66811); (66928, 66938); (66940, 66954); (66956, 66962); (66964, 66965); (66967, 66977);
   (66979, 66993); (66995, 67001); (67003, 67004); (67456, 67456); (67459, 67461); (67463, 67504);
   (67506, 67514); (68736, 68786); (68800, 68850); (71840, 71903); (93760, 93823); (119808, 119892);
   (119894, 119964); (119966, 119967); (119970, 119970); (119973, 119974); (119977, 119980); (119982, 119993);
   (119995, 119995); (119997, 120003); (120005, 120069); (120071, 120074); (120077, 120084); (120086, 120092);
   (120094, 120121); (120123, 120126); (120128, 120132); (120134, 120134); (120138, 120144); (120146, 120485);
   (120488, 120512); (120514, 120538); (120540, 120570); (120572, 120596); (120598, 120628); (120630, 120654);
   (120656, 120686); (120688, 120712); (120714, 120744); (120746, 120770); (120772, 120779); (122624, 122633);
   (122635, 122654); (125184, 125251); (127280, 127305); (127312, 127337); (127344, 127369)]%N.

Definition in_ranges (table : list (N * N)) (cp : N) : bool :=
  existsb (fun r => (fst r <=? cp)%N && (cp <=? snd r)%N) table.

Definition covers (e : N * N * N * N) (cp : N) : bool :=
  let '(lo, hi, step, _) := e in
  ((lo <=? cp) && (cp <=? hi) && ((cp - lo) mod step =? 0))%N.

(** The simple lower-case mapping of a code point. *)
Definition lower_simple (cp : N) : N :=
  (if cp <? 128 then
     if (65 <=? cp) && (cp <=? 90) then cp + 32 else cp
   else
     match find (fun e => covers e cp) lower_table with
     | Some (lo, _, _, image) => cp - lo + image
     | None => cp
     end)%N.

(** The full mapping: U+0130 becomes two code points. *)
Definition lower_full (cp : N) : list N :=
  (if cp =? 304 then [105; 775] else [lower_simple cp])%N.

Definition case_ignorable (x : code) : bool :=
  match x with
  | Code cp => in_ranges case_ignorable_table cp
  | Unit _ => false
  end.

Definition cased (x : code) : bool :=
  match x with
  | Code cp => in_ranges cased_table cp
  | Unit _ => false
  end.

(** The first character that is not case-ignorable. *)
Definition first_solid (l : list code) : option code :=
  find (fun x => negb (case_ignorable x)) l.

(** The capital sigma is final when a cased character comes before it and
    none after it, case-ignorable characters set aside.  [before] is the
    text before it, read backwards. *)
Definition final_sigma (before after : list code) : bool :=
  match first_solid before with
  | Some x => cased x
  | None => false
  end
  && match first_solid after with
     | Some x => negb (cased x)
     | None => true
     end.

Fixpoint lower_codes (before l : list code) : list code :=
  match l with
  | [] => []
  | x :: rest =>
      match x with
      | Unit _ => [x]
      | Code cp =>
          if (cp =? 931)%N
          then [Code (if final_sigma before rest then 962 else 963)%N]
          else map Code (lower_full cp)
      end ++ lower_codes (x :: before) rest
  end.

(** [str.lower()], with the character data of Unicode 14.0.0 (CPython
    3.11). *)
Definition lower (s : text) : text :=
  flat_map encode (lower_codes [] (decode s)).

(** Decimal rendering of a number inside an f-string. *)
Definition decimal (n : nat) : text :=
  String.list_ascii_of_string
    (DecimalString.NilZero.string_of_uint (Nat.to_uint n)).

(* ------------------------------------------------------------------ *)
(** * Values, dictionaries, exceptions *)
(* ------------------------------------------------------------------ *)

(** The Python objects [json.loads] builds.  A float is kept as the decimal
    literal it was read from: [VFloat m e] stands for [m * 10^e]. *)
#[warnings="-register-all"]
Inductive value :=
| VNone
| VBool (b : bool)
| VInt (n : Z)
| VFloat (m e : Z)
| VNaN
| VInf (negative : bool)
| VStr (s : text)
| VList (l : list value)
| VDict (items : list (text * value)).

Definition dict := list (text * value).

Fixpoint dict_get (d : dict) (k : text) : option value :=
  match d with
  | [] => None
  | (k', v) :: d' => if text_eqb k' k then Some v else dict_get d' k
  end.

(** [d[k] = v]: an existing key keeps its position, a new key goes last. *)
Fixpoint dict_set (d : dict) (k : text) (v : value) : dict :=
  match d with
  | [] => [(k, v)]
  | (k', v') :: d' =>
      if text_eqb k' k then (k', v) :: d' else (k', v') :: dict_set d' k v
  end.

(** [d.update(other)] for a mapping [other]. *)
Definition dict_update (d other : dict) : dict :=
  fold_left (fun acc kv => dict_set acc (fst kv) (snd kv)) other d.

Definition keys (d : dict) : list text := map fst d.

(** [bool(v)] *)
Definition truthy (v : value) : bool :=
  match v with
  | VNone => false
  | VBool b => b
  | VInt n => negb (n =? 0)%Z
  | VFloat m e =>
      (* the literal rounds to zero exactly when it is at most 2^-1075 in
         magnitude (binary64, round half to even) *)
      negb ((m =? 0)%Z
            || ((e <? 0)%Z && (Z.abs m * 2 ^ 1075 <=? 10 ^ (- e))%Z))
  | VNaN => true
  | VInf _ => true
  | VStr s => negb (text_eqb s [])
  | VList l => match l with [] => false | _ => true end
  | VDict d => match d with [] => false | _ => true end
  end.

(** [type(v).__name__] *)
Definition type_name (v : value) : text :=
  match v with
  | VNone => "NoneType"
  | VBool _ => "bool"
  | VInt _ => "int"
  | VFloat _ _ | VNaN | VInf _ => "float"
  | VStr _ => "str"
  | VList _ => "list"
  | VDict _ => "dict"
  end.

Inductive exn_class :=
| KeyError
| AttributeError
| TypeError
| JSONDecodeError
| UnboundLocalError
| OtherError (name : text).

(** An exception: its class and [str(e)]. *)
Record exn := Exn { exn_cls : exn_class; exn_str : text }.

Inductive result (A : Type) :=
| Ok (a : A)
| Raise (e : exn).
Arguments Ok {A} a.
Arguments Raise {A} e.

(** [d[k]] for one of the literal field names of the source. *)
Definition dict_item (d : dict) (k : text) : result value :=
  match dict_get d k with
  | Some v => Ok v
  | None => Raise (Exn KeyError ("'" ++ k ++ "'"))
  end.

(* ------------------------------------------------------------------ *)
(** * Document assembly: [fill_template] *)
(* ------------------------------------------------------------------ *)

(** The f-string [f"{{{{{k}}}}}"]: two opening braces, the key, two closing
    braces. *)
Definition placeholder (k : text) : text := "{{" ++ k ++ "}}".

(** The name of the type of [v] in the [TypeError] of [str.replace]. *)
Definition argument_type (v : value) : text :=
  match v with
  | VNone => "None"
  | _ => type_name v
  end.

(** [fill_template], identical in [src/app.py] and [src/app-single.py].
    [str.replace] refuses a replacement that is not a [str]. *)
Fixpoint fill_template (template : text) (story : dict) : result text :=
  match story with
  | [] => Ok template
  | (k, v) :: rest =>
      match v with
      | VStr s => fill_template (replace (placeholder k) s template) rest
      | _ =>
          Raise (Exn TypeError
                   ("replace() argument 2 must be str, not "
                    ++ argument_type v))
      end
  end.


(* ------------------------------------------------------------------ *)
(** * Slug derivation *)
(* ------------------------------------------------------------------ *)

(** [v.lower()] on a Story Record value: only a [str] has the method. *)
Definition value_lower (v : value) : result text :=
  match v with
  | VStr s => Ok (lower s)
  | _ =>
      Raise (Exn AttributeError
               ("'" ++ type_name v ++ "' object has no attribute 'lower'"))
  end.

Definition bind_result {A B} (r : result A) (k : A -> result B) : result B :=
  match r with
  | Ok a => k a
  | Raise e => Raise e
  end.

(** [src/app-single.py], line 95: the title in lower case, with
    [replace(" ", "-")] and then the replacement of [":"] by the empty
    string. *)
Definition slug_single (data : dict) : result text :=
  bind_result (dict_item data "storytitle") (fun title =>
  bind_result (value_lower title) (fun low =>
  Ok (replace ":" [] (replace " " "-" low)))).

(** [src/app.py], line 100:
    [story['storytitle'].lower().replace(' ', '-')]. *)
Definition slug_app (story : dict) : result text :=
  bind_result (dict_item story "storytitle") (fun title =>
  bind_result (value_lower title) (fun low =>
  Ok (replace " " "-" low))).

(* ------------------------------------------------------------------ *)
(** * The fenced-block search of [generate_seo] *)
(* ------------------------------------------------------------------ *)

(** The lazy group [(.*?)] followed by the literal [closing], tried at the
    start of [s]; with [re.S] the dot matches every character.  The result
    is the text captured by the group. *)
Fixpoint lazy_until (closing s : text) : option text :=
  match strip_prefix closing s with
  | Some _ => Some []
  | None =>
      match s with
      | [] => None
      | c :: s' =>
          match lazy_until closing s' with
          | Some g => Some (c :: g)
          | None => None
          end
      end
  end.

Definition fence_open : text := "```json".
Definition fence_close : text := "```".
Arguments fence_open : simpl never.
Arguments fence_close : simpl never.

(** The pattern anchored at the start of [s]. *)
Definition match_fence_here (s : text) : option text :=
  match strip_prefix fence_open s with
  | Some rest => lazy_until fence_close rest
  | None => None
  end.

(** [re.search(r"```json(.*?)```", content, re.S)]: start positions are
    tried from the left; the result is [m.group(1)] of the first match. *)
Fixpoint re_search_fence (s : text) : option text :=
  match match_fence_here s with
  | Some g => Some g
  | None =>
      match s with
      | [] => None
      | _ :: s' => re_search_fence s'
      end
  end.

(** [raw = m.group(1).strip() if m else content.strip()] *)
Definition seo_raw (content : text) : text :=
  match re_search_fence content with
  | Some g => strip g
  | None => strip content
  end.

(** The record substituted when parsing fails. *)
Definition seo_default : value :=
  VDict [("metadescription", VStr []); ("metakeywords", VStr [])].

(* ------------------------------------------------------------------ *)
(** * The runtime: external services and library calls *)
(* ------------------------------------------------------------------ *)

(** One chat-completion request, as [call_gpt_system] ([src/app.py]) and
    [chat_completion] ([src/app-single.py]) send it. *)
Record chat_request := ChatRequest {
  cr_system : text;
  cr_user : text;
  cr_max_tokens : nat;
  cr_temperature : value
}.

(** What the source calls and does not define.  Network calls act on an
    abstract [world]; in-memory library calls are partial functions. *)
Class Runtime := {
  world : Type;
  blob : Type;
  response : Type;
  image : Type;
  (** [call_gpt_system] / [chat_completion]: the reply's content. *)
  chat_io : chat_request -> world -> result text * world;
  (** [json.loads] *)
  json_loads : text -> result value;
  (** [str(v)] of an object that is not a [str]. *)
  str_of : value -> text;
  (** [dict.update] with an argument that is not a mapping. *)
  update_from_iterable : dict -> value -> result dict;
  (** [boto3.client("s3", ...)] *)
  s3_client_io : world -> result unit * world;
  (** [requests.post(DALE_ENDPOINT, headers=..., json=...)] *)
  post_io : text -> text -> value -> world -> result response * world;
  (** [dr.raise_for_status()] *)
  raise_for_status : response -> result unit;
  (** [dr.json()['data'][0]['url']] *)
  response_image_url : response -> result value;
  (** [requests.get(url).content] *)
  get_content_io : value -> world -> result blob * world;
  (** [requests.get(url, stream=True).raw] *)
  get_raw_io : text -> world -> result blob * world;
  (** [Image.open] *)
  image_open : blob -> result image;
  (** [img.convert(mode)] *)
  image_convert : image -> text -> result image;
  (** [img.resize((w, h))] *)
  image_resize : image -> nat -> nat -> result image;
  (** [buf = BytesIO(); img.save(buf, "JPEG"); buf.seek(0)] *)
  image_save_jpeg : image -> result blob;
  (** [s3.upload_fileobj(buf, bucket, key)] *)
  upload_fileobj_io : blob -> text -> text -> world -> result unit * world;
  (** [speechsdk.SpeechConfig(...)] and the voice assignment *)
  speech_config_io : text -> world -> result unit * world;
  (** [uuid.uuid4().hex] *)
  uuid4_hex_io : world -> text * world;
  (** [AudioOutputConfig(filename=fn)], [SpeechSynthesizer(...)] and
      [speak_text_async(text).get()] *)
  synthesize_io : value -> text -> world -> result unit * world;
  (** [s3.upload_file(fn, bucket, key)] *)
  upload_file_io : text -> text -> text -> world -> result unit * world
}.

(** The settings read from [st.secrets] that the modelled calls use. *)
Record config := Config {
  DALE_KEY : text;
  DALE_ENDPOINT : text;
  VOICE_NAME : text;
  AWS_BUCKET : text;
  S3_PREFIX : text;
  CDN_BASE : text;
  DEFAULT_ERROR_IMAGE : text
}.

Section Effects.
Context {R : Runtime}.

(** Every external call and every message shown to the user. *)
Inductive event :=
| EvChat (req : chat_request)
| EvWarning (msg : text)
| EvError (msg : text)
| EvS3Client
| EvPost (url key : text) (prompt : value)
| EvGetContent (url : value)
| EvGetRaw (url : text)
| EvUploadFileobj (body : blob) (bucket key : text)
| EvSpeechConfig (voice : text)
| EvUuid
| EvSynthesize (txt : value) (filename : text)
| EvUploadFile (filename bucket key : text).

Record state := State {
  st_world : world;
  st_trace : list event
}.

Definition M (A : Type) : Type := state -> result A * state.

Definition ret {A} (a : A) : M A := fun st => (Ok a, st).

Definition raise {A} (e : exn) : M A := fun st => (Raise e, st).

Definition bind {A B} (m : M A) (k : A -> M B) : M B :=
  fun st =>
    match m st with
    | (Ok a, st') => k a st'
    | (Raise e, st') => (Raise e, st')
    end.

(** A pure library call that may raise. *)
Definition lift {A} (r : result A) : M A := fun st => (r, st).

(** An external call: it is logged, then the runtime answers. *)
Definition io {A} (ev : event) (f : world -> result A * world) : M A :=
  fun st =>
    let (r, w) := f (st_world st) in
    (r, State w (st_trace st ++ [ev])).

(** [st.warning] and [st.error] *)
Definition st_warning (msg : text) : M unit :=
  fun st => (Ok tt, State (st_world st) (st_trace st ++ [EvWarning msg])).

Definition st_error (msg : text) : M unit :=
  fun st => (Ok tt, State (st_world st) (st_trace st ++ [EvError msg])).

(** [try: body  except Exception as e: handler e] *)
Definition try_except {A} (body : M A) (handler : exn -> M A) : M A :=
  fun st =>
    match body st with
    | (Ok a, st') => (Ok a, st')
    | (Raise e, st') => handler e st'
    end.

Definition is_json_decode_error (e : exn) : bool :=
  match exn_cls e with
  | JSONDecodeError => true
  | _ => false
  end.

(** [try: body  except json.JSONDecodeError: handler] *)
Definition try_except_json {A} (body : M A) (handler : M A) : M A :=
  fun st =>
    match body st with
    | (Ok a, st') => (Ok a, st')
    | (Raise e, st') =>
        if is_json_decode_error e then handler st' else (Raise e, st')
    end.

(** [for x in l: s = body x s] *)
Fixpoint for_each {A S} (l : list A) (body : A -> S -> M S) (s : S) : M S :=
  match l with
  | [] => ret s
  | x :: l' => bind (body x s) (for_each l' body)
  end.

End Effects.

Declare Scope monad_scope.
Delimit Scope monad_scope with monad.
Notation "x <- m ;; k" := (bind m (fun x => k))
  (at level 61, m at next level, right associativity) : monad_scope.
Notation "' pat <- m ;; k" := (bind m (fun x => match x with pat => k end))
  (at level 61, pat pattern, m at next level, right associativity)
  : monad_scope.
Notation "m ;; k" := (bind m (fun _ => k))
  (at level 61, right associativity) : monad_scope.
Open Scope monad_scope.

Section Shared.
Context {R : Runtime}.
Variable cfg : config.

(** An f-string field [{v}]. *)
Definition format_value (v : value) : text :=
  match v with
  | VStr s => s
  | _ => str_of v
  end.

(** Lines 84 to 90 of [src/app.py], 82 to 88 of [src/app-single.py]: the two
    variants differ in the text of the warning only. *)
Definition parse_seo_response (warning : text) (content : text) : M value :=
  let raw := seo_raw content in
  try_except_json
    (lift (json_loads raw))
    (st_warning warning ;; ret seo_default).

(** [story.update(seo)] of the orchestrators ([src/app.py] line 194,
    [src/app-single.py] line 177). *)
Definition seo_merge (story : dict) (seo : value) : result dict :=
  match seo with
  | VDict d => Ok (dict_update story d)
  | _ => update_from_iterable story seo
  end.

(** [s{i}image1] and the other positional field names. *)
Definition slide_field (i : nat) (suffix : text) : text :=
  "s" ++ decimal i ++ suffix.

(** [story.get(k, '')] *)
Definition dict_get_default (d : dict) (k : text) (default : value) : value :=
  match dict_get d k with
  | Some v => v
  | None => default
  end.

(** [img.convert("RGB").resize((720, 1200))] *)
Definition normalize (img : image) : result image :=
  bind_result (image_convert img "RGB") (fun rgb =>
  image_resize rgb 720 1200).

(** The body of the [try] block of the image loop: request, status check,
    URL extraction, download, decoding and normalisation. *)
Definition generate_image (prompt : value) : M image :=
  dr <- io (EvPost (DALE_ENDPOINT cfg) (DALE_KEY cfg) prompt)
           (post_io (DALE_ENDPOINT cfg) (DALE_KEY cfg) prompt) ;;
  lift (raise_for_status dr) ;;
  url <- lift (response_image_url dr) ;;
  img_data <- io (EvGetContent url) (get_content_io url) ;;
  img <- lift (image_open img_data) ;;
  lift (normalize img).

(** The image of the [except] branch, after the error message. *)
Definition fallback_image : M image :=
  raw <- io (EvGetRaw (DEFAULT_ERROR_IMAGE cfg))
            (get_raw_io (DEFAULT_ERROR_IMAGE cfg)) ;;
  img <- lift (image_open raw) ;;
  lift (normalize img).

(** JPEG encoding and [s3.upload_fileobj(buf, AWS_BUCKET, key)]. *)
Definition upload_jpeg (img : image) (key : text) : M unit :=
  buf <- lift (image_save_jpeg img) ;;
  io (EvUploadFileobj buf (AWS_BUCKET cfg) key)
     (upload_fileobj_io buf (AWS_BUCKET cfg) key).

(** One iteration of the image loop.  [error_prefix] and [cdn_url] are the
    two places where the variants differ.  The loop state is the local
    variable [img] (unbound before the first iteration) and the record. *)
Definition image_slide (error_prefix : text) (cdn_url : text -> text)
    (slug : text) (i : nat) (s : option image * dict)
  : M (option image * dict) :=
  let data := snd s in
  let prompt := dict_get_default data (slide_field i "alt1") (VStr []) in
  img <- try_except
           (generate_image prompt)
           (fun e =>
              st_error (error_prefix ++ decimal i ++ ": " ++ exn_str e) ;;
              fallback_image) ;;
  let key := S3_PREFIX cfg ++ "/" ++ slug ++ "/slide" ++ decimal i ++ ".jpg" in
  upload_jpeg img key ;;
  ret (Some img, dict_set data (slide_field i "image1") (VStr (cdn_url key))).

(** The dict literal of the narration loop, in its insertion order. *)
Definition audio_fields : list (text * text) :=
  [("storytitle", "s1audio1"); ("s2paragraph1", "s2audio1");
   ("s3paragraph1", "s3audio1"); ("s4paragraph1", "s4audio1");
   ("s5paragraph1", "s5audio1"); ("s6paragraph1", "s6audio1")].

(** [story.get(field)]: [None] when the key is absent. *)
Definition dict_get_none (d : dict) (k : text) : value :=
  dict_get_default d k VNone.

(** One iteration of the narration loop.  The loop state is the record and
    the side table [cdn_urls] (kept by [src/app.py] only). *)
Definition audio_step (cdn_url : text -> text) (fa : text * text)
    (s : dict * dict) : M (dict * dict) :=
  let (field, audio_key) := fa in
  let (story, cdn_urls) := s in
  let txt := dict_get_none story field in
  if negb (truthy txt) then ret s
  else
    hex <- io EvUuid (fun w => let (h, w') := uuid4_hex_io w in (Ok h, w')) ;;
    let fn := hex ++ ".mp3" in
    io (EvSynthesize txt fn) (synthesize_io txt fn) ;;
    let key := S3_PREFIX cfg ++ "/audio/" ++ fn in
    io (EvUploadFile fn (AWS_BUCKET cfg) key)
       (upload_file_io fn (AWS_BUCKET cfg) key) ;;
    let url := cdn_url key in
    ret (dict_set story audio_key (VStr url),
         dict_set cdn_urls field (VStr url)).

(** The two calls before the narration loop. *)
Definition audio_setup : M unit :=
  io EvS3Client s3_client_io ;;
  io (EvSpeechConfig (VOICE_NAME cfg)) (speech_config_io (VOICE_NAME cfg)).

End Shared.

(* ------------------------------------------------------------------ *)
(** * Variant 1: [src/app-single.py] *)
(* ------------------------------------------------------------------ *)

Module Single.
Section Single.
Context {R : Runtime}.
Variable cfg : config.

Definition seo_prompt (data : dict) : result text :=
  bind_result (dict_item data "storytitle") (fun title =>
  bind_result (dict_item data "s2paragraph1") (fun p2 =>
  bind_result (dict_item data "s3paragraph1") (fun p3 =>
  bind_result (dict_item data "s4paragraph1") (fun p4 =>
  bind_result (dict_item data "s5paragraph1") (fun p5 =>
  bind_result (dict_item data "s6paragraph1") (fun p6 =>
  Ok ("Generate SEO metadata *strictly* as JSON. Wrap your answer in ```json ... ``` with no extra text."
        ++ [newline; newline]
        ++ "Title: " ++ format_value title ++ [newline]
        ++ "Slides:" ++ [newline]
        ++ "- " ++ format_value p2 ++ [newline]
        ++ "- " ++ format_value p3 ++ [newline]
        ++ "- " ++ format_value p4 ++ [newline]
        ++ "- " ++ format_value p5 ++ [newline]
        ++ "- " ++ format_value p6 ++ [newline]
        ++ "Return keys: metadescription, metakeywords."))))))).

Definition seo_request (prompt : text) : chat_request :=
  ChatRequest "You are an expert SEO assistant." prompt 300 (VFloat 5 (-1)).

Definition seo_warning : text :=
  "⚠️ SEO JSON parse failed; using empty metadata.".

Definition generate_seo (data : dict) : M value :=
  prompt <- lift (seo_prompt data) ;;
  content <- io (EvChat (seo_request prompt)) (chat_io (seo_request prompt)) ;;
  parse_seo_response seo_warning content.

Definition cdn_url (key : text) : text := CDN_BASE cfg ++ key.

Definition error_prefix : text := "Image gen failed for slide ".

Definition generate_images_and_upload (data : dict) : M dict :=
  io EvS3Client s3_client_io ;;
  slug <- lift (slug_single data) ;;
  '(img, data) <- for_each (seq 1 6)
                    (image_slide cfg error_prefix cdn_url slug) (None, data) ;;
  (* portrait cover *)
  cover_img <- match img with
               | Some im => ret im
               | None =>
                   raise (Exn UnboundLocalError
                            "cannot access local variable 'img' where it is not associated with a value")
               end ;;
  let cover_key := S3_PREFIX cfg ++ "/" ++ slug ++ "/portrait_cover.jpg" in
  upload_jpeg cfg cover_img cover_key ;;
  ret (dict_set data "portraitcoverurl" (VStr (cdn_url cover_key))).

Definition synthesize_and_upload_audio (data : dict) : M dict :=
  audio_setup cfg ;;
  '(data, _) <- for_each audio_fields (audio_step cfg cdn_url) (data, []) ;;
  ret data.

(** Lines 175 to 177: [seo = generate_seo(story); story.update(seo)]. *)
Definition seo_stage (story : dict) : M dict :=
  seo <- generate_seo story ;;
  lift (seo_merge story seo).

End Single.
End Single.

(* ------------------------------------------------------------------ *)
(** * Variant 2: [src/app.py] *)
(* ------------------------------------------------------------------ *)

Module App.
Section App.
Context {R : Runtime}.
Variable cfg : config.

(** The generator of line 78 is consumed by [join] before the title is
    read on line 81. *)
Definition seo_prompt (story : dict) : result text :=
  bind_result (dict_item story "s2paragraph1") (fun p2 =>
  bind_result (dict_item story "s3paragraph1") (fun p3 =>
  bind_result (dict_item story "s4paragraph1") (fun p4 =>
  bind_result (dict_item story "s5paragraph1") (fun p5 =>
  bind_result (dict_item story "s6paragraph1") (fun p6 =>
  let slides :=
    "- " ++ format_value p2 ++ [newline]
    ++ "- " ++ format_value p3 ++ [newline]
    ++ "- " ++ format_value p4 ++ [newline]
    ++ "- " ++ format_value p5 ++ [newline]
    ++ "- " ++ format_value p6 in
  bind_result (dict_item story "storytitle") (fun title =>
  Ok ("Generate SEO metadata strictly as JSON. Wrap in ```json``` only."
        ++ [newline]
        ++ "Title: " ++ format_value title ++ [newline]
        ++ "Slides:" ++ [newline]
        ++ slides ++ [newline]
        ++ "Return keys: metadescription, metakeywords."))))))).

Definition seo_request (prompt : text) : chat_request :=
  ChatRequest "You are an expert SEO assistant." prompt 300 (VFloat 5 (-1)).

Definition seo_warning : text :=
  "⚠️ SEO parsing failed; using empty metadata.".

Definition generate_seo (story : dict) : M value :=
  seo_prompt <- lift (seo_prompt story) ;;
  content <- io (EvChat (seo_request seo_prompt))
                (chat_io (seo_request seo_prompt)) ;;
  parse_seo_response seo_warning content.

Definition cdn_url (key : text) : text := CDN_BASE cfg ++ "/" ++ key.

Definition error_prefix : text := "Image gen failed slide ".

Definition generate_images (story : dict) : M dict :=
  io EvS3Client s3_client_io ;;
  slug <- lift (slug_app story) ;;
  '(_, story) <- for_each (seq 1 6)
                   (image_slide cfg error_prefix cdn_url slug) (None, story) ;;
  ret story.

Definition synthesize_audio (story : dict) : M (dict * dict) :=
  audio_setup cfg ;;
  for_each audio_fields (audio_step cfg cdn_url) (story, []).

(** Lines 192 to 194: [seo = generate_seo(story); story.update(seo)]. *)
Definition seo_stage (story : dict) : M dict :=
  seo <- generate_seo story ;;
  lift (seo_merge story seo).

End App.
End App.

(* ------------------------------------------------------------------ *)
(** * A reference [json.loads] *)
(* ------------------------------------------------------------------ *)

(** The theorems on [generate_seo] hold for every [json_loads] of the
    runtime.  The decoder below follows the grammar of Python's [json]
    module (strict mode) and is used to run the functions on concrete
    replies.  It does not model the interpreter's recursion limit nor its
    limit on the digits of an integer, and the text of its error messages
    is not modelled. *)
Module Json.

Definition is_ws (c : ascii) : bool :=
  let n := nat_of_ascii c in
  (n =? 32) || (n =? 9) || (n =? 10) || (n =? 13).

Fixpoint skip_ws (s : text) : text :=
  match s with
  | [] => []
  | c :: s' => if is_ws c then skip_ws s' else s
  end.

Definition is_digit (c : ascii) : bool :=
  let n := nat_of_ascii c in (48 <=? n) && (n <=? 57).

Definition digit_val (c : ascii) : Z := Z.of_nat (nat_of_ascii c - 48).

Fixpoint span_digits (s : text) : text * text :=
  match s with
  | [] => ([], [])
  | c :: s' =>
      if is_digit c
      then let (ds, r) := span_digits s' in (c :: ds, r)
      else ([], s)
  end.

Definition digits_to_Z (ds : text) : Z :=
  fold_left (fun acc d => (10 * acc + digit_val d)%Z) ds 0%Z.

Definition hex_val (c : ascii) : option nat :=
  let n := nat_of_ascii c in
  if (48 <=? n) && (n <=? 57) then Some (n - 48)
  else if (97 <=? n) && (n <=? 102) then Some (n - 87)
  else if (65 <=? n) && (n <=? 70) then Some (n - 55)
  else None.

(** The four hexadecimal digits after a backslash and [u]. *)
Definition hex4 (s : text) : option (nat * text) :=
  match s with
  | a :: b :: c :: d :: r =>
      match hex_val a, hex_val b, hex_val c, hex_val d with
      | Some x, Some y, Some z, Some w =>
          Some (((x * 16 + y) * 16 + z) * 16 + w, r)
      | _, _, _, _ => None
      end
  | _ => None
  end.

(** UTF-8 code units of a code point. *)
Definition utf8 (cp : nat) : text :=
  if cp <? 128 then [ascii_of_nat cp]
  else if cp <? 2048 then
    [ascii_of_nat (192 + cp / 64); ascii_of_nat (128 + cp mod 64)]
  else if cp <? 65536 then
    [ascii_of_nat (224 + cp / 4096); ascii_of_nat (128 + (cp / 64) mod 64);
     ascii_of_nat (128 + cp mod 64)]
  else
    [ascii_of_nat (240 + cp / 262144);
     ascii_of_nat (128 + (cp / 4096) mod 64);
     ascii_of_nat (128 + (cp / 64) mod 64); ascii_of_nat (128 + cp mod 64)].

Definition is_char (c : ascii) (n : nat) : bool := nat_of_ascii c =? n.

(** The characters of a string literal after its opening quote. *)
Fixpoint scan_string (fuel : nat) (s : text) : option (text * text) :=
  match fuel with
  | O => None
  | S f =>
      match s with
      | [] => None
      | c :: r =>
          if is_char c 34 then Some ([], r)
          else if is_char c 92 then
            match r with
            | [] => None
            | e :: r' =>
                let simple (x : nat) :=
                  match scan_string f r' with
                  | Some (t, r'') => Some (ascii_of_nat x :: t, r'')
                  | None => None
                  end in
                if is_char e 34 then simple 34
                else if is_char e 92 then simple 92
                else if is_char e 47 then simple 47
                else if is_char e 98 then simple 8
                else if is_char e 102 then simple 12
                else if is_char e 110 then simple 10
                else if is_char e 114 then simple 13
                else if is_char e 116 then simple 9
                else if is_char e 117 then
                  match hex4 r' with
                  | Some (hi, r1) =>
                      let pair :=
                        if (55296 <=? hi) && (hi <=? 56319) then
                          match r1 with
                          | b :: u :: r2 =>
                              if is_char b 92 && is_char u 117 then
                                match hex4 r2 with
                                | Some (lo, r3) =>
                                    if (56320 <=? lo) && (lo <=? 57343)
                                    then Some (65536 + (hi - 55296) * 1024
                                               + (lo - 56320), r3)
                                    else None
                                | None => None
                                end
                              else None
                          | _ => None
                          end
                        else None in
                      let (cp, rest) :=
                        match pair with
                        | Some p => p
                        | None => (hi, r1)
                        end in
                      match scan_string f rest with
                      | Some (t, r'') => Some (utf8 cp ++ t, r'')
                      | None => None
                      end
                  | None => None
                  end
                else None
            end
          else if nat_of_ascii c <? 32 then None
          else
            match scan_string f r with
            | Some (t, r') => Some (c :: t, r')
            | None => None
            end
      end
  end.

(** A number literal: an optional minus sign, an integer part without
    leading zero, an optional fraction (a dot and digits) and an optional
    exponent.  A dot or an exponent mark that no digit follows is left
    unread. *)
Definition scan_number (s : text) : option (value * text) :=
  let (neg, s1) :=
    match s with
    | c :: r => if is_char c 45 then (true, r) else (false, s)
    | [] => (false, s)
    end in
  let int_part :=
    match s1 with
    | c :: r =>
        if is_char c 48 then Some ([c], r)
        else if is_digit c then Some (span_digits s1)
        else None
    | [] => None
    end in
  match int_part with
  | None => None
  | Some (ids, s2) =>
      let (fds, s3) :=
        match s2 with
        | c :: r =>
            if is_char c 46 then
              match span_digits r with
              | ([], _) => ([], s2)
              | (ds, r') => (ds, r')
              end
            else ([], s2)
        | [] => ([], s2)
        end in
      let (ex, s4) :=
        match s3 with
        | c :: r =>
            if is_char c 101 || is_char c 69 then
              let (eneg, r1) :=
                match r with
                | g :: r' =>
                    if is_char g 45 then (true, r')
                    else if is_char g 43 then (false, r')
                    else (false, r)
                | [] => (false, r)
                end in
              match span_digits r1 with
              | ([], _) => (None, s3)
              | (ds, r2) =>
                  (Some (if eneg then (- digits_to_Z ds)%Z
                         else digits_to_Z ds), r2)
              end
            else (None, s3)
        | [] => (None, s3)
        end in
      let sign (z : Z) := if neg then (- z)%Z else z in
      match fds, ex with
      | [], None => Some (VInt (sign (digits_to_Z ids)), s4)
      | _, _ =>
          let e := match ex with Some e => e | None => 0%Z end in
          Some (VFloat (sign (digits_to_Z (ids ++ fds)))
                       (e - Z.of_nat (length fds)), s4)
      end
  end.

Fixpoint parse_value (fuel : nat) (s : text) : option (value * text) :=
  match fuel with
  | O => None
  | S f =>
      match s with
      | [] => None
      | c :: r =>
          if is_char c 34 then
            match scan_string (S (length r)) r with
            | Some (t, r') => Some (VStr t, r')
            | None => None
            end
          else if is_char c 123 then
            match skip_ws r with
            | [] => None
            | c1 :: r1 =>
                if is_char c1 125 then Some (VDict [], r1)
                else parse_members f (c1 :: r1) []
            end
          else if is_char c 91 then
            match skip_ws r with
            | [] => None
            | c1 :: r1 =>
                if is_char c1 93 then Some (VList [], r1)
                else parse_elements f (c1 :: r1) []
            end
          else
            match strip_prefix "null" s with
            | Some r' => Some (VNone, r')
            | None =>
            match strip_prefix "true" s with
            | Some r' => Some (VBool true, r')
            | None =>
            match strip_prefix "false" s with
            | Some r' => Some (VBool false, r')
            | None =>
            match scan_number s with
            | Some res => Some res
            | None =>
            match strip_prefix "NaN" s with
            | Some r' => Some (VNaN, r')
            | None =>
            match strip_prefix "Infinity" s with
            | Some r' => Some (VInf false, r')
            | None =>
            match strip_prefix "-Infinity" s with
            | Some r' => Some (VInf true, r')
            | None => None
            end end end end end end end
      end
  end

with parse_members (fuel : nat) (s : text) (acc : dict)
  : option (value * text) :=
  match fuel with
  | O => None
  | S f =>
      match s with
      | [] => None
      | q :: r =>
          if is_char q 34 then
            match scan_string (S (length r)) r with
            | None => None
            | Some (k, r1) =>
                match skip_ws r1 with
                | [] => None
                | c :: r2 =>
                    if is_char c 58 then
                      match parse_value f (skip_ws r2) with
                      | None => None
                      | Some (v, r3) =>
                          let acc' := dict_set acc k v in
                          match skip_ws r3 with
                          | [] => None
                          | d :: r4 =>
                              if is_char d 125 then Some (VDict acc', r4)
                              else if is_char d 44
                              then parse_members f (skip_ws r4) acc'
                              else None
                          end
                      end
                    else None
                end
            end
          else None
      end
  end

with parse_elements (fuel : nat) (s : text) (acc : list value)
  : option (value * text) :=
  match fuel with
  | O => None
  | S f =>
      match parse_value f s with
      | None => None
      | Some (v, r) =>
          match skip_ws r with
          | [] => None
          | d :: r1 =>
              if is_char d 93 then Some (VList (rev (v :: acc)), r1)
              else if is_char d 44
              then parse_elements f (skip_ws r1) (v :: acc)
              else None
          end
      end
  end.

Definition decode_error : exn := Exn JSONDecodeError "Expecting value".

Definition bom : text := [ascii_of_nat 239; ascii_of_nat 187; ascii_of_nat 191].

(** [json.loads(s)] for a [str]. *)
Definition loads (s : text) : result value :=
  match strip_prefix bom s with
  | Some _ => Raise decode_error
  | None =>
      match parse_value (2 * length s + 2) (skip_ws s) with
      | Some (v, r) =>
          match skip_ws r with
          | [] => Ok v
          | _ :: _ => Raise decode_error
          end
      | None => Raise decode_error
      end
  end.

End Json.

(* ------------------------------------------------------------------ *)
(** * A scripted runtime *)
(* ------------------------------------------------------------------ *)

(** A runtime in which every service answers, used to run the pipeline on
    concrete records.  Images and byte buffers are texts that spell out how
    they were obtained; the world counts the identifiers handed out by
    [uuid4].  The image service answers every prompt but [fail]; the chat
    service answers with a fixed reply. *)
Module Script.

Definition failure (msg : text) : exn := Exn (OtherError "HTTPError") msg.

Definition post (url key : text) (prompt : value) (w : nat)
  : result text * nat :=
  match prompt with
  | VStr p =>
      if text_eqb p "fail" then (Raise (failure "400 Bad Request"), w)
      else (Ok p, w)
  | _ => (Raise (failure "400 Bad Request"), w)
  end.

Definition get_content (url : value) (w : nat) : result text * nat :=
  match url with
  | VStr u => (Ok u, w)
  | _ => (Raise (Exn (OtherError "MissingSchema") "Invalid URL"), w)
  end.

(** [fetch_raw] answers the download of the fallback image. *)
Definition make (reply : text) (fetch_raw : text -> nat -> result text * nat)
  : Runtime := {|
  world := nat;
  blob := text;
  response := text;
  image := text;
  chat_io := fun _ w => (Ok reply, w);
  json_loads := Json.loads;
  str_of := fun _ => "?";
  update_from_iterable := fun _ _ => Raise (Exn TypeError "not a mapping");
  s3_client_io := fun w => (Ok tt, w);
  post_io := post;
  raise_for_status := fun _ => Ok tt;
  response_image_url := fun r => Ok (VStr ("https://img/" ++ r));
  get_content_io := get_content;
  get_raw_io := fetch_raw;
  image_open := fun b => Ok ("image(" ++ b ++ ")");
  image_convert := fun i m => Ok (m ++ ":" ++ i);
  image_resize := fun i w h => Ok (decimal w ++ "x" ++ decimal h ++ ":" ++ i);
  image_save_jpeg := fun i => Ok ("jpeg:" ++ i);
  upload_fileobj_io := fun _ _ _ w => (Ok tt, w);
  speech_config_io := fun _ w => (Ok tt, w);
  uuid4_hex_io := fun w => ("id" ++ decimal w, S w);
  synthesize_io := fun _ _ w => (Ok tt, w);
  upload_file_io := fun _ _ _ w => (Ok tt, w)
|}.

(** Every service answers. *)
Definition runtime (reply : text) : Runtime :=
  make reply (fun u w => (Ok u, w)).

(** The fallback image cannot be downloaded. *)
Definition offline (reply : text) : Runtime :=
  make reply (fun _ w => (Raise (failure "503 Service Unavailable"), w)).

(** The defaults of [src/app.py]; the bucket has no default. *)
Definition cfg_app : config := {|
  DALE_KEY := "key";
  DALE_ENDPOINT := "https://dalle";
  VOICE_NAME := "en-IN-AaravNeural";
  AWS_BUCKET := "bucket";
  S3_PREFIX := "media";
  CDN_BASE := "https://media.suvichaar.org";
  DEFAULT_ERROR_IMAGE := "https://media.suvichaar.org/default-error.jpg"
|}.

(** The defaults of [src/app-single.py]. *)
Definition cfg_single : config := {|
  DALE_KEY := "key";
  DALE_ENDPOINT := "https://dalle";
  VOICE_NAME := "en-IN-AaravNeural";
  AWS_BUCKET := "bucket";
  S3_PREFIX := "media/";
  CDN_BASE := "https://media.suvichaar.org/";
  DEFAULT_ERROR_IMAGE := "https://media.suvichaar.org/default-error.jpg"
|}.

(** A fully populated narrative record. *)
Definition story : dict :=
  [("storytitle", VStr "How Plants Eat Sunlight");
   ("s2paragraph1", VStr "p2"); ("s3paragraph1", VStr "p3");
   ("s4paragraph1", VStr "p4"); ("s5paragraph1", VStr "p5");
   ("s6paragraph1", VStr "p6");
   ("s1alt1", VStr "a1"); ("s2alt1", VStr "a2"); ("s3alt1", VStr "a3");
   ("s4alt1", VStr "a4"); ("s5alt1", VStr "a5"); ("s6alt1", VStr "a6")].

(** The same record with a prompt that the image service rejects. *)
Definition story_slide3_fails : dict :=
  dict_set story "s3alt1" (VStr "fail").

(** The same record with an empty fourth paragraph. *)
Definition story_slide4_empty : dict :=
  dict_set story "s4paragraph1" (VStr []).

(** A reply of the chat service whose JSON object names a narrative field:
    an object with the one key [storytitle] and the value [x]. *)
Definition reply_with_title : text :=
  "{" ++ [dquote] ++ "storytitle" ++ [dquote] ++ ":"
  ++ [dquote] ++ "x" ++ [dquote] ++ "}".

End Script.

(* ------------------------------------------------------------------ *)
(** * Templates as token lists *)
(* ------------------------------------------------------------------ *)

(** The reading of a template that the specification of [fill_template]
    speaks of: literal characters and placeholders.  Braces occur in a
    well-formed token list only as the delimiters of placeholders. *)
Inductive token :=
| Lit (c : ascii)
| Hole (name : text).

Definition is_brace (c : ascii) : bool :=
  Ascii.eqb c "{"%char || Ascii.eqb c "}"%char.

Definition brace_free (s : text) : bool :=
  forallb (fun c => negb (is_brace c)) s.

Definition token_ok (tok : token) : bool :=
  match tok with
  | Lit c => negb (is_brace c)
  | Hole name => brace_free name
  end.

Definition render_token (tok : token) : text :=
  match tok with
  | Lit c => [c]
  | Hole name => placeholder name
  end.

(** The template text a token list stands for. *)
Definition render (toks : list token) : text := flat_map render_token toks.

(** Simultaneous substitution, as the specification words it: a placeholder
    whose name is a field of the record becomes the field's value, every
    other token is kept as it is. *)
Definition fill_token (story : dict) (tok : token) : text :=
  match tok with
  | Lit c => [c]
  | Hole name =>
      match dict_get story name with
      | Some (VStr v) => v
      | _ => placeholder name
      end
  end.

Definition instantiate (story : dict) (toks : list token) : text :=
  flat_map (fill_token story) toks.

Definition is_str (v : value) : bool :=
  match v with
  | VStr _ => true
  | _ => false
  end.

(** Every value of the record is a [str]. *)
Definition all_str (story : dict) : bool :=
  forallb (fun kv => is_str (snd kv)) story.

(** Field names and values are strings without braces. *)
Definition field_ok (kv : text * value) : bool :=
  brace_free (fst kv)
  && match snd kv with
     | VStr v => brace_free v
     | _ => false
     end.

Definition record_ok (story : dict) : bool := forallb field_ok story.

(** One step of the loop of [fill_template], read on tokens: the holes
    named [k] become the characters of [v]. *)
Definition fill_one (k v : text) (toks : list token) : list token :=
  flat_map (fun tok =>
              match tok with
              | Lit _ => [tok]
              | Hole name => if text_eqb name k then map Lit v else [tok]
              end) toks.

(** A reading of a template in which literal text may hold braces: only
    the names of the placeholders are free of them. *)
Definition hole_ok (tok : token) : bool :=
  match tok with
  | Lit _ => true
  | Hole name => brace_free name
  end.

(** The text that [toks] stand for holds an occurrence of the placeholder
    of [k] that starts at a literal character: an occurrence that is not
    one of the placeholders of the reading. *)
Fixpoint stray (k : text) (toks : list token) : bool :=
  match toks with
  | [] => false
  | Lit c :: rest =>
      match strip_prefix (placeholder k) (c :: render rest) with
      | Some _ => true
      | None => false
      end
      || stray k rest
  | Hole _ :: rest => stray k rest
  end.

(** The loop of [fill_template] is not disturbed: the record holds
    strings under brace-free names and, whenever the loop reaches a field,
    the text built so far holds the placeholder of that field only where
    the template has it.  The values put in before are literal text by
    then. *)
Fixpoint quiet (story : dict) (toks : list token) : bool :=
  match story with
  | [] => true
  | (k, v) :: rest =>
      match v with
      | VStr s =>
          brace_free k && negb (stray k toks) && quiet rest (fill_one k s toks)
      | _ => false
      end
  end.

(* ------------------------------------------------------------------ *)
(** * White space and letter case, as the specification reads them *)
(* ------------------------------------------------------------------ *)

(** A run of white-space characters. *)
Definition blank (s : text) : Prop :=
  exists ws, Forall (fun w => In w spaces) ws /\ s = concat ws.

(** [core] is [s] without the white space around it: what was taken away
    at both ends is white space, and [core] neither starts nor ends with a
    white-space character. *)
Definition stripped_of (s core : text) : Prop :=
  exists a b,
    blank a /\ blank b /\ s = a ++ core ++ b
    /\ (forall w r, In w spaces -> core <> w ++ r)
    /\ (forall w r, In w spaces -> core <> r ++ w).

(** Every character is in the ASCII range. *)
Definition is_ascii (s : text) : bool :=
  forallb (fun c => (byte c <? 128)%N) s.

(** One of the letters A to Z. *)
Definition is_capital (c : ascii) : bool :=
  ((65 <=? byte c) && (byte c <=? 90))%N.

(** Lower case on the ASCII range: A to Z become a to z, which lie 32
    places further; every other character is kept. *)
Definition ascii_lower (c : ascii) : ascii :=
  if is_capital c then chr (byte c + 32) else c.

(** The character maps that the two [replace] calls of the slug amount to. *)
Definition hyphenate (c : ascii) : ascii :=
  if Ascii.eqb c " "%char then "-"%char else c.

Definition not_colon (c : ascii) : bool := negb (Ascii.eqb c ":"%char).

(** [content] holds a fenced block with body [g] between [pre] and [post]. *)
Definition fenced (content pre g post : text) : Prop :=
  content = pre ++ fence_open ++ g ++ fence_close ++ post.

(** The block that starts at the leftmost opening fence and ends at the
    first closing fence after it. *)
Definition first_fenced (content pre g post : text) : Prop :=
  fenced content pre g post
  /\ (forall a b, content = a ++ fence_open ++ b -> length pre <= length a)
  /\ (forall a b,
        g ++ fence_close ++ post = a ++ fence_close ++ b ->
        length g <= length a).

(** The reply of the specification's example and the JSON text in it. *)
Definition example_json : text :=
  "{" ++ [dquote] ++ "metadescription" ++ [dquote] ++ ":"
  ++ [dquote] ++ "d" ++ [dquote] ++ ","
  ++ [dquote] ++ "metakeywords" ++ [dquote] ++ ":"
  ++ [dquote] ++ "k" ++ [dquote] ++ "}".

Definition example_reply : text :=
  "noise ```json" ++ [newline] ++ example_json ++ [newline] ++ "``` trailing".

Definition example_seo : value :=
  VDict [("metadescription", VStr "d"); ("metakeywords", VStr "k")].

(** The fields that [generate_seo] reads with [story[...]]. *)
Definition seo_fields : list text :=
  ["storytitle"; "s2paragraph1"; "s3paragraph1"; "s4paragraph1";
   "s5paragraph1"; "s6paragraph1"].

(** [KeyError(k)] as [dict_item] raises it. *)
Definition key_error (k : text) : exn := Exn KeyError ("'" ++ k ++ "'").

(* ------------------------------------------------------------------ *)
(** * Vocabulary for the image and narration loops *)
(* ------------------------------------------------------------------ *)

Section Vocabulary.
Context {R : Runtime}.
Variable cfg : config.

(** The prompt, the storage key and the error message of slide [i], as
    [image_slide] computes them. *)
Definition slide_prompt (data : dict) (i : nat) : value :=
  dict_get_default data (slide_field i "alt1") (VStr []).

Definition slide_key (slug : text) (i : nat) : text :=
  S3_PREFIX cfg ++ "/" ++ slug ++ "/slide" ++ decimal i ++ ".jpg".

Definition slide_error (error_prefix : text) (i : nat) (e : exn) : text :=
  error_prefix ++ decimal i ++ ": " ++ exn_str e.

(** The error messages shown to the user, in order. *)
Definition errors (tr : list event) : list text :=
  flat_map (fun ev => match ev with EvError m => [m] | _ => [] end) tr.

(** The prompts sent to the image service, in order. *)
Definition posts (tr : list event) : list value :=
  flat_map (fun ev => match ev with EvPost _ _ p => [p] | _ => [] end) tr.

(** The [except] branch never raises. *)
Definition fallback_reliable : Prop :=
  forall st, exists img st', fallback_image cfg st = (Ok img, st').

(** Encoding and upload never raise. *)
Definition upload_reliable : Prop :=
  forall img key st, exists st', upload_jpeg cfg img key st = (Ok tt, st').

(** [st.error(...)] of the [except] branch. *)
Definition after_error (msg : text) (st : state) : state :=
  State (st_world st) (st_trace st ++ [EvError msg]).

(** The last step of an iteration: upload, then the assignment to the
    record. *)
Definition publish (cdn_url : text -> text) (slug : text) (i : nat)
    (data : dict) (img : image) (st : state)
  : result (option image * dict) * state :=
  match upload_jpeg cfg img (slide_key slug i) st with
  | (Ok _, st') =>
      (Ok (Some img,
           dict_set data (slide_field i "image1")
             (VStr (cdn_url (slide_key slug i)))), st')
  | (Raise e, st') => (Raise e, st')
  end.

(** The assignments that the iterations for the slides [l] make. *)
Definition record_images (cdn_url : text -> text) (slug : text)
    (l : list nat) (data : dict) : dict :=
  fold_left
    (fun d i =>
       dict_set d (slide_field i "image1")
         (VStr (cdn_url (slide_key slug i))))
    l data.

(** The portrait cover of [src/app-single.py], lines 113 to 118. *)
Definition cover_key (slug : text) : text :=
  S3_PREFIX cfg ++ "/" ++ slug ++ "/portrait_cover.jpg".

Definition cover (slug : text) (s : option image * dict) (st : state)
  : result dict * state :=
  match fst s with
  | None =>
      (Raise (Exn UnboundLocalError
                "cannot access local variable 'img' where it is not associated with a value"),
       st)
  | Some img =>
      match upload_jpeg cfg img (cover_key slug) st with
      | (Ok _, st') =>
          (Ok (dict_set (snd s) "portraitcoverurl"
                 (VStr (Single.cdn_url cfg (cover_key slug)))), st')
      | (Raise e, st') => (Raise e, st')
      end
  end.

End Vocabulary.

(** The keys written by the image loop and by the narration loop. *)
Definition image_keys : list text :=
  map (fun i => slide_field i "image1") (seq 1 6).

Definition audio_keys : list text := map snd audio_fields.

(** [story'] keeps every field of [story] with its value. *)
Definition extends (story story' : dict) : Prop :=
  forall k v, dict_get story k = Some v -> dict_get story' k = Some v.

(** Every field that [story'] has and [story] has not holds a [str]. *)
Definition adds_str (story story' : dict) : Prop :=
  forall k v,
    dict_get story k = None -> dict_get story' k = Some v -> is_str v = true.

Section NarrationVocabulary.
Context {R : Runtime}.
Variable cfg : config.
Variable cdn_url : text -> text.

(** The entries of the mapping whose source text is present and not empty
    in [story]: the test [if not text: continue] lets them through. *)
Definition speakable (story : dict) (fa : text * text) : bool :=
  truthy (dict_get_none story (fst fa)).

Definition narrated (story : dict) (l : list (text * text))
  : list (text * text) :=
  filter (speakable story) l.

(** The CDN URL of the clip stored in file [fn]. *)
Definition audio_url (fn : text) : text :=
  cdn_url (S3_PREFIX cfg ++ "/audio/" ++ fn).

(** The assignments [story[audio_key] = url] for a list of entries paired
    with the files of their clips. *)
Definition record_audio (writes : list ((text * text) * text)) (story : dict)
  : dict :=
  fold_left
    (fun d w => dict_set d (snd (fst w)) (VStr (audio_url (snd w))))
    writes story.

(** The texts sent to the synthesizer, with their files, in order. *)
Definition synth_events (tr : list event) : list (value * text) :=
  flat_map (fun ev =>
              match ev with
              | EvSynthesize t fn => [(t, fn)]
              | _ => []
              end) tr.

(** No source field of [l] is an audio key of [l]. *)
Definition sources_apart (l : list (text * text)) : Prop :=
  forall f a, In f (map fst l) -> In a (map snd l) -> f <> a.

(** The speech and storage services never raise. *)
Definition narration_reliable : Prop :=
  (forall w, exists w', s3_client_io w = (Ok tt, w'))
  /\ (forall v w, exists w', speech_config_io v w = (Ok tt, w'))
  /\ (forall t fn w, exists w', synthesize_io t fn w = (Ok tt, w'))
  /\ (forall fn b k w, exists w', upload_file_io fn b k w = (Ok tt, w')).

End NarrationVocabulary.

(** No field of [ks] is set in [story]. *)
Definition fresh (ks : list text) (story : dict) : Prop :=
  forall k, In k ks -> dict_get story k = None.

(** The field names that [generate_story] asks the model for. *)
Definition narrative_fields : list text :=
  ["storytitle"; "s2paragraph1"; "s3paragraph1"; "s4paragraph1";
   "s5paragraph1"; "s6paragraph1"; "s1alt1"; "s2alt1"; "s3alt1"; "s4alt1";
   "s5alt1"; "s6alt1"].

(** [story] has no other fields than the narrative ones. *)
Definition narrative_record (story : dict) : Prop :=
  forall k, dict_get story k <> None -> In k narrative_fields.

Section NarrationOutcome.
Context {R : Runtime}.
Variable cfg : config.
Variable cdn_url : text -> text.

(** What a run of the narration loop that ends normally has done, from the
    record [story] and state [st] to the record [story'] and state [st']. *)
Definition narration_outcome (story : dict) (st : state) (story' : dict)
    (st' : state) : Prop :=
  (* a speakable source is synthesized and its audio field written *)
  (forall f a,
     In (f, a) audio_fields ->
     truthy (dict_get_none story f) = true ->
     exists fn,
       dict_get story' a = Some (VStr (audio_url cfg cdn_url fn))
       /\ In (dict_get_none story f, fn) (synth_events (st_trace st')))
  (* an absent or empty source is skipped *)
  /\ (forall f a,
        In (f, a) audio_fields ->
        truthy (dict_get_none story f) = false ->
        dict_get story' a = dict_get story a)
  (* no other field is touched *)
  /\ (forall k, ~ In k audio_keys -> dict_get story' k = dict_get story k)
  (* on a record without audio fields: written if and only if speakable *)
  /\ (fresh audio_keys story ->
      forall f a,
        In (f, a) audio_fields ->
        (dict_get story' a <> None <-> truthy (dict_get_none story f) = true))
  (* the synthesizer is called in the order of the mapping *)
  /\ (exists fns,
        length fns = length (narrated story audio_fields)
        /\ synth_events (st_trace st')
           = synth_events (st_trace st)
             ++ combine (map (fun fa => dict_get_none story (fst fa))
                           (narrated story audio_fields)) fns)
  (* a fully populated record has all six entries narrated *)
  /\ ((forall f, In f (map fst audio_fields) ->
                 truthy (dict_get_none story f) = true) ->
      narrated story audio_fields = audio_fields).

End NarrationOutcome.

From Stdlib Require Import Permutation.

(* ------------------------------------------------------------------ *)
(** * Narrative generation: [generate_story] *)
(* ------------------------------------------------------------------ *)

(** [generate_story] of [src/app.py] (lines 68 to 74): one chat request with
    the defaults of [call_gpt_system], then [json.loads] on the reply, with
    no [try] around it. *)
Module AppStory.
Section AppStory.
Context {R : Runtime}.

Definition story_request (text : text) : chat_request :=
  ChatRequest
    "You are a teaching assistant. Create JSON with keys: storytitle, s2paragraph1…s6paragraph1, and s1alt1…s6alt1."
    text 1500 (VFloat 7 (-1)).

Definition generate_story (text : text) : M value :=
  content <- io (EvChat (story_request text)) (chat_io (story_request text)) ;;
  lift (json_loads content).

End AppStory.
End AppStory.

(** [generate_story] of [src/app-single.py] (lines 63 to 70). *)
Module SingleStory.
Section SingleStory.
Context {R : Runtime}.

Definition story_request (document_text : text) : chat_request :=
  ChatRequest
    "You are a teaching assistant. Create a JSON with keys: storytitle, s2paragraph1…s6paragraph1, and s1alt1…s6alt1."
    document_text 1500 (VFloat 7 (-1)).

Definition generate_story (document_text : text) : M value :=
  content <- io (EvChat (story_request document_text))
                (chat_io (story_request document_text)) ;;
  lift (json_loads content).

End SingleStory.
End SingleStory.

(* ------------------------------------------------------------------ *)
(** * Further vocabulary *)
(* ------------------------------------------------------------------ *)

(** The tokens of a filled template: the placeholders that name a string
    field have become literal characters. *)
Definition resolve (story : dict) (toks : list token) : list token :=
  flat_map (fun tok =>
              match tok with
              | Lit _ => [tok]
              | Hole name =>
                  match dict_get story name with
                  | Some (VStr v) => map Lit v
                  | _ => [tok]
                  end
              end) toks.

Definition no_open_brace (s : text) : bool :=
  forallb (fun c => negb (Ascii.eqb c "{"%char)) s.

(** The first field of [order] that [story] lacks. *)
Definition first_missing (order : list text) (story : dict) : option text :=
  find (fun k => match dict_get story k with None => true | Some _ => false end)
       order.

(** The order in which the two variants of [generate_seo] read the fields:
    [src/app.py] builds the list of slides before it reads the title. *)
Definition app_seo_order : list text :=
  ["s2paragraph1"; "s3paragraph1"; "s4paragraph1"; "s5paragraph1";
   "s6paragraph1"; "storytitle"].

Definition single_seo_order : list text :=
  ["storytitle"; "s2paragraph1"; "s3paragraph1"; "s4paragraph1";
   "s5paragraph1"; "s6paragraph1"].

Section TraceVocabulary.
Context {R : Runtime}.
Variable cfg : config.
Variable cdn_url : text -> text.

(** The storage keys of the in-memory uploads, in order. *)
Definition uploads (tr : list event) : list text :=
  flat_map (fun ev =>
              match ev with
              | EvUploadFileobj _ _ key => [key]
              | _ => []
              end) tr.

(** The three calls that the narration loop makes for an entry with source
    text [txt] and file [fn]. *)
Definition clip_events (story : dict) (w : (text * text) * text)
  : list event :=
  let fn := snd w in
  [EvUuid;
   EvSynthesize (dict_get_none story (fst (fst w))) fn;
   EvUploadFile fn (AWS_BUCKET cfg) (S3_PREFIX cfg ++ "/audio/" ++ fn)].

(** The world after the two calls that come before the narration loop. *)
Definition setup_world (w : world) : world :=
  snd (speech_config_io (VOICE_NAME cfg) (snd (s3_client_io w))).

(** The files of the clips, as the loop names them: for each entry that is
    not skipped, the identifier that [uuid4] hands out at that moment,
    followed by [.mp3].  The world goes from the draw to the synthesis and
    from there to the upload. *)
Fixpoint clip_names (story : dict) (l : list (text * text)) (w : world)
  : list text :=
  match l with
  | [] => []
  | fa :: l' =>
      if truthy (dict_get_none story (fst fa)) then
        let fn := fst (uuid4_hex_io w) ++ ".mp3" in
        let w1 := snd (uuid4_hex_io w) in
        let w2 := snd (synthesize_io (dict_get_none story (fst fa)) fn w1) in
        let w3 :=
          snd (upload_file_io fn (AWS_BUCKET cfg)
                 (S3_PREFIX cfg ++ "/audio/" ++ fn) w2) in
        fn :: clip_names story l' w3
      else clip_names story l' w
  end.

(** The assignments [cdn_urls[field] = url] of [src/app.py]. *)
Definition record_table (writes : list ((text * text) * text)) (urls : dict)
  : dict :=
  fold_left
    (fun d w => dict_set d (fst (fst w)) (VStr (audio_url cfg cdn_url (snd w))))
    writes urls.

End TraceVocabulary.

(** The file names that the narration loop makes up. *)
Definition is_mp3 (fn : text) : Prop := exists hex, fn = hex ++ ".mp3".

Section FailureVocabulary.
Context {R : Runtime}.
Variable cfg : config.

(** In state [st] the entry with source field [f] is not skipped, and its
    synthesis or the upload of its clip raises [e]. *)
Definition clip_fails (story : dict) (f : text) (st : state) (e : exn)
  : Prop :=
  truthy (dict_get_none story f) = true
  /\ let txt := dict_get_none story f in
     let fn := fst (uuid4_hex_io (st_world st)) ++ ".mp3" in
     let w1 := snd (uuid4_hex_io (st_world st)) in
     (exists w2, synthesize_io txt fn w1 = (Raise e, w2))
     \/ (exists w2 w3,
           synthesize_io txt fn w1 = (Ok tt, w2)
           /\ upload_file_io fn (AWS_BUCKET cfg)
                (S3_PREFIX cfg ++ "/audio/" ++ fn) w2
              = (Raise e, w3)).

End FailureVocabulary.

(* ------------------------------------------------------------------ *)
(** * Scripted runtimes with an outage *)
(* ------------------------------------------------------------------ *)

(** The runtime of [Script.runtime] with its chat service, its decoder, its
    synthesizer and its file upload replaced: each of the three services
    gives the same answer to every call, and the decoder is a parameter. *)
Module Outage.

Definition make (chat : result text) (loads : text -> result value)
    (synth upload : result unit) : Runtime := {|
  world := nat;
  blob := text;
  response := text;
  image := text;
  chat_io := fun _ w => (chat, w);
  json_loads := loads;
  str_of := fun _ => "?";
  update_from_iterable := fun _ _ => Raise (Exn TypeError "not a mapping");
  s3_client_io := fun w => (Ok tt, w);
  post_io := Script.post;
  raise_for_status := fun _ => Ok tt;
  response_image_url := fun r => Ok (VStr ("https://img/" ++ r));
  get_content_io := Script.get_content;
  get_raw_io := fun u w => (Ok u, w);
  image_open := fun b => Ok ("image(" ++ b ++ ")");
  image_convert := fun i m => Ok (m ++ ":" ++ i);
  image_resize := fun i w h => Ok (decimal w ++ "x" ++ decimal h ++ ":" ++ i);
  image_save_jpeg := fun i => Ok ("jpeg:" ++ i);
  upload_fileobj_io := fun _ _ _ w => (Ok tt, w);
  speech_config_io := fun _ w => (Ok tt, w);
  uuid4_hex_io := fun w => ("id" ++ decimal w, S w);
  synthesize_io := fun _ _ w => (synth, w);
  upload_file_io := fun _ _ _ w => (upload, w)
|}.

Definition unavailable : exn :=
  Exn (OtherError "HTTPError") "503 Service Unavailable".

(** [json.loads] on a text nested deeper than the interpreter allows. *)
Definition too_deep : exn :=
  Exn (OtherError "RecursionError")
      "maximum recursion depth exceeded while decoding a JSON array from a unicode string".

(** The number of arrays that a text opens at its start. *)
Fixpoint leading_brackets (s : text) : nat :=
  match s with
  | c :: s' => if Ascii.eqb c "["%char then S (leading_brackets s') else 0
  | [] => 0
  end.

(** [json.loads] in an interpreter that allows [limit] nested calls: a text
    that opens more arrays than that at its start makes the decoder raise
    [RecursionError] before it has read anything else.  The depth that a
    text reaches further on is not modelled. *)
Definition loads_limit (limit : nat) (s : text) : result value :=
  if limit <? leading_brackets (Json.skip_ws s) then Raise too_deep
  else Json.loads s.

(** The chat service replies [reply]; the decoder has a recursion limit. *)
Definition limited (limit : nat) (reply : text) : Runtime :=
  make (Ok reply) (loads_limit limit) (Ok tt) (Ok tt).

(** The chat service is down. *)
Definition chat_down : Runtime :=
  make (Raise unavailable) Json.loads (Ok tt) (Ok tt).

(** The chat service replies [reply], which the decoder cannot take in. *)
Definition deep_reply (reply : text) : Runtime :=
  make (Ok reply) (fun _ => Raise too_deep) (Ok tt) (Ok tt).

(** The synthesizer is down. *)
Definition speech_down : Runtime :=
  make (Ok []) Json.loads (Raise unavailable) (Ok tt).

End Outage.

(* ================================================================== *)
(** * Proofs *)
(* ================================================================== *)

(* ------------------------------------------------------------------ *)
(** * Facts on texts *)
(* ------------------------------------------------------------------ *)

Lemma text_eqb_eq (a b : text) : text_eqb a b = true <-> a = b.
Proof.
  revert b; induction a as [|x a IH]; intros [|y b]; simpl;
    try (split; [discriminate | discriminate]); try tauto.
  rewrite andb_true_iff, Ascii.eqb_eq, IH.
  split; [intros [-> ->]; reflexivity | intros E; inversion E; auto].
Qed.

Lemma text_eqb_refl (a : text) : text_eqb a a = true.
Proof. apply text_eqb_eq; reflexivity. Qed.

Lemma text_eqb_neq (a b : text) : text_eqb a b = false <-> a <> b.
Proof.
  rewrite <- text_eqb_eq. destruct (text_eqb a b); split; congruence.
Qed.

Lemma text_eqb_sym (a b : text) : text_eqb a b = text_eqb b a.
Proof.
  destruct (text_eqb b a) eqn:E.
  - apply text_eqb_eq in E; subst; apply text_eqb_refl.
  - apply text_eqb_neq in E. apply text_eqb_neq. congruence.
Qed.

Lemma strip_prefix_app (p r : text) : strip_prefix p (p ++ r) = Some r.
Proof.
  induction p as [|a p IH]; simpl; [reflexivity|].
  rewrite Ascii.eqb_refl; exact IH.
Qed.

Lemma strip_prefix_some (p s r : text) :
  strip_prefix p s = Some r -> s = p ++ r.
Proof.
  revert s; induction p as [|a p IH]; intros s H; simpl in *.
  - congruence.
  - destruct s as [|b s]; [discriminate|].
    destruct (Ascii.eqb a b) eqn:E; [|discriminate].
    apply Ascii.eqb_eq in E; subst b. f_equal; auto.
Qed.

Lemma strip_prefix_head (p s : text) (a c : ascii) :
  a <> c -> strip_prefix (a :: p) (c :: s) = None.
Proof.
  intros H; simpl. destruct (Ascii.eqb a c) eqn:E; [|reflexivity].
  apply Ascii.eqb_eq in E; contradiction.
Qed.

Lemma replace_from_skip (old new : text) (k : nat) (s : text) :
  replace_from old new k s = replace_from old new 0 (skipn k s).
Proof.
  revert k; induction s as [|c s IH]; intros [|k]; try reflexivity.
  simpl replace_from at 1. rewrite IH. reflexivity.
Qed.

(** The unfolding of [replace] that the proofs use: at each position either
    an occurrence starts, and the scan resumes after it, or one character is
    copied. *)
Lemma replace_nil (o : ascii) (old new : text) :
  replace (o :: old) new [] = [].
Proof. reflexivity. Qed.

Lemma replace_cons (o : ascii) (old new : text) (c : ascii) (s : text) :
  replace (o :: old) new (c :: s) =
  match strip_prefix (o :: old) (c :: s) with
  | Some r => new ++ replace (o :: old) new r
  | None => c :: replace (o :: old) new s
  end.
Proof.
  unfold replace. cbn [replace_from].
  destruct (strip_prefix (o :: old) (c :: s)) as [r|] eqn:E; [|reflexivity].
  apply strip_prefix_some in E. simpl in E. injection E as _ E.
  rewrite replace_from_skip. cbn [length]. rewrite Nat.sub_succ, Nat.sub_0_r.
  subst s. rewrite skipn_app, skipn_all, Nat.sub_diag. reflexivity.
Qed.

(** A stretch of text in which no occurrence starts is copied. *)
Lemma replace_copy (o : ascii) (old new w rest : text) :
  (forall w1 c w2, w = w1 ++ c :: w2 ->
     strip_prefix (o :: old) (c :: w2 ++ rest) = None) ->
  replace (o :: old) new (w ++ rest) = w ++ replace (o :: old) new rest.
Proof.
  induction w as [|c w IH]; intros H; [reflexivity|].
  change ((c :: w) ++ rest) with (c :: w ++ rest).
  rewrite replace_cons, (H [] c w eq_refl). simpl. f_equal.
  apply IH. intros w1 c' w2 E. apply (H (c :: w1) c' w2). simpl; congruence.
Qed.

(** [replace] with a one-character pattern is a character-wise map. *)
Lemma replace_char (o : ascii) (new s : text) :
  replace [o] new s =
  flat_map (fun c => if Ascii.eqb o c then new else [c]) s.
Proof.
  induction s as [|c s IH]; [reflexivity|].
  rewrite replace_cons. cbn [strip_prefix flat_map].
  destruct (Ascii.eqb o c); rewrite IH; reflexivity.
Qed.

(* ------------------------------------------------------------------ *)
(** * [str.strip] and [str.lower] *)
(* ------------------------------------------------------------------ *)

Lemma strip_any_some (pats : list text) (s r : text) :
  strip_any pats s = Some r -> exists p, In p pats /\ s = p ++ r.
Proof.
  induction pats as [|p pats IH]; cbn [strip_any]; [discriminate|].
  destruct (strip_prefix p s) as [r'|] eqn:E.
  - intros H. injection H as ->. exists p. split; [left; reflexivity|].
    apply strip_prefix_some. exact E.
  - intros H. destruct (IH H) as (q & Hq & Hs). exists q. split; [right|]; auto.
Qed.

Lemma strip_any_none (pats : list text) (s : text) :
  strip_any pats s = None -> forall p r, In p pats -> s <> p ++ r.
Proof.
  induction pats as [|p pats IH]; cbn [strip_any]; intros H q r Hq;
    [contradiction|].
  destruct (strip_prefix p s) as [r'|] eqn:E; [discriminate|].
  destruct Hq as [<-|Hq].
  - intros ->. rewrite strip_prefix_app in E. discriminate.
  - apply IH; assumption.
Qed.

Lemma lstrip_with_spec (pats : list text) :
  (forall p, In p pats -> p <> []) ->
  forall (fuel : nat) (s : text),
  length s <= fuel ->
  exists ws,
    Forall (fun w => In w pats) ws
    /\ s = concat ws ++ lstrip_with pats fuel s
    /\ strip_any pats (lstrip_with pats fuel s) = None.
Proof.
  intros Hne. induction fuel as [|f IH]; intros s Hlen.
  - destruct s; [|cbn in Hlen; lia]. exists []. cbn [lstrip_with].
    split; [constructor|]. split; [reflexivity|].
    destruct (strip_any pats []) as [r|] eqn:E; [|reflexivity].
    apply strip_any_some in E as (p & Hp & E).
    destruct p; [exfalso; eapply Hne; eauto|discriminate E].
  - cbn [lstrip_with]. destruct (strip_any pats s) as [r|] eqn:E.
    + pose proof E as E'. apply strip_any_some in E' as (p & Hp & ->).
      destruct (IH r) as (ws & Hws & Hr & Hnone).
      { rewrite length_app in Hlen. specialize (Hne p Hp).
        destruct p; [contradiction|]. cbn in Hlen. lia. }
      exists (p :: ws). split; [constructor; assumption|].
      split; [|exact Hnone].
      cbn [concat]. rewrite <- app_assoc. f_equal. exact Hr.
    + exists []. split; [constructor|]. split; [reflexivity|exact E].
Qed.

Lemma spaces_nonempty (p : text) : In p spaces -> p <> [].
Proof.
  assert (forallb (fun p => negb (text_eqb p [])) spaces = true) as H
    by (vm_compute; reflexivity).
  rewrite forallb_forall in H. intros Hp E. specialize (H p Hp).
  subst p. discriminate H.
Qed.

Lemma rev_concat (ws : list text) :
  rev (concat ws) = concat (map (@rev ascii) (rev ws)).
Proof.
  induction ws as [|w ws IH]; [reflexivity|].
  cbn [concat rev]. rewrite rev_app_distr, IH, map_app, concat_app.
  cbn. rewrite app_nil_r. reflexivity.
Qed.

Lemma lstrip_spec (s : text) :
  exists a,
    blank a /\ s = a ++ lstrip s
    /\ (forall w r, In w spaces -> lstrip s <> w ++ r).
Proof.
  destruct (@lstrip_with_spec spaces (@spaces_nonempty) (length s) s (le_n _))
    as (ws & Hws & Hs & Hnone).
  exists (concat ws). split; [exists ws; auto|]. split; [exact Hs|].
  intros w r Hw. eapply strip_any_none; eassumption.
Qed.

Lemma rstrip_spec (s : text) :
  exists b,
    blank b /\ s = rstrip s ++ b
    /\ (forall w r, In w spaces -> rstrip s <> r ++ w).
Proof.
  destruct (@lstrip_with_spec (map (@rev ascii) spaces)) with
    (fuel := length s) (s := rev s) as (ws & Hws & Hs & Hnone).
  { intros p Hp E. apply in_map_iff in Hp as (w & <- & Hw).
    apply (@spaces_nonempty w Hw). apply (f_equal (@rev ascii)) in E.
    rewrite rev_involutive in E. exact E. }
  { rewrite length_rev. apply le_n. }
  unfold rstrip.
  set (core := lstrip_with (map (@rev ascii) spaces) (length s) (rev s)) in *.
  exists (rev (concat ws)). split; [|split].
  - exists (map (@rev ascii) (rev ws)). split; [|apply rev_concat].
    apply Forall_forall. intros w Hw.
    apply in_map_iff in Hw as (w' & <- & Hw'). apply in_rev in Hw'.
    rewrite Forall_forall in Hws. specialize (Hws w' Hw').
    apply in_map_iff in Hws as (w0 & <- & Hw0).
    rewrite rev_involutive. exact Hw0.
  - rewrite <- rev_app_distr, <- Hs, rev_involutive. reflexivity.
  - intros w r Hw E. apply (f_equal (@rev ascii)) in E.
    rewrite rev_involutive, rev_app_distr in E.
    refine (@strip_any_none _ _ Hnone (rev w) (rev r) _ E).
    apply in_map. exact Hw.
Qed.

(** [str.strip] takes white space away at both ends, and all of it. *)
Lemma strip_spec (s : text) : stripped_of s (strip s).
Proof.
  destruct (rstrip_spec s) as (b & Hb & Hs & Hend).
  destruct (lstrip_spec (rstrip s)) as (a & Ha & Hr & Hstart).
  exists a, b. fold (strip s) in Hr, Hstart.
  split; [exact Ha|]. split; [exact Hb|]. split; [|split].
  - rewrite app_assoc, <- Hr. exact Hs.
  - exact Hstart.
  - intros w r Hw E. apply (Hend w (a ++ r) Hw).
    rewrite Hr, E, app_assoc. reflexivity.
Qed.

(** A text that neither starts nor ends with white space is kept. *)
Lemma strip_solid (t : text) :
  (forall w r, In w spaces -> t <> w ++ r) ->
  (forall w r, In w spaces -> t <> r ++ w) ->
  strip t = t.
Proof.
  intros Hstart Hend.
  assert (forall pats n u, strip_any pats u = None -> lstrip_with pats n u = u)
    as Hkeep.
  { intros pats n u E. destruct n; [reflexivity|]. cbn [lstrip_with].
    rewrite E. reflexivity. }
  unfold strip, rstrip. rewrite Hkeep.
  - rewrite rev_involutive. unfold lstrip. apply Hkeep.
    destruct (strip_any spaces t) as [r|] eqn:E; [|reflexivity].
    apply strip_any_some in E as (w & Hw & E). destruct (Hstart w r Hw E).
  - destruct (strip_any (map (@rev ascii) spaces) (rev t)) as [r|] eqn:E;
      [|reflexivity].
    apply strip_any_some in E as (p & Hp & E).
    apply in_map_iff in Hp as (w & <- & Hw).
    apply (f_equal (@rev ascii)) in E.
    rewrite rev_involutive, rev_app_distr, rev_involutive in E.
    destruct (Hend w (rev r) Hw E).
Qed.

Lemma byte_chr (n : N) : (n < 256)%N -> byte (chr n) = n.
Proof. intros H. unfold byte, chr. apply N_ascii_embedding. exact H. Qed.

Lemma chr_byte (c : ascii) : chr (byte c) = c.
Proof. unfold byte, chr. apply ascii_N_embedding. Qed.

Lemma byte_bounded (c : ascii) : (byte c < 256)%N.
Proof. unfold byte. apply N_ascii_bounded. Qed.

Lemma decode_ascii (s : text) :
  is_ascii s = true -> decode s = map (fun c => Code (byte c)) s.
Proof.
  induction s as [|c s IH]; intros H; [reflexivity|].
  cbn [is_ascii forallb] in H. apply andb_true_iff in H as [Hc Hs].
  cbn [decode map]. rewrite Hc, IH by exact Hs. reflexivity.
Qed.

Lemma lower_simple_ascii (c : ascii) :
  (byte c <? 128)%N = true ->
  utf8_units (lower_simple (byte c)) = [ascii_lower c].
Proof.
  intros Hc. unfold lower_simple, ascii_lower, is_capital. rewrite Hc.
  destruct ((65 <=? byte c)%N && (byte c <=? 90)%N) eqn:E.
  - apply andb_true_iff in E as [_ E]. apply N.leb_le in E.
    unfold utf8_units.
    replace (byte c + 32 <? 128)%N with true
      by (symmetry; apply N.ltb_lt; lia).
    reflexivity.
  - unfold utf8_units. rewrite Hc, chr_byte. reflexivity.
Qed.

Lemma lower_codes_ascii (before : list code) (s : text) :
  is_ascii s = true ->
  flat_map encode (lower_codes before (map (fun c => Code (byte c)) s))
  = map ascii_lower s.
Proof.
  revert before. induction s as [|c s IH]; intros before H; [reflexivity|].
  cbn [is_ascii forallb] in H. apply andb_true_iff in H as [Hc Hs].
  cbn [map lower_codes]. rewrite flat_map_app, IH by exact Hs.
  pose proof Hc as Hlt. apply N.ltb_lt in Hlt.
  replace (byte c =? 931)%N with false by (symmetry; apply N.eqb_neq; lia).
  unfold lower_full.
  replace (byte c =? 304)%N with false by (symmetry; apply N.eqb_neq; lia).
  cbn [map flat_map encode]. rewrite lower_simple_ascii by exact Hc.
  reflexivity.
Qed.

(** On ASCII text [str.lower] turns the letters A to Z into a to z and
    keeps every other character. *)
Lemma lower_ascii (s : text) :
  is_ascii s = true -> lower s = map ascii_lower s.
Proof.
  intros H. unfold lower. rewrite decode_ascii by exact H.
  apply lower_codes_ascii. exact H.
Qed.

Lemma code_of_some (units : text) (cp cp' : N) :
  code_of units cp = Some cp' -> cp' = cp /\ (cp < 1114112)%N.
Proof.
  unfold code_of. destruct (cp <? 1114112)%N eqn:E; [|discriminate].
  destruct (text_eqb (utf8_units cp) units); [|discriminate].
  intros H. injection H as <-. apply N.ltb_lt in E. auto.
Qed.

(** What [decode] gives: code points, and single units outside the ASCII
    range. *)
Lemma decode_range (n : nat) :
  forall s : text,
  length s <= n ->
  forall x, In x (decode s) ->
  match x with
  | Code cp => (cp < 1114112)%N
  | Unit c => (128 <= byte c)%N
  end.
Proof.
  induction n as [|n IH]; intros s Hlen x Hin.
  - destruct s; [contradiction|cbn in Hlen; lia].
  - destruct s as [|a s1]; [contradiction|]. cbn [length] in Hlen.
    cbn [decode] in Hin. destruct (byte a <? 128)%N eqn:Ea.
    + destruct Hin as [<-|Hin]; [apply N.ltb_lt in Ea; lia|].
      apply (IH s1); [lia|exact Hin].
    + apply N.ltb_ge in Ea.
      assert (forall y, In y (Unit a :: decode s1) ->
                match y with
                | Code cp => (cp < 1114112)%N
                | Unit c => (128 <= byte c)%N
                end) as Hstray.
      { intros y [<-|Hy]; [exact Ea|]. apply (IH s1); [lia|exact Hy]. }
      destruct s1 as [|b s2]; [destruct Hin as [<-|[]]; exact Ea|].
      cbn [length] in Hlen.
      destruct (code_of [a; b] _) as [cp|] eqn:E2.
      { apply code_of_some in E2 as [-> Hb].
        destruct Hin as [<-|Hin]; [exact Hb|]. apply (IH s2); [lia|exact Hin]. }
      destruct s2 as [|c s3]; [apply Hstray; exact Hin|].
      cbn [length] in Hlen.
      destruct (code_of [a; b; c] _) as [cp|] eqn:E3.
      { apply code_of_some in E3 as [-> Hb].
        destruct Hin as [<-|Hin]; [exact Hb|]. apply (IH s3); [lia|exact Hin]. }
      destruct s3 as [|d s4]; [apply Hstray; exact Hin|].
      cbn [length] in Hlen.
      destruct (code_of [a; b; c; d] _) as [cp|] eqn:E4.
      { apply code_of_some in E4 as [-> Hb].
        destruct Hin as [<-|Hin]; [exact Hb|]. apply (IH s4); [lia|exact Hin]. }
      apply Hstray; exact Hin.
Qed.

Lemma lower_table_images :
  forallb (fun e : N * N * N * N =>
             let '(lo, hi, _, image) := e in
             ((lo <=? hi) && (91 <=? image)
              && (hi - lo + image <? 2097152))%N)
          lower_table = true.
Proof. vm_compute. reflexivity. Qed.

Lemma lower_simple_range (cp : N) :
  (cp < 1114112)%N ->
  (lower_simple cp < 2097152)%N /\ ~ (65 <= lower_simple cp <= 90)%N.
Proof.
  intros Hcp. unfold lower_simple. destruct (cp <? 128)%N eqn:E.
  - apply N.ltb_lt in E.
    destruct ((65 <=? cp)%N && (cp <=? 90)%N) eqn:Ec.
    + apply andb_true_iff in Ec as [E1 E2].
      apply N.leb_le in E1, E2. lia.
    + apply andb_false_iff in Ec as [Ec|Ec]; apply N.leb_gt in Ec; lia.
  - apply N.ltb_ge in E.
    destruct (find (fun e => covers e cp) lower_table)
      as [[[[lo hi] step] image]|] eqn:Ef; [|lia].
    apply find_some in Ef as [Hin Hcov].
    pose proof lower_table_images as Htab. rewrite forallb_forall in Htab.
    specialize (Htab _ Hin). cbn in Htab.
    apply andb_true_iff in Htab as [Htab H3].
    apply andb_true_iff in Htab as [H1 H2].
    apply N.leb_le in H1, H2. apply N.ltb_lt in H3.
    unfold covers in Hcov. apply andb_true_iff in Hcov as [Hcov _].
    apply andb_true_iff in Hcov as [C1 C2]. apply N.leb_le in C1, C2.
    lia.
Qed.

Lemma high_not_capital (u : ascii) :
  (128 <= byte u)%N -> is_capital u = false.
Proof.
  intros H. unfold is_capital. apply andb_false_iff. right.
  apply N.leb_gt. lia.
Qed.

Lemma chr_high (n : N) :
  (128 <= n < 256)%N -> is_capital (chr n) = false.
Proof.
  intros [H1 H2]. apply high_not_capital. rewrite byte_chr by exact H2.
  exact H1.
Qed.

Lemma utf8_units_no_capital (cp : N) (u : ascii) :
  (cp < 2097152)%N -> ~ (65 <= cp <= 90)%N ->
  In u (utf8_units cp) -> is_capital u = false.
Proof.
  intros Hcp Hno. unfold utf8_units.
  assert (forall x, (128 <= 128 + x mod 64 < 256)%N) as Hcont.
  { intros x. assert (x mod 64 < 64)%N as Hm by (apply N.mod_lt; discriminate).
    revert Hm. generalize (x mod 64)%N. intros m Hm. lia. }
  destruct (cp <? 128)%N eqn:E1.
  { apply N.ltb_lt in E1. intros [<-|[]]. unfold is_capital.
    rewrite byte_chr by lia.
    destruct (65 <=? cp)%N eqn:A; [|reflexivity].
    destruct (cp <=? 90)%N eqn:B; [|reflexivity].
    apply N.leb_le in A, B. exfalso. apply Hno. lia. }
  destruct (cp <? 2048)%N eqn:E2.
  { apply N.ltb_lt in E2.
    assert (128 <= 192 + cp / 64 < 256)%N as Hlead.
    { assert (cp / 64 < 32)%N as Hq
        by (apply N.Div0.div_lt_upper_bound; lia).
      revert Hq. generalize (cp / 64)%N. intros q Hq. lia. }
    intros [<-|[<-|[]]]; apply chr_high; [exact Hlead|apply Hcont]. }
  destruct (cp <? 65536)%N eqn:E3.
  { apply N.ltb_lt in E3.
    assert (128 <= 224 + cp / 4096 < 256)%N as Hlead.
    { assert (cp / 4096 < 16)%N as Hq
        by (apply N.Div0.div_lt_upper_bound; lia).
      revert Hq. generalize (cp / 4096)%N. intros q Hq. lia. }
    intros [<-|[<-|[<-|[]]]]; apply chr_high;
      [exact Hlead|apply Hcont|apply Hcont]. }
  assert (128 <= 240 + cp / 262144 < 256)%N as Hlead.
  { assert (cp / 262144 < 8)%N as Hq
      by (apply N.Div0.div_lt_upper_bound; lia).
    revert Hq. generalize (cp / 262144)%N. intros q Hq. lia. }
  intros [<-|[<-|[<-|[<-|[]]]]]; apply chr_high;
    [exact Hlead|apply Hcont|apply Hcont|apply Hcont].
Qed.

Lemma lower_codes_no_capital (l : list code) :
  (forall y, In y l ->
     match y with
     | Code cp => (cp < 1114112)%N
     | Unit c => (128 <= byte c)%N
     end) ->
  forall before u,
  In u (flat_map encode (lower_codes before l)) -> is_capital u = false.
Proof.
  induction l as [|x l IH]; intros Hl before u Hin; [contradiction|].
  cbn [lower_codes] in Hin. rewrite flat_map_app in Hin.
  apply in_app_or in Hin as [Hin|Hin].
  2:{ apply (IH (fun y Hy => Hl y (or_intror Hy)) (x :: before) u Hin). }
  specialize (Hl x (or_introl eq_refl)).
  destruct x as [cp|c].
  - destruct (cp =? 931)%N.
    + cbn [flat_map encode] in Hin. rewrite app_nil_r in Hin.
      destruct (final_sigma before l);
        apply (@utf8_units_no_capital _ u) in Hin; auto; lia.
    + unfold lower_full in Hin. destruct (cp =? 304)%N.
      * cbn [map flat_map encode] in Hin. rewrite app_nil_r in Hin.
        apply in_app_or in Hin as [Hin|Hin];
          apply (@utf8_units_no_capital _ u) in Hin; auto; lia.
      * cbn [map flat_map encode] in Hin. rewrite app_nil_r in Hin.
        destruct (lower_simple_range Hl) as [H1 H2].
        apply (@utf8_units_no_capital _ u) in Hin; auto.
  - cbn [flat_map encode] in Hin. destruct Hin as [<-|[]].
    apply high_not_capital. exact Hl.
Qed.

(** Whatever the text, [str.lower] leaves none of the letters A to Z. *)
Lemma lower_no_capital (s : text) (u : ascii) :
  In u (lower s) -> is_capital u = false.
Proof.
  unfold lower. apply lower_codes_no_capital.
  intros y Hy. exact (@decode_range (length s) s (le_n _) y Hy).
Qed.

(* ------------------------------------------------------------------ *)
(** * [fill_template] on well-formed templates *)
(* ------------------------------------------------------------------ *)

Lemma not_brace (c : ascii) :
  negb (is_brace c) = true -> c <> "{"%char /\ c <> "}"%char.
Proof.
  unfold is_brace. rewrite negb_true_iff, orb_false_iff.
  intros [H1 H2]. split; intros ->; simpl in *; discriminate.
Qed.

Lemma brace_free_cons (c : ascii) (s : text) :
  brace_free (c :: s) = true ->
  c <> "{"%char /\ c <> "}"%char /\ brace_free s = true.
Proof.
  unfold brace_free; simpl. rewrite andb_true_iff.
  intros [H1 H2]. apply not_brace in H1. tauto.
Qed.

Lemma placeholder_unfold (k : text) :
  placeholder k = "{"%char :: "{"%char :: k ++ "}}".
Proof. reflexivity. Qed.

(** After the opening braces, a brace-free name is delimited by the first
    closing brace: two placeholders that start together are the same. *)
Lemma strip_name (k n rest r : text) :
  brace_free k = true -> brace_free n = true ->
  strip_prefix (k ++ "}}") (n ++ "}}" ++ rest) = Some r ->
  k = n /\ r = rest.
Proof.
  revert n; induction k as [|a k IH]; intros [|b n] Hk Hn H.
  - simpl in H. split; congruence.
  - apply brace_free_cons in Hn as (_ & Hb & _).
    simpl app in H. rewrite strip_prefix_head in H by congruence. discriminate.
  - apply brace_free_cons in Hk as (_ & Ha & _).
    simpl app in H. rewrite strip_prefix_head in H by congruence. discriminate.
  - apply brace_free_cons in Hk as (_ & _ & Hk).
    apply brace_free_cons in Hn as (_ & _ & Hn).
    simpl in H. destruct (Ascii.eqb a b) eqn:E; [|discriminate].
    apply Ascii.eqb_eq in E; subst b.
    destruct (IH n Hk Hn H) as [-> ->]. split; reflexivity.
Qed.

Lemma strip_placeholder (k n rest r : text) :
  brace_free k = true -> brace_free n = true ->
  strip_prefix (placeholder k) (placeholder n ++ rest) = Some r ->
  k = n /\ r = rest.
Proof.
  intros Hk Hn. rewrite !placeholder_unfold. simpl.
  rewrite <- app_assoc. apply strip_name; assumption.
Qed.

(** No placeholder starts inside another one. *)
Lemma placeholder_inside (k n rest w1 w2 : text) (c : ascii) :
  brace_free n = true ->
  "{"%char :: n ++ "}}" = w1 ++ c :: w2 ->
  strip_prefix (placeholder k) (c :: w2 ++ rest) = None.
Proof.
  intros Hn E. rewrite placeholder_unfold.
  destruct w1 as [|x w1]; simpl in E; injection E as E1 E2.
  - (* second opening brace: the next character is not a brace *)
    subst c. cbn [strip_prefix]. rewrite Ascii.eqb_refl.
    destruct w2 as [|d w2]; [destruct n; discriminate|].
    cbn [app]. apply strip_prefix_head. intros <-.
    destruct n as [|b n]; simpl in E2; [discriminate|].
    injection E2 as -> _. apply brace_free_cons in Hn as (Hb & _). congruence.
  - (* inside the name or the closing braces *)
    apply strip_prefix_head. intros <-.
    assert (In "{"%char (n ++ "}}")) as Hin
      by (rewrite E2; apply in_or_app; right; left; reflexivity).
    apply in_app_or in Hin as [Hin|Hin].
    + unfold brace_free in Hn. rewrite forallb_forall in Hn.
      specialize (Hn _ Hin). discriminate.
    + simpl in Hin. destruct Hin as [H|[H|[]]]; discriminate.
Qed.

Lemma render_cons (tok : token) (toks : list token) :
  render (tok :: toks) = render_token tok ++ render toks.
Proof. reflexivity. Qed.

Lemma render_app (a b : list token) : render (a ++ b) = render a ++ render b.
Proof. apply flat_map_app. Qed.

Lemma render_lits (v : text) : render (map Lit v) = v.
Proof. induction v as [|c v IH]; simpl; [|rewrite IH]; reflexivity. Qed.

Lemma fill_one_ok (k v : text) (toks : list token) :
  brace_free v = true ->
  forallb token_ok toks = true ->
  forallb token_ok (fill_one k v toks) = true.
Proof.
  intros Hv. induction toks as [|tok toks IH]; simpl; [reflexivity|].
  rewrite andb_true_iff. intros [H1 H2].
  unfold fill_one in *. rewrite forallb_app, IH by assumption.
  rewrite andb_true_r. destruct tok as [c|n].
  - simpl in *. rewrite andb_true_r. exact H1.
  - destruct (text_eqb n k).
    + clear -Hv. induction v as [|c v IHv]; [reflexivity|].
      apply brace_free_cons in Hv as (H1 & H2 & Hv). simpl.
      rewrite IHv by assumption. unfold is_brace.
      apply Ascii.eqb_neq in H1, H2. rewrite H1, H2. reflexivity.
    + simpl in *. rewrite andb_true_r. exact H1.
Qed.

Lemma replace_match (o : ascii) (old new rest : text) :
  replace (o :: old) new ((o :: old) ++ rest)
  = new ++ replace (o :: old) new rest.
Proof.
  change ((o :: old) ++ rest) with (o :: old ++ rest) at 1.
  rewrite replace_cons.
  change (o :: old ++ rest) with ((o :: old) ++ rest).
  rewrite strip_prefix_app. reflexivity.
Qed.

Lemma replace_miss (o : ascii) (old new : text) (c : ascii) (s : text) :
  strip_prefix (o :: old) (c :: s) = None ->
  replace (o :: old) new (c :: s) = c :: replace (o :: old) new s.
Proof. intros H. rewrite replace_cons, H. reflexivity. Qed.

Lemma replace_placeholder_same (k v rest : text) :
  replace (placeholder k) v (placeholder k ++ rest)
  = v ++ replace (placeholder k) v rest.
Proof. exact (@replace_match "{"%char ("{"%char :: k ++ "}}") v rest). Qed.

Lemma replace_placeholder_other (k n v rest : text) :
  brace_free k = true -> brace_free n = true -> n <> k ->
  replace (placeholder k) v (placeholder n ++ rest)
  = placeholder n ++ replace (placeholder k) v rest.
Proof.
  intros Hk Hn Hne.
  assert (strip_prefix (placeholder k) (placeholder n ++ rest) = None) as H0.
  { destruct (strip_prefix (placeholder k) (placeholder n ++ rest))
      as [r|] eqn:Er; [|reflexivity].
    apply strip_placeholder in Er as [-> _]; [congruence|assumption..]. }
  transitivity
    ("{"%char
       :: replace (placeholder k) v (("{"%char :: n ++ "}}") ++ rest)).
  - apply (@replace_miss "{"%char ("{"%char :: k ++ "}}") v "{"%char
             (("{"%char :: n ++ "}}") ++ rest)).
    exact H0.
  - change (placeholder n ++ replace (placeholder k) v rest)
      with ("{"%char
              :: ("{"%char :: n ++ "}}") ++ replace (placeholder k) v rest).
    f_equal.
    apply (@replace_copy "{"%char ("{"%char :: k ++ "}}") v
             ("{"%char :: n ++ "}}") rest).
    intros w1 c w2 Ew. eapply placeholder_inside; eauto.
Qed.

Lemma replace_placeholder_lit (k v : text) (c : ascii) (rest : text) :
  c <> "{"%char ->
  replace (placeholder k) v (c :: rest) = c :: replace (placeholder k) v rest.
Proof.
  intros Hc.
  apply (@replace_miss "{"%char ("{"%char :: k ++ "}}") v c rest).
  apply strip_prefix_head. congruence.
Qed.

(** One [str.replace] of the loop is one substitution on tokens. *)
Lemma replace_render (k v : text) (toks : list token) :
  brace_free k = true ->
  forallb token_ok toks = true ->
  replace (placeholder k) v (render toks) = render (fill_one k v toks).
Proof.
  intros Hk. induction toks as [|tok toks IH]; [reflexivity|].
  simpl forallb. rewrite andb_true_iff. intros [Htok Htoks].
  specialize (IH Htoks).
  change (fill_one k v (tok :: toks))
    with ((match tok with
           | Lit _ => [tok]
           | Hole name => if text_eqb name k then map Lit v else [tok]
           end) ++ fill_one k v toks).
  rewrite render_cons, render_app, <- IH.
  destruct tok as [c|n]; simpl in Htok.
  - apply not_brace in Htok as [Hc _].
    apply replace_placeholder_lit; assumption.
  - destruct (text_eqb n k) eqn:E.
    + apply text_eqb_eq in E; subst n.
      rewrite render_lits. apply replace_placeholder_same.
    + apply text_eqb_neq in E.
      change (render [Hole n]) with (placeholder n ++ []).
      rewrite app_nil_r.
      apply replace_placeholder_other; assumption.
Qed.

Lemma instantiate_app (story : dict) (a b : list token) :
  instantiate story (a ++ b) = instantiate story a ++ instantiate story b.
Proof. apply flat_map_app. Qed.

Lemma instantiate_lits (story : dict) (v : text) :
  instantiate story (map Lit v) = v.
Proof. induction v as [|c v IH]; simpl; [|rewrite IH]; reflexivity. Qed.

Lemma instantiate_nil (toks : list token) : instantiate [] toks = render toks.
Proof. reflexivity. Qed.

(** Substituting the first field and then the others is the simultaneous
    substitution of the whole record. *)
Lemma instantiate_fill_one (k v : text) (rest : dict) (toks : list token) :
  instantiate rest (fill_one k v toks)
  = instantiate ((k, VStr v) :: rest) toks.
Proof.
  induction toks as [|tok toks IH]; [reflexivity|].
  change (fill_one k v (tok :: toks))
    with ((match tok with
           | Lit _ => [tok]
           | Hole name => if text_eqb name k then map Lit v else [tok]
           end) ++ fill_one k v toks).
  rewrite instantiate_app, IH.
  change (instantiate ((k, VStr v) :: rest) (tok :: toks))
    with (fill_token ((k, VStr v) :: rest) tok
          ++ instantiate ((k, VStr v) :: rest) toks).
  f_equal. destruct tok as [c|n]; [reflexivity|].
  cbn [fill_token dict_get]. rewrite (text_eqb_sym k n).
  destruct (text_eqb n k).
  - apply instantiate_lits.
  - cbn [instantiate flat_map fill_token]. apply app_nil_r.
Qed.

(** Substitution on tokens acts token by token: a literal character and an
    unknown placeholder are kept, a known placeholder becomes its value. *)
Lemma instantiate_middle (story : dict) (pre post : list token) (tok : token) :
  instantiate story (pre ++ tok :: post)
  = instantiate story pre ++ fill_token story tok ++ instantiate story post.
Proof. rewrite instantiate_app. reflexivity. Qed.

Lemma fill_template_tokens (story : dict) :
  forall toks : list token,
  forallb token_ok toks = true ->
  record_ok story = true ->
  fill_template (render toks) story = Ok (instantiate story toks).
Proof.
  induction story as [|[k v] rest IH]; intros toks Htoks Hrec.
  - reflexivity.
  - simpl in Hrec. apply andb_true_iff in Hrec as [Hkv Hrest].
    unfold field_ok in Hkv. simpl in Hkv.
    apply andb_true_iff in Hkv as [Hk Hv].
    destruct v as [| | | | | |s| |]; try discriminate.
    cbn [fill_template].
    rewrite replace_render by assumption.
    rewrite IH by (try apply fill_one_ok; assumption).
    rewrite instantiate_fill_one. reflexivity.
Qed.

Lemma replace_placeholder_miss (k v : text) (c : ascii) (rest : text) :
  strip_prefix (placeholder k) (c :: rest) = None ->
  replace (placeholder k) v (c :: rest) = c :: replace (placeholder k) v rest.
Proof.
  intros H.
  exact (@replace_miss "{"%char ("{"%char :: k ++ "}}") v c rest H).
Qed.

(** One [str.replace] of the loop is one substitution on tokens as soon as
    the placeholder occurs nowhere else. *)
Lemma replace_render_quiet (k v : text) (toks : list token) :
  brace_free k = true ->
  forallb hole_ok toks = true ->
  stray k toks = false ->
  replace (placeholder k) v (render toks) = render (fill_one k v toks).
Proof.
  intros Hk. induction toks as [|tok toks IH]; [reflexivity|].
  cbn [forallb]. rewrite andb_true_iff. intros [Htok Htoks] Hstray.
  change (fill_one k v (tok :: toks))
    with ((match tok with
           | Lit _ => [tok]
           | Hole name => if text_eqb name k then map Lit v else [tok]
           end) ++ fill_one k v toks).
  rewrite render_cons, render_app.
  destruct tok as [c|n]; cbn [stray] in Hstray.
  - apply orb_false_iff in Hstray as [Hhere Hrest].
    rewrite <- (IH Htoks Hrest).
    apply replace_placeholder_miss.
    destruct (strip_prefix (placeholder k) (c :: render toks));
      [discriminate Hhere|reflexivity].
  - rewrite <- (IH Htoks Hstray). cbn [hole_ok] in Htok.
    destruct (text_eqb n k) eqn:E.
    + apply text_eqb_eq in E; subst n.
      rewrite render_lits. apply replace_placeholder_same.
    + apply text_eqb_neq in E.
      change (render [Hole n]) with (placeholder n ++ []).
      rewrite app_nil_r.
      apply replace_placeholder_other; assumption.
Qed.

Lemma fill_one_hole_ok (k v : text) (toks : list token) :
  forallb hole_ok toks = true ->
  forallb hole_ok (fill_one k v toks) = true.
Proof.
  induction toks as [|tok toks IH]; [reflexivity|].
  cbn [forallb]. rewrite andb_true_iff. intros [Htok Htoks].
  unfold fill_one in *. cbn [flat_map]. rewrite forallb_app, IH by assumption.
  rewrite andb_true_r. destruct tok as [c|n]; [reflexivity|].
  destruct (text_eqb n k).
  - clear. induction v as [|c v IHv]; [reflexivity|exact IHv].
  - cbn [forallb]. rewrite Htok. reflexivity.
Qed.

Lemma fill_template_quiet (story : dict) :
  forall toks : list token,
  forallb hole_ok toks = true ->
  quiet story toks = true ->
  fill_template (render toks) story = Ok (instantiate story toks).
Proof.
  induction story as [|[k v] rest IH]; intros toks Htoks Hq; [reflexivity|].
  cbn [quiet] in Hq. destruct v as [| | | | | |s| |]; try discriminate Hq.
  apply andb_true_iff in Hq as [Hq Hrest].
  apply andb_true_iff in Hq as [Hk Hstray].
  apply negb_true_iff in Hstray.
  cbn [fill_template]. rewrite replace_render_quiet by assumption.
  rewrite IH by (try apply fill_one_hole_ok; assumption).
  rewrite instantiate_fill_one. reflexivity.
Qed.

(** A reading without any stray brace, filled from a record without
    braces, is never disturbed. *)
Lemma stray_token_ok (k : text) (toks : list token) :
  forallb token_ok toks = true -> stray k toks = false.
Proof.
  induction toks as [|tok toks IH]; [reflexivity|].
  cbn [forallb]. rewrite andb_true_iff. intros [Htok Htoks].
  destruct tok as [c|n]; cbn [stray]; [|apply IH; exact Htoks].
  rewrite (IH Htoks), orb_false_r. cbn [token_ok] in Htok.
  apply not_brace in Htok as [Hc _]. rewrite placeholder_unfold.
  rewrite strip_prefix_head by congruence. reflexivity.
Qed.

Lemma well_formed_quiet (story : dict) :
  forall toks : list token,
  forallb token_ok toks = true ->
  record_ok story = true ->
  forallb hole_ok toks = true /\ quiet story toks = true.
Proof.
  induction story as [|[k v] rest IH]; intros toks Htoks Hrec.
  - split; [|reflexivity]. clear -Htoks.
    induction toks as [|tok toks IHt]; [reflexivity|].
    cbn [forallb] in *. apply andb_true_iff in Htoks as [H1 H2].
    rewrite (IHt H2), andb_true_r. destruct tok; [reflexivity|exact H1].
  - cbn [record_ok forallb] in Hrec. apply andb_true_iff in Hrec as [Hkv Hrest].
    unfold field_ok in Hkv. cbn [fst snd] in Hkv.
    apply andb_true_iff in Hkv as [Hk Hv].
    destruct v as [| | | | | |s| |]; try discriminate Hv.
    destruct (IH (fill_one k s toks) (@fill_one_ok k s toks Hv Htoks) Hrest)
      as [_ Hq].
    destruct (IH toks Htoks Hrest) as [Hholes _].
    split; [exact Hholes|].
    cbn [quiet]. rewrite Hk, (@stray_token_ok k toks Htoks), Hq. reflexivity.
Qed.

(** C1 (amended).  Read a template as literal characters, braces among
    them, and placeholders with brace-free names; take a Story Record of
    strings under brace-free names.  Provided that, whenever the loop of
    [fill_template] reaches a field, the text built so far holds the
    placeholder of that field only where the template has it, the result
    is the simultaneous substitution: every placeholder naming a field is
    replaced by the field's value, literal text is kept character by
    character, and a placeholder naming no field stays in the output as it
    was written.  The proviso holds in particular for a template whose
    braces are the delimiters of its placeholders and a record without
    braces. *)
Theorem fill_template_simultaneous (toks : list token) (story : dict) :
  forallb hole_ok toks = true ->
  quiet story toks = true ->
  fill_template (render toks) story = Ok (instantiate story toks)
  /\ (forall pre post name v,
        toks = pre ++ Hole name :: post ->
        dict_get story name = Some (VStr v) ->
        instantiate story toks
        = instantiate story pre ++ v ++ instantiate story post)
  /\ (forall pre post name,
        toks = pre ++ Hole name :: post ->
        dict_get story name = None ->
        instantiate story toks
        = instantiate story pre ++ placeholder name ++ instantiate story post)
  /\ (forall pre post c,
        toks = pre ++ Lit c :: post ->
        instantiate story toks
        = instantiate story pre ++ [c] ++ instantiate story post)
  /\ (forall toks' story',
        forallb token_ok toks' = true ->
        record_ok story' = true ->
        forallb hole_ok toks' = true /\ quiet story' toks' = true).
Proof.
  intros Htoks Hq. split; [apply fill_template_quiet; assumption|].
  split; [|split; [|split]].
  - intros pre post name v -> Hget.
    rewrite instantiate_middle. cbn [fill_token]. rewrite Hget. reflexivity.
  - intros pre post name -> Hget.
    rewrite instantiate_middle. cbn [fill_token]. rewrite Hget. reflexivity.
  - intros pre post c ->. apply instantiate_middle.
  - intros toks' story'. apply well_formed_quiet.
Qed.

(** An instance: a style sheet with braces in the template, braces in a
    value, a known and an unknown placeholder. *)
Lemma fill_template_simultaneous_witness :
  fill_template
    "<style>p{color:red}</style><h1>{{storytitle}}</h1>{{unknown_field}}"
    [("storytitle", VStr "the set {1,2}"); ("s2paragraph1", VStr "text")]
  = Ok "<style>p{color:red}</style><h1>the set {1,2}</h1>{{unknown_field}}".
Proof.
  exact (proj1 (@fill_template_simultaneous
                  (map Lit "<style>p{color:red}</style><h1>"
                   ++ [Hole "storytitle"] ++ map Lit "</h1>"
                   ++ [Hole "unknown_field"])
                  [("storytitle", VStr "the set {1,2}");
                   ("s2paragraph1", VStr "text")]
                  eq_refl eq_refl)).
Defined.

(** C1 as stated fails: with string values that contain braces the loop of
    [fill_template] rewrites text that an earlier field has put in. *)
Lemma fill_template_str_values_counterexample :
  ~ (forall (toks : list token) (story : dict),
       forallb token_ok toks = true ->
       all_str story = true ->
       fill_template (render toks) story = Ok (instantiate story toks)).
Proof.
  intros H.
  specialize (H [Hole "a"] [("a", VStr "{{b}}"); ("b", VStr "x")]
                eq_refl eq_refl).
  vm_compute in H. discriminate H.
Qed.

(** The two other conditions are needed as well.  A value without braces
    can complete a placeholder out of stray braces of the template, and a
    field name with braces can span two placeholders. *)
Example fill_template_stray_braces :
  fill_template "{{a{{k}}b}}" [("k", VStr "z"); ("azb", VStr "w")] = Ok "w".
Proof. reflexivity. Qed.

Example fill_template_brace_in_name :
  fill_template "{{a}}{{b}}" [("a}}{{b", VStr "w")] = Ok "w"
  /\ instantiate [("a}}{{b", VStr "w")] [Hole "a"; Hole "b"] = "{{a}}{{b}}".
Proof. split; reflexivity. Qed.

(* ------------------------------------------------------------------ *)
(** * Slug derivation *)
(* ------------------------------------------------------------------ *)

Lemma replace_space (s : text) : replace " " "-" s = map hyphenate s.
Proof.
  change (replace " " "-" s) with (replace [" "%char] "-" s).
  rewrite replace_char.
  induction s as [|c s IH]; [reflexivity|].
  cbn [flat_map map]. rewrite IH. unfold hyphenate.
  rewrite (Ascii.eqb_sym c). destruct (Ascii.eqb " " c); reflexivity.
Qed.

Lemma replace_colon (s : text) : replace ":" [] s = filter not_colon s.
Proof.
  change (replace ":" [] s) with (replace [":"%char] [] s).
  rewrite replace_char.
  induction s as [|c s IH]; [reflexivity|].
  cbn [flat_map filter]. rewrite IH. unfold not_colon.
  rewrite (Ascii.eqb_sym c). destruct (Ascii.eqb ":" c); reflexivity.
Qed.

Lemma slug_app_ok (story : dict) (title : text) :
  dict_get story "storytitle" = Some (VStr title) ->
  slug_app story = Ok (map hyphenate (lower title)).
Proof.
  intros H. unfold slug_app, dict_item. rewrite H.
  cbn [bind_result value_lower]. rewrite replace_space. reflexivity.
Qed.

Lemma slug_single_ok (data : dict) (title : text) :
  dict_get data "storytitle" = Some (VStr title) ->
  slug_single data = Ok (filter not_colon (map hyphenate (lower title))).
Proof.
  intros H. unfold slug_single, dict_item. rewrite H.
  cbn [bind_result value_lower]. rewrite replace_space, replace_colon.
  reflexivity.
Qed.

(** C6.  The slug is the title in lower case with every space replaced by a
    hyphen; [src/app-single.py] also removes every colon.  Lower case is
    that of [str.lower]: on an ASCII title the letters A to Z become a to z
    and nothing else changes; beyond ASCII the case of every letter is
    folded, as in [Évolution] and in [İstanbul], whose first letter becomes
    two characters; no title leaves one of the letters A to Z in its slug.
    For the title of the specification the two variants give the documented
    slugs. *)
Theorem slug_derivation (story : dict) (title : text) :
  dict_get story "storytitle" = Some (VStr title) ->
  slug_app story = Ok (map hyphenate (lower title))
  /\ slug_single story = Ok (filter not_colon (map hyphenate (lower title)))
  /\ (is_ascii title = true ->
      lower title = map ascii_lower title
      /\ slug_app story
         = Ok (map (fun c =>
                      if Ascii.eqb c " "%char then "-"%char
                      else if ((65 <=? byte c) && (byte c <=? 90))%N
                           then chr (byte c + 32)
                           else c) title))
  /\ (forall c, In c (lower title) -> is_capital c = false)
  /\ (forall sa, slug_app story = Ok sa ->
                 forall c, In c sa -> c <> " "%char /\ is_capital c = false)
  /\ lower "Évolution" = "évolution"
  /\ lower "İstanbul" = "i̇stanbul"
  /\ lower "ΟΔΟΣ ΣΟΦΙΑΣ" = "οδος σοφιας"
  /\ (title = "The Solar System: An Overview" ->
      slug_single story = Ok "the-solar-system-an-overview"
      /\ slug_app story = Ok "the-solar-system:-an-overview").
Proof.
  intros H.
  pose proof (slug_app_ok story H) as Happ.
  pose proof (slug_single_ok story H) as Hsingle.
  assert (forall c, In c (map hyphenate (lower title)) ->
            c <> " "%char /\ is_capital c = false) as Hchars.
  { intros c Hc. apply in_map_iff in Hc as (c0 & <- & Hc0).
    apply lower_no_capital in Hc0. unfold hyphenate.
    destruct (Ascii.eqb c0 " "%char) eqn:E.
    - split; [discriminate|reflexivity].
    - apply Ascii.eqb_neq in E. split; assumption. }
  split; [exact Happ|]. split; [exact Hsingle|].
  split; [|split; [|split; [|split; [|split; [|split]]]]].
  - intros Hascii. pose proof (lower_ascii title Hascii) as Hlow.
    split; [exact Hlow|]. rewrite Happ, Hlow, map_map. f_equal.
    apply map_ext. intros c. unfold hyphenate, ascii_lower, is_capital.
    destruct ((65 <=? byte c)%N && (byte c <=? 90)%N) eqn:Ecap.
    + assert (Ascii.eqb c " "%char = false) as Hsp.
      { apply Ascii.eqb_neq. intros ->. discriminate Ecap. }
      rewrite Hsp.
      assert (Ascii.eqb (chr (byte c + 32)) " "%char = false) as Hsp'.
      { apply Ascii.eqb_neq. intros E.
        apply (f_equal byte) in E. apply andb_true_iff in Ecap as [E1 E2].
        apply N.leb_le in E1, E2. rewrite byte_chr in E by lia.
        change (byte " "%char) with 32%N in E. lia. }
      rewrite Hsp'. reflexivity.
    + reflexivity.
  - intros c. apply lower_no_capital.
  - intros sa Hsa. rewrite Happ in Hsa. injection Hsa as <-. exact Hchars.
  - vm_compute. reflexivity.
  - vm_compute. reflexivity.
  - vm_compute. reflexivity.
  - intros ->. rewrite Happ, Hsingle. split; reflexivity.
Qed.

(** The title of the specification. *)
Lemma slug_derivation_witness :
  slug_single [("storytitle", VStr "The Solar System: An Overview")]
  = Ok "the-solar-system-an-overview"
  /\ slug_app [("storytitle", VStr "The Solar System: An Overview")]
     = Ok "the-solar-system:-an-overview".
Proof.
  destruct (@slug_derivation
              [("storytitle", VStr "The Solar System: An Overview")]
              "The Solar System: An Overview" eq_refl)
    as (_ & _ & _ & _ & _ & _ & _ & _ & Hspec).
  exact (Hspec eq_refl).
Defined.

(* ------------------------------------------------------------------ *)
(** * The fenced-block search *)
(* ------------------------------------------------------------------ *)

Lemma app_cancel_prefix (p b w r : text) :
  p ++ b = w ++ r -> length p <= length w -> b = skipn (length p) w ++ r.
Proof.
  intros E Hlen.
  assert (skipn (length p) (p ++ b) = skipn (length p) (w ++ r)) as H
    by (rewrite E; reflexivity).
  rewrite skipn_app, skipn_all, Nat.sub_diag in H. simpl in H.
  rewrite skipn_app in H.
  replace (length p - length w) with 0 in H by lia. exact H.
Qed.

(** The lazy group stops at the first closing text. *)
Lemma lazy_until_spec (c s g : text) :
  lazy_until c s = Some g ->
  exists post,
    s = g ++ c ++ post
    /\ forall a b, s = a ++ c ++ b -> length g <= length a.
Proof.
  revert g; induction s as [|x s IH]; intros g H.
  - simpl in H. destruct (strip_prefix c []) as [r|] eqn:E; [|discriminate].
    injection H as <-. apply strip_prefix_some in E.
    exists r. split; [exact E|]. intros; simpl; lia.
  - cbn [lazy_until] in H.
    destruct (strip_prefix c (x :: s)) as [r|] eqn:E.
    + injection H as <-. apply strip_prefix_some in E.
      exists r. split; [exact E|]. intros; simpl; lia.
    + destruct (lazy_until c s) as [g'|] eqn:E'; [|discriminate].
      injection H as <-.
      destruct (IH g' eq_refl) as (post & Hs & Hmin).
      exists post. split; [simpl; congruence|].
      intros [|y a] b Hab.
      * simpl in Hab. rewrite Hab, strip_prefix_app in E. discriminate.
      * simpl in Hab. injection Hab as _ Hab. simpl.
        specialize (Hmin a b Hab). lia.
Qed.

Lemma lazy_until_here (c s r : text) :
  strip_prefix c s = Some r -> lazy_until c s = Some [].
Proof. intros H. destruct s; cbn [lazy_until]; rewrite H; reflexivity. Qed.

Lemma re_search_fence_here (s g : text) :
  match_fence_here s = Some g -> re_search_fence s = Some g.
Proof. intros H. destruct s; cbn [re_search_fence]; rewrite H; reflexivity. Qed.

Lemma lazy_until_first (c g post : text) :
  (forall a b, g ++ c ++ post = a ++ c ++ b -> length g <= length a) ->
  lazy_until c (g ++ c ++ post) = Some g.
Proof.
  induction g as [|x g IH]; intros Hmin.
  - cbn [app]. apply lazy_until_here with (r := post). apply strip_prefix_app.
  - change ((x :: g) ++ c ++ post) with (x :: g ++ c ++ post).
    cbn [lazy_until].
    destruct (strip_prefix c (x :: g ++ c ++ post)) as [r|] eqn:E.
    + apply strip_prefix_some in E.
      specialize (Hmin [] r E). simpl in Hmin. lia.
    + rewrite IH; [reflexivity|].
      intros a b Hab. specialize (Hmin (x :: a) b).
      simpl in Hmin. rewrite Hab in Hmin. specialize (Hmin eq_refl). lia.
Qed.

Lemma lazy_until_occurs (c a b : text) :
  lazy_until c (a ++ c ++ b) <> None.
Proof.
  induction a as [|x a IH].
  - cbn [app]. rewrite (@lazy_until_here c (c ++ b) b (strip_prefix_app c b)).
    discriminate.
  - change ((x :: a) ++ c ++ b) with (x :: a ++ c ++ b). cbn [lazy_until].
    destruct (strip_prefix c (x :: a ++ c ++ b)); [discriminate|].
    destruct (lazy_until c (a ++ c ++ b)); [discriminate|]. contradiction.
Qed.

Lemma re_search_fence_cons (x : ascii) (s : text) :
  re_search_fence (x :: s) =
  match match_fence_here (x :: s) with
  | Some g => Some g
  | None => re_search_fence s
  end.
Proof. reflexivity. Qed.

(** What [re.search] returns is the body of the first fenced block. *)
Lemma re_search_fence_some (s g : text) :
  re_search_fence s = Some g -> exists pre post, first_fenced s pre g post.
Proof.
  revert g; induction s as [|x s IH]; intros g H.
  - discriminate H.
  - rewrite re_search_fence_cons in H.
    destruct (match_fence_here (x :: s)) as [g0|] eqn:E.
    + injection H as ->. unfold match_fence_here in E.
      destruct (strip_prefix fence_open (x :: s)) as [r|] eqn:Er;
        [|discriminate].
      apply strip_prefix_some in Er.
      destruct (lazy_until_spec _ _ E) as (post & Hr & Hmin).
      exists [], post. repeat split.
      * unfold fenced. rewrite Er, Hr. reflexivity.
      * intros; simpl; lia.
      * rewrite <- Hr. exact Hmin.
    + destruct (IH g H) as (pre & post & Hf & Hleft & Hmin).
      exists (x :: pre), post. repeat split.
      * unfold fenced in *. rewrite Hf. reflexivity.
      * intros [|y a] b Hab.
        -- exfalso. cbn [app] in Hab. unfold match_fence_here in E.
           rewrite Hab, strip_prefix_app in E.
           assert (fence_open ++ b
                   = (x :: pre ++ fence_open ++ g) ++ fence_close ++ post)
             as Hb.
           { rewrite <- Hab, Hf. unfold fenced. cbn [app].
             rewrite <- !app_assoc. reflexivity. }
           apply app_cancel_prefix in Hb.
           ++ rewrite Hb in E. exact (lazy_until_occurs _ _ _ E).
           ++ cbn [length]. rewrite !length_app. cbn. lia.
        -- simpl in Hab. injection Hab as _ Hab. simpl.
           specialize (Hleft a b Hab). lia.
      * exact Hmin.
Qed.

Lemma re_search_fence_first (s pre g post : text) :
  first_fenced s pre g post -> re_search_fence s = Some g.
Proof.
  intros (Hf & Hleft & Hmin). unfold fenced in Hf. subst s.
  induction pre as [|x pre IH].
  - cbn [app]. apply re_search_fence_here. unfold match_fence_here.
    rewrite strip_prefix_app. apply lazy_until_first. assumption.
  - change ((x :: pre) ++ fence_open ++ g ++ fence_close ++ post)
      with (x :: pre ++ fence_open ++ g ++ fence_close ++ post) in *.
    rewrite re_search_fence_cons. unfold match_fence_here.
    destruct (strip_prefix fence_open
                (x :: pre ++ fence_open ++ g ++ fence_close ++ post))
      as [r|] eqn:E.
    + apply strip_prefix_some in E. specialize (Hleft [] r E).
      cbn [length] in Hleft. lia.
    + apply IH. intros a b Hab.
      specialize (Hleft (x :: a) b (f_equal (cons x) Hab)).
      cbn [length] in Hleft. lia.
Qed.

Lemma re_search_fence_none (s : text) :
  (~ exists pre g post, fenced s pre g post) -> re_search_fence s = None.
Proof.
  intros H. destruct (re_search_fence s) as [g|] eqn:E; [|reflexivity].
  exfalso. apply H. destruct (re_search_fence_some _ E) as (pre & post & Hf & _).
  exists pre, g, post. exact Hf.
Qed.

(* ------------------------------------------------------------------ *)
(** * [generate_seo] *)
(* ------------------------------------------------------------------ *)

Section Seo.
Context {R : Runtime}.

Lemma parse_seo_response_ok (warning content : text) (st : state) (v : value) :
  json_loads (seo_raw content) = Ok v ->
  parse_seo_response warning content st = (Ok v, st).
Proof.
  intros H. unfold parse_seo_response, try_except_json, lift. rewrite H.
  reflexivity.
Qed.

Lemma parse_seo_response_decode_error
    (warning content : text) (st : state) (e : exn) :
  json_loads (seo_raw content) = Raise e ->
  is_json_decode_error e = true ->
  parse_seo_response warning content st
  = (Ok seo_default,
     State (st_world st) (st_trace st ++ [EvWarning warning])).
Proof.
  intros H He. unfold parse_seo_response, try_except_json, lift.
  rewrite H, He. reflexivity.
Qed.

(** The two variants of [generate_seo], unfolded to their three steps. *)
Lemma app_generate_seo_eq (story : dict) (st : state) :
  App.generate_seo story st =
  match App.seo_prompt story with
  | Raise e => (Raise e, st)
  | Ok p =>
      let st1 := State (snd (chat_io (App.seo_request p) (st_world st)))
                       (st_trace st ++ [EvChat (App.seo_request p)]) in
      match fst (chat_io (App.seo_request p) (st_world st)) with
      | Ok content => parse_seo_response App.seo_warning content st1
      | Raise e => (Raise e, st1)
      end
  end.
Proof.
  unfold App.generate_seo, bind, lift, io.
  destruct (App.seo_prompt story) as [p|e]; [|reflexivity].
  destruct (chat_io (App.seo_request p) (st_world st)) as [[content|e] w];
    reflexivity.
Qed.

Lemma single_generate_seo_eq (data : dict) (st : state) :
  Single.generate_seo data st =
  match Single.seo_prompt data with
  | Raise e => (Raise e, st)
  | Ok p =>
      let st1 := State (snd (chat_io (Single.seo_request p) (st_world st)))
                       (st_trace st ++ [EvChat (Single.seo_request p)]) in
      match fst (chat_io (Single.seo_request p) (st_world st)) with
      | Ok content => parse_seo_response Single.seo_warning content st1
      | Raise e => (Raise e, st1)
      end
  end.
Proof.
  unfold Single.generate_seo, bind, lift, io.
  destruct (Single.seo_prompt data) as [p|e]; [|reflexivity].
  destruct (chat_io (Single.seo_request p) (st_world st)) as [[content|e] w];
    reflexivity.
Qed.

Ltac lookup_or_missing story k :=
  destruct (dict_get story k) eqn:?;
  [cbn [bind_result]
  |exists k; repeat split;
   [cbn [seo_fields In]; tauto | assumption]].

Lemma app_seo_prompt_missing (story : dict) :
  (exists k, In k seo_fields /\ dict_get story k = None) ->
  exists k,
    In k seo_fields /\ dict_get story k = None
    /\ App.seo_prompt story = Raise (key_error k).
Proof.
  intros (k0 & Hin & Hk0). unfold App.seo_prompt, dict_item.
  lookup_or_missing story ("s2paragraph1" : text).
  lookup_or_missing story ("s3paragraph1" : text).
  lookup_or_missing story ("s4paragraph1" : text).
  lookup_or_missing story ("s5paragraph1" : text).
  lookup_or_missing story ("s6paragraph1" : text).
  lookup_or_missing story ("storytitle" : text).
  exfalso. cbn [seo_fields In] in Hin.
  repeat (destruct Hin as [<-|Hin]; [congruence|]). exact Hin.
Qed.

Lemma single_seo_prompt_missing (data : dict) :
  (exists k, In k seo_fields /\ dict_get data k = None) ->
  exists k,
    In k seo_fields /\ dict_get data k = None
    /\ Single.seo_prompt data = Raise (key_error k).
Proof.
  intros (k0 & Hin & Hk0). unfold Single.seo_prompt, dict_item.
  lookup_or_missing data ("storytitle" : text).
  lookup_or_missing data ("s2paragraph1" : text).
  lookup_or_missing data ("s3paragraph1" : text).
  lookup_or_missing data ("s4paragraph1" : text).
  lookup_or_missing data ("s5paragraph1" : text).
  lookup_or_missing data ("s6paragraph1" : text).
  exfalso. cbn [seo_fields In] in Hin.
  repeat (destruct Hin as [<-|Hin]; [congruence|]). exact Hin.
Qed.

End Seo.

Lemma json_decode_error_class (e : exn) :
  exn_cls e = JSONDecodeError -> is_json_decode_error e = true.
Proof. intros H. unfold is_json_decode_error. rewrite H. reflexivity. Qed.

(** C2 (amended).  When [json.loads] raises [JSONDecodeError] on the text
    extracted from the reply, [generate_seo] does not raise: it shows its
    warning and returns the record with two empty strings.  This holds for
    the parsing stage alone and for the whole function in both variants,
    once the prompt has been built and the chat service has replied. *)
Theorem generate_seo_degrades {R : Runtime} (content : text) (e : exn) :
  json_loads (seo_raw content) = Raise e ->
  exn_cls e = JSONDecodeError ->
  let empty :=
    VDict [("metadescription", VStr []); ("metakeywords", VStr [])] in
  (forall warning st,
     parse_seo_response warning content st
     = (Ok empty, State (st_world st) (st_trace st ++ [EvWarning warning])))
  /\ (forall story p st w,
        App.seo_prompt story = Ok p ->
        chat_io (App.seo_request p) (st_world st) = (Ok content, w) ->
        App.generate_seo story st
        = (Ok empty,
           State w
             (st_trace st
              ++ [EvChat (App.seo_request p);
                  EvWarning "⚠️ SEO parsing failed; using empty metadata."])))
  /\ (forall data p st w,
        Single.seo_prompt data = Ok p ->
        chat_io (Single.seo_request p) (st_world st) = (Ok content, w) ->
        Single.generate_seo data st
        = (Ok empty,
           State w
             (st_trace st
              ++ [EvChat (Single.seo_request p);
                  EvWarning
                    "⚠️ SEO JSON parse failed; using empty metadata."]))).
Proof.
  intros Hjson Hcls empty.
  pose proof (json_decode_error_class e Hcls) as He.
  split; [|split].
  - intros warning st.
    exact (@parse_seo_response_decode_error R warning content st e Hjson He).
  - intros story p st w Hp Hchat.
    rewrite app_generate_seo_eq, Hp, Hchat. cbn [fst snd].
    rewrite (@parse_seo_response_decode_error R _ content _ e Hjson He).
    cbn [st_world st_trace]. rewrite <- app_assoc. reflexivity.
  - intros data p st w Hp Hchat.
    rewrite single_generate_seo_eq, Hp, Hchat. cbn [fst snd].
    rewrite (@parse_seo_response_decode_error R _ content _ e Hjson He).
    cbn [st_world st_trace]. rewrite <- app_assoc. reflexivity.
Qed.

(** An instance: a reply in plain words, decoded by the reference decoder. *)
Lemma generate_seo_degrades_witness :
  let R := Script.runtime "Sorry, I cannot help with that." in
  fst (App.generate_seo Script.story (State (R := R) 0 []))
  = Ok (VDict [("metadescription", VStr []); ("metakeywords", VStr [])])
  /\ fst (Single.generate_seo Script.story (State (R := R) 0 []))
     = Ok (VDict [("metadescription", VStr []); ("metakeywords", VStr [])]).
Proof.
  intros R.
  destruct (@generate_seo_degrades R "Sorry, I cannot help with that."
              Json.decode_error eq_refl eq_refl) as (_ & Happ & Hsingle).
  split.
  - rewrite (Happ Script.story _ (State (R := R) 0 []) 0 eq_refl eq_refl).
    reflexivity.
  - rewrite (Hsingle Script.story _ (State (R := R) 0 []) 0 eq_refl eq_refl).
    reflexivity.
Defined.

Lemma re_search_fence_brackets (n : nat) :
  re_search_fence (repeat "["%char n) = None.
Proof.
  induction n as [|n IH]; [reflexivity|].
  cbn [repeat]. rewrite re_search_fence_cons, IH.
  unfold match_fence_here, fence_open.
  rewrite strip_prefix_head by discriminate. reflexivity.
Qed.

Lemma spaces_no_bracket (w : text) : In w spaces -> ~ In "["%char w.
Proof.
  assert (forallb (fun w => forallb (fun c => negb (Ascii.eqb c "["%char)) w)
            spaces = true) as H by (vm_compute; reflexivity).
  rewrite forallb_forall in H. intros Hw Hin. specialize (H w Hw).
  rewrite forallb_forall in H. specialize (H _ Hin). discriminate H.
Qed.

Lemma strip_brackets (n : nat) :
  strip (repeat "["%char n) = repeat "["%char n.
Proof.
  assert (forall w a b, In w spaces -> repeat "["%char n <> a ++ w ++ b) as H.
  { intros w a b Hw E. pose proof (@spaces_nonempty w Hw) as Hne.
    destruct w as [|c w]; [contradiction|].
    assert (In c (repeat "["%char n)) as Hc
      by (rewrite E; apply in_or_app; right; left; reflexivity).
    apply repeat_spec in Hc. subst c.
    apply (spaces_no_bracket Hw). left. reflexivity. }
  apply strip_solid.
  - intros w r Hw E. apply (H w [] r Hw). exact E.
  - intros w r Hw E. apply (H w r [] Hw). rewrite app_nil_r. exact E.
Qed.

Lemma seo_raw_brackets (n : nat) :
  seo_raw (repeat "["%char n) = repeat "["%char n.
Proof.
  unfold seo_raw. rewrite re_search_fence_brackets. apply strip_brackets.
Qed.

Lemma leading_brackets_repeat (n : nat) :
  Outage.leading_brackets (Json.skip_ws (repeat "["%char n)) = n.
Proof.
  assert (Outage.leading_brackets (repeat "["%char n) = n) as H.
  { induction n as [|n IH]; [reflexivity|].
    cbn [repeat Outage.leading_brackets]. rewrite Ascii.eqb_refl, IH.
    reflexivity. }
  destruct n as [|n]; [reflexivity|].
  change (Json.skip_ws (repeat "["%char (S n)))
    with (repeat "["%char (S n)).
  exact H.
Qed.

(** A reply that opens more arrays than the interpreter can follow. *)
Lemma limited_loads_deep (limit n : nat) :
  limit < n ->
  json_loads (Runtime := Outage.limited limit (repeat "["%char n))
    (seo_raw (repeat "["%char n))
  = Raise Outage.too_deep.
Proof.
  intros H. rewrite seo_raw_brackets.
  change (Outage.loads_limit limit (repeat "["%char n)
          = Raise Outage.too_deep).
  unfold Outage.loads_limit. rewrite leading_brackets_repeat.
  apply Nat.ltb_lt in H. rewrite H. reflexivity.
Qed.

Lemma limited_chat (limit : nat) (reply : text) (req : chat_request)
    (w : nat) :
  chat_io (Runtime := Outage.limited limit reply) req w = (Ok reply, w).
Proof. reflexivity. Qed.

Lemma limited_generate_seo (limit n : nat) (story : dict) (p : text)
    (w : nat) (tr : list (event (R := Outage.limited limit
                                          (repeat "["%char n)))) :
  limit < n ->
  App.seo_prompt (R := Outage.limited limit (repeat "["%char n)) story
  = Ok p ->
  fst (App.generate_seo (R := Outage.limited limit (repeat "["%char n))
         story (State (R := Outage.limited limit (repeat "["%char n)) w tr))
  = Raise Outage.too_deep.
Proof.
  intros H Hp. rewrite app_generate_seo_eq, Hp.
  cbn [st_world st_trace]. rewrite limited_chat. cbn [fst snd].
  unfold parse_seo_response, try_except_json, lift.
  rewrite (limited_loads_deep H). reflexivity.
Qed.

(** C2 as stated fails: not every failure of the parsing is a
    [JSONDecodeError].  On a reply of 100000 opening brackets [json.loads]
    gives up with [RecursionError], which the [except] clause does not
    catch, and [generate_seo] raises. *)
Lemma generate_seo_parse_failure_counterexample :
  ~ (forall (R : Runtime) (story : dict) (p : text) (st : state) (w : world)
            (content : text) (e : exn),
       App.seo_prompt story = Ok p ->
       chat_io (App.seo_request p) (st_world st) = (Ok content, w) ->
       json_loads (seo_raw content) = Raise e ->
       fst (App.generate_seo story st)
       = Ok (VDict [("metadescription", VStr []); ("metakeywords", VStr [])])).
Proof.
  intros H.
  assert (1000 < N.to_nat 100000) as Hdeep by lia.
  assert (exists p,
            App.seo_prompt
              (R := Outage.limited 1000 (repeat "["%char (N.to_nat 100000)))
              Script.story = Ok p) as (p & Hp)
    by (eexists; reflexivity).
  pose proof
    (H (Outage.limited 1000 (repeat "["%char (N.to_nat 100000)))
       Script.story p
       (State (R := Outage.limited 1000 (repeat "["%char (N.to_nat 100000)))
          0 [])
       0 (repeat "["%char (N.to_nat 100000)) Outage.too_deep Hp
       (limited_chat 1000 (repeat "["%char (N.to_nat 100000))
          (App.seo_request p) 0)
       (limited_loads_deep Hdeep)) as Hok.
  rewrite (limited_generate_seo Script.story 0 [] Hdeep Hp) in Hok.
  discriminate Hok.
Qed.

(** C5.  The parsing policy of [generate_seo].  When the reply holds a
    fenced block, the text handed to [json.loads] is the stripped body of
    the first one: it starts after the leftmost opening fence and ends
    before the first closing fence that follows.  Without a fenced block it
    is the stripped reply.  Stripped means that the white space of
    [str.strip], the Unicode white space, is taken away at both ends and
    that the text neither starts nor ends with such a character.  What
    [json.loads] makes of that text is the result.  The reply of the
    specification's example parses to the documented record in both
    variants. *)
Theorem seo_parsing_policy {R : Runtime} (content : text) :
  (forall pre g post,
     first_fenced content pre g post ->
     seo_raw content = strip g /\ stripped_of g (seo_raw content))
  /\ ((exists pre g post, fenced content pre g post) ->
      exists pre g post,
        first_fenced content pre g post /\ seo_raw content = strip g)
  /\ ((~ exists pre g post, fenced content pre g post) ->
      seo_raw content = strip content
      /\ stripped_of content (seo_raw content))
  /\ (forall warning st v,
        json_loads (seo_raw content) = Ok v ->
        parse_seo_response warning content st = (Ok v, st))
  /\ seo_raw example_reply = example_json
  /\ Json.loads example_json = Ok example_seo
  /\ (let S := Script.runtime example_reply in
      fst (App.generate_seo Script.story (State (R := S) 0 []))
      = Ok example_seo
      /\ fst (Single.generate_seo Script.story (State (R := S) 0 []))
         = Ok example_seo).
Proof.
  split; [|split; [|split; [|split]]].
  - intros pre g post H. unfold seo_raw.
    rewrite (re_search_fence_first H). split; [reflexivity|].
    apply strip_spec.
  - intros (pre & g & post & H). unfold seo_raw.
    destruct (re_search_fence content) as [g0|] eqn:E.
    + destruct (re_search_fence_some _ E) as (pre0 & post0 & H0).
      exists pre0, g0, post0. split; [exact H0|reflexivity].
    + exfalso. unfold fenced in H. subst content.
      clear -E. induction pre as [|x pre IH].
      * cbn [app] in E.
        assert (match_fence_here (fence_open ++ g ++ fence_close ++ post)
                <> None) as Hm.
        { unfold match_fence_here. rewrite strip_prefix_app.
          apply lazy_until_occurs. }
        destruct (match_fence_here (fence_open ++ g ++ fence_close ++ post))
          as [g1|] eqn:Em; [|congruence].
        rewrite (re_search_fence_here _ Em) in E. discriminate.
      * change ((x :: pre) ++ fence_open ++ g ++ fence_close ++ post)
          with (x :: pre ++ fence_open ++ g ++ fence_close ++ post) in E.
        rewrite re_search_fence_cons in E.
        destruct (match_fence_here
                    (x :: pre ++ fence_open ++ g ++ fence_close ++ post));
          [discriminate|auto].
  - intros H. unfold seo_raw. rewrite (re_search_fence_none H).
    split; [reflexivity|]. apply strip_spec.
  - intros warning st v H. apply parse_seo_response_ok. exact H.
  - vm_compute. repeat split.
Qed.

(** Instances: a fenced block after noise, a reply without fence, a fence
    whose tag is in upper case, which the pattern does not match, and a
    reply between a no-break space and a line separator. *)
Lemma seo_parsing_policy_witness :
  seo_raw "x```json {} ``` bye" = "{}"
  /\ seo_raw ("  [1, 2]" ++ [newline]) = "[1, 2]"
  /\ seo_raw " ```JSON {} ``` " = "```JSON {} ```"
  /\ seo_raw (utf8_units 160 ++ "{}" ++ utf8_units 8232) = "{}".
Proof.
  pose (R := Script.runtime []).
  split; [|split; [|split]].
  - apply (proj1 (@seo_parsing_policy R "x```json {} ``` bye")
             "x" " {} " " bye").
    split; [reflexivity|split].
    + intros [|c a] b H; [|cbn [length]; lia].
      unfold fence_open in H. discriminate H.
    + intros a b H. unfold fence_close in H.
      destruct a as [|c1 [|c2 [|c3 [|c4 a]]]];
        try discriminate H; cbn [length]; lia.
  - apply (proj1 (proj2 (proj2 (@seo_parsing_policy R
                                  ("  [1, 2]" ++ [newline]))))).
    intros (pre & g & post & H). unfold fenced in H.
    assert (In "`"%char ("  [1, 2]" ++ [newline])) as Hin.
    { rewrite H. apply in_or_app; right. left; reflexivity. }
    cbn in Hin. repeat (destruct Hin as [Hin|Hin]; [discriminate Hin|]).
    exact Hin.
  - apply (proj1 (proj2 (proj2 (@seo_parsing_policy R " ```JSON {} ``` ")))).
    intros (pre & g & post & H). unfold fenced in H.
    assert (In "j"%char " ```JSON {} ``` ") as Hin.
    { rewrite H. apply in_or_app; right. right; right; right; left.
      reflexivity. }
    cbn in Hin. repeat (destruct Hin as [Hin|Hin]; [discriminate Hin|]).
    exact Hin.
  - apply (proj1 (proj2 (proj2 (@seo_parsing_policy R
                                  (utf8_units 160 ++ "{}"
                                   ++ utf8_units 8232))))).
    intros (pre & g & post & H). unfold fenced in H.
    assert (In "`"%char (utf8_units 160 ++ "{}" ++ utf8_units 8232)) as Hin.
    { rewrite H. apply in_or_app; right. left; reflexivity. }
    vm_compute in Hin. repeat (destruct Hin as [Hin|Hin]; [discriminate Hin|]).
    exact Hin.
Defined.

(** C9.  The fallback of [generate_seo] covers the parsing of the reply
    only.  With a Story Record that lacks the title or one of the five
    paragraphs, building the prompt raises [KeyError]; nothing is sent to
    the chat service (the state, with its trace, is unchanged), the default
    record is not returned, and the stage of the orchestrator that calls
    [generate_seo] raises the same error. *)
Theorem generate_seo_missing_field {R : Runtime} (story : dict) (st : state) :
  (exists k, In k seo_fields /\ dict_get story k = None) ->
  (exists k,
     In k seo_fields /\ dict_get story k = None
     /\ App.generate_seo story st = (Raise (key_error k), st)
     /\ App.seo_stage story st = (Raise (key_error k), st))
  /\ (exists k,
        In k seo_fields /\ dict_get story k = None
        /\ Single.generate_seo story st = (Raise (key_error k), st)
        /\ Single.seo_stage story st = (Raise (key_error k), st)).
Proof.
  intros H. split.
  - destruct (app_seo_prompt_missing story H) as (k & Hin & Hk & Hp).
    exists k. repeat split; try assumption.
    + rewrite app_generate_seo_eq, Hp. reflexivity.
    + unfold App.seo_stage, bind. rewrite app_generate_seo_eq, Hp. reflexivity.
  - destruct (single_seo_prompt_missing story H) as (k & Hin & Hk & Hp).
    exists k. repeat split; try assumption.
    + rewrite single_generate_seo_eq, Hp. reflexivity.
    + unfold Single.seo_stage, bind. rewrite single_generate_seo_eq, Hp.
      reflexivity.
Qed.

(** An instance: a record with the title and one paragraph only. *)
Lemma generate_seo_missing_field_witness :
  let R := Script.runtime [] in
  let story := [("storytitle", VStr "T"); ("s2paragraph1", VStr "p2")] in
  exists k,
    App.generate_seo (R := R) story (State (R := R) 0 [])
    = (Raise (key_error k), State (R := R) 0 []).
Proof.
  intros R story.
  destruct (@generate_seo_missing_field R story (State (R := R) 0 [])) as
    [(k & _ & _ & H & _) _].
  - exists "s3paragraph1". split; [cbn; tauto|reflexivity].
  - exists k. exact H.
Defined.

(* ------------------------------------------------------------------ *)
(** * Dictionaries and field names *)
(* ------------------------------------------------------------------ *)

Lemma dict_get_set_same (d : dict) (k : text) (v : value) :
  dict_get (dict_set d k v) k = Some v.
Proof.
  induction d as [|[k' v'] d IH]; simpl.
  - rewrite text_eqb_refl. reflexivity.
  - destruct (text_eqb k' k) eqn:E; simpl; rewrite E; auto.
Qed.

Lemma dict_get_set_other (d : dict) (k k' : text) (v : value) :
  k <> k' -> dict_get (dict_set d k v) k' = dict_get d k'.
Proof.
  intros Hne. induction d as [|[k0 v0] d IH]; simpl.
  - apply text_eqb_neq in Hne. rewrite Hne. reflexivity.
  - destruct (text_eqb k0 k) eqn:E; simpl.
    + apply text_eqb_eq in E; subst k0.
      apply text_eqb_neq in Hne. rewrite Hne. reflexivity.
    + destruct (text_eqb k0 k'); auto.
Qed.

Lemma dict_get_set (d : dict) (k k' : text) (v : value) :
  dict_get (dict_set d k v) k'
  = if text_eqb k k' then Some v else dict_get d k'.
Proof.
  destruct (text_eqb k k') eqn:E.
  - apply text_eqb_eq in E; subst. apply dict_get_set_same.
  - apply text_eqb_neq in E. apply dict_get_set_other. exact E.
Qed.

Lemma to_uint_nonnil (n : nat) : Nat.to_uint n <> Decimal.Nil.
Proof.
  rewrite <- (DecimalNat.Unsigned.of_to n) at 1.
  rewrite DecimalNat.Unsigned.to_of. apply DecimalFacts.unorm_nonnil.
Qed.

Lemma decimal_inj (a b : nat) : decimal a = decimal b -> a = b.
Proof.
  unfold decimal. intros H.
  apply (f_equal String.string_of_list_ascii) in H.
  rewrite !String.string_of_list_ascii_of_string in H.
  apply (f_equal DecimalString.NilZero.uint_of_string) in H.
  rewrite !DecimalString.NilZero.usu in H by apply to_uint_nonnil.
  injection H as H. apply DecimalNat.Unsigned.to_uint_inj. exact H.
Qed.

Lemma slide_field_inj (i j : nat) (suffix : text) :
  slide_field i suffix = slide_field j suffix -> i = j.
Proof.
  unfold slide_field. intros H. apply app_inv_head in H.
  apply app_inv_tail in H. apply decimal_inj. exact H.
Qed.

(* ------------------------------------------------------------------ *)
(** * The image loop *)
(* ------------------------------------------------------------------ *)

Section Images.
Context {R : Runtime}.
Variable cfg : config.

Lemma for_each_app {A S} (l1 l2 : list A) (body : A -> S -> M S) (s : S)
    (st : state) :
  for_each (l1 ++ l2) body s st
  = bind (for_each l1 body s) (for_each l2 body) st.
Proof.
  revert s st; induction l1 as [|x l1 IH]; intros s st.
  - reflexivity.
  - cbn [app for_each]. unfold bind in *.
    destruct (body x s st) as [[s1|e] st1]; [|reflexivity].
    apply IH.
Qed.

Lemma for_each_cons {A S} (x : A) (l : list A) (body : A -> S -> M S) (s : S)
    (st : state) :
  for_each (x :: l) body s st =
  match body x s st with
  | (Ok s1, st1) => for_each l body s1 st1
  | (Raise e, st1) => (Raise e, st1)
  end.
Proof. reflexivity. Qed.

Lemma errors_app (a b : list event) : errors (a ++ b) = errors a ++ errors b.
Proof. apply flat_map_app. Qed.

Lemma posts_app (a b : list event) : posts (a ++ b) = posts a ++ posts b.
Proof. apply flat_map_app. Qed.

(** What the [try] block adds to the trace: one request, and a download
    when the request has given a URL; no message. *)
Lemma generate_image_trace (prompt : value) (st : state) :
  exists evs,
    st_trace (snd (generate_image cfg prompt st)) = st_trace st ++ evs
    /\ errors evs = []
    /\ posts evs = [prompt].
Proof.
  unfold generate_image, bind, io, lift.
  destruct (post_io (DALE_ENDPOINT cfg) (DALE_KEY cfg) prompt (st_world st))
    as [[dr|e] w]; cbn [snd st_trace st_world].
  2:{ eexists; split; [reflexivity|split; reflexivity]. }
  destruct (raise_for_status dr) as [[]|e]; cbn [snd st_trace st_world].
  2:{ eexists; split; [reflexivity|split; reflexivity]. }
  destruct (response_image_url dr) as [url|e]; cbn [snd st_trace st_world].
  2:{ eexists; split; [reflexivity|split; reflexivity]. }
  destruct (get_content_io url w) as [[data|e] w']; cbn [snd st_trace st_world].
  2:{ rewrite <- app_assoc. eexists; split; [reflexivity|split; reflexivity]. }
  destruct (image_open data) as [img|e]; cbn [snd st_trace st_world];
    rewrite <- app_assoc; eexists; (split; [reflexivity|split; reflexivity]).
Qed.

(** The [except] branch downloads the fallback image, decodes it and
    normalises it as a generated image is. *)
Lemma fallback_image_ok (st st' : state) (img : image) :
  fallback_image cfg st = (Ok img, st') ->
  exists raw img0,
    get_raw_io (DEFAULT_ERROR_IMAGE cfg) (st_world st)
    = (Ok raw, st_world st')
    /\ image_open raw = Ok img0
    /\ normalize img0 = Ok img
    /\ st_trace st' = st_trace st ++ [EvGetRaw (DEFAULT_ERROR_IMAGE cfg)].
Proof.
  unfold fallback_image, bind, io, lift.
  destruct (get_raw_io (DEFAULT_ERROR_IMAGE cfg) (st_world st))
    as [[raw|e] w]; [|discriminate].
  destruct (image_open raw) as [img0|e] eqn:E0; [|discriminate].
  intros H. injection H as H <-. exists raw, img0. auto.
Qed.

Lemma upload_jpeg_ok (img : image) (key : text) (st st' : state) :
  upload_jpeg cfg img key st = (Ok tt, st') ->
  exists buf,
    image_save_jpeg img = Ok buf
    /\ upload_fileobj_io buf (AWS_BUCKET cfg) key (st_world st)
       = (Ok tt, st_world st')
    /\ st_trace st' = st_trace st ++ [EvUploadFileobj buf (AWS_BUCKET cfg) key].
Proof.
  unfold upload_jpeg, bind, io, lift.
  destruct (image_save_jpeg img) as [buf|e]; [|discriminate].
  destruct (upload_fileobj_io buf (AWS_BUCKET cfg) key (st_world st))
    as [[[]|e] w] eqn:E; [|discriminate].
  intros H. injection H as <-. exists buf. auto.
Qed.

(** One iteration, by cases on the outcome of the [try] block. *)
Lemma image_slide_eq (error_prefix : text) (cdn_url : text -> text)
    (slug : text) (i : nat) (s : option image * dict) (st : state) :
  image_slide cfg error_prefix cdn_url slug i s st =
  match generate_image cfg (slide_prompt (snd s) i) st with
  | (Ok img, st1) => publish cfg cdn_url slug i (snd s) img st1
  | (Raise e, st1) =>
      match fallback_image cfg
              (after_error (slide_error error_prefix i e) st1) with
      | (Ok img, st2) => publish cfg cdn_url slug i (snd s) img st2
      | (Raise e2, st2) => (Raise e2, st2)
      end
  end.
Proof.
  unfold image_slide, publish, bind at 1, try_except, slide_prompt.
  destruct (generate_image cfg
              (dict_get_default (snd s) (slide_field i "alt1") (VStr [])) st)
    as [[img|e] st1].
  - unfold bind, ret, slide_key.
    destruct (upload_jpeg cfg img _ st1) as [[[]|e] st2]; reflexivity.
  - unfold bind at 1, st_error, after_error, slide_error.
    destruct (fallback_image cfg _) as [[img|e2] st2]; [|reflexivity].
    unfold bind, ret, slide_key.
    destruct (upload_jpeg cfg img _ st2) as [[[]|e3] st3]; reflexivity.
Qed.

End Images.

Lemma alt_not_image (i j : nat) :
  slide_field i "alt1" <> slide_field j "image1".
Proof.
  unfold slide_field. intros H. apply app_inv_head in H.
  apply (f_equal (@rev ascii)) in H. rewrite !rev_app_distr in H.
  discriminate H.
Qed.

Section ImageLoop.
Context {R : Runtime}.
Variable cfg : config.
Variable error_prefix : text.
Variable cdn_url : text -> text.
Variable slug : text.

Local Abbreviation body := (image_slide cfg error_prefix cdn_url slug).
Local Abbreviation url i := (VStr (cdn_url (slide_key cfg slug i))).

Lemma record_images_cons (i : nat) (l : list nat) (d : dict) :
  record_images cfg cdn_url slug (i :: l) d
  = record_images cfg cdn_url slug l
      (dict_set d (slide_field i "image1") (url i)).
Proof. reflexivity. Qed.

Lemma record_images_other (l : list nat) (d : dict) (k : text) :
  (forall i, In i l -> k <> slide_field i "image1") ->
  dict_get (record_images cfg cdn_url slug l d) k = dict_get d k.
Proof.
  revert d; induction l as [|x l IH]; intros d H; [reflexivity|].
  rewrite record_images_cons, IH by (intros i Hi; apply H; right; exact Hi).
  apply dict_get_set_other. intros E. apply (H x); [left; reflexivity|].
  symmetry; exact E.
Qed.

Lemma record_images_in (l : list nat) (d : dict) (i : nat) :
  In i l ->
  dict_get (record_images cfg cdn_url slug l d) (slide_field i "image1")
  = Some (url i).
Proof.
  revert d; induction l as [|x l IH]; intros d H; [contradiction|].
  rewrite record_images_cons.
  destruct (in_dec Nat.eq_dec i l) as [Hin|Hnin]; [apply IH; exact Hin|].
  destruct H as [->|H]; [|contradiction].
  rewrite record_images_other.
  - apply dict_get_set_same.
  - intros j Hj E. apply slide_field_inj in E. subst j. contradiction.
Qed.

(** Whatever the services do, an iteration that ends normally has made the
    assignment for its slide and nothing else. *)
Lemma publish_ok (i : nat) (data : dict) (img : image) (st : state)
    (s' : option image * dict) (st' : state) :
  publish cfg cdn_url slug i data img st = (Ok s', st') ->
  s' = (Some img, dict_set data (slide_field i "image1") (url i))
  /\ upload_jpeg cfg img (slide_key cfg slug i) st = (Ok tt, st').
Proof.
  unfold publish.
  destruct (upload_jpeg cfg img (slide_key cfg slug i) st) as [[[]|e] st2];
    [|discriminate].
  intros H. injection H as <- <-. split; reflexivity.
Qed.

Lemma image_slide_ok (i : nat) (s s' : option image * dict) (st st' : state) :
  body i s st = (Ok s', st') ->
  exists img,
    s' = (Some img, dict_set (snd s) (slide_field i "image1") (url i)).
Proof.
  rewrite image_slide_eq.
  destruct (generate_image cfg (slide_prompt (snd s) i) st) as [[img|e] st1].
  - intros H. apply publish_ok in H as [-> _]. exists img; reflexivity.
  - destruct (fallback_image cfg _) as [[img|e2] st2]; [|discriminate].
    intros H. apply publish_ok in H as [-> _]. exists img; reflexivity.
Qed.

Lemma image_loop_ok (l : list nat) (s s' : option image * dict)
    (st st' : state) :
  for_each l body s st = (Ok s', st') ->
  snd s' = record_images cfg cdn_url slug l (snd s).
Proof.
  revert s st; induction l as [|i l IH]; intros s st H.
  - injection H as <- _. reflexivity.
  - rewrite for_each_cons in H.
    destruct (body i s st) as [[s1|e] st1] eqn:E; [|discriminate].
    apply image_slide_ok in E as (img & ->).
    rewrite (IH _ _ H). reflexivity.
Qed.

(** An exception of an iteration leaves the loop. *)
Lemma image_loop_raise (l1 l2 : list nat) (i : nat)
    (s s1 : option image * dict) (st st1 st2 : state) (e : exn) :
  for_each l1 body s st = (Ok s1, st1) ->
  body i s1 st1 = (Raise e, st2) ->
  for_each (l1 ++ i :: l2) body s st = (Raise e, st2).
Proof.
  intros H1 H2. rewrite for_each_app. unfold bind. rewrite H1.
  rewrite for_each_cons, H2. reflexivity.
Qed.

Hypothesis fallback_ok : fallback_reliable cfg.
Hypothesis upload_ok : upload_reliable cfg.

Lemma publish_reliable (i : nat) (data : dict) (img : image) (st : state) :
  exists st' buf,
    publish cfg cdn_url slug i data img st
    = (Ok (Some img, dict_set data (slide_field i "image1") (url i)), st')
    /\ image_save_jpeg img = Ok buf
    /\ st_trace st'
       = st_trace st
         ++ [EvUploadFileobj buf (AWS_BUCKET cfg) (slide_key cfg slug i)].
Proof.
  destruct (upload_ok img (slide_key cfg slug i) st) as (st' & H).
  destruct (upload_jpeg_ok _ _ _ _ H) as (buf & Hbuf & _ & Htr).
  exists st', buf. unfold publish. rewrite H. auto.
Qed.

(** One iteration under reliable fallback and upload. *)
Lemma image_slide_reliable (i : nat) (s : option image * dict) (st : state) :
  exists img st',
    body i s st
    = (Ok (Some img, dict_set (snd s) (slide_field i "image1") (url i)), st')
    /\ (forall e st1,
          generate_image cfg (slide_prompt (snd s) i) st = (Raise e, st1) ->
          errors (st_trace st')
          = errors (st_trace st) ++ [slide_error error_prefix i e]
          /\ exists raw img0 w,
               get_raw_io (DEFAULT_ERROR_IMAGE cfg) (st_world st1)
               = (Ok raw, w)
               /\ image_open raw = Ok img0
               /\ normalize img0 = Ok img)
    /\ (forall img0 st1,
          generate_image cfg (slide_prompt (snd s) i) st = (Ok img0, st1) ->
          img = img0 /\ errors (st_trace st') = errors (st_trace st)).
Proof.
  rewrite image_slide_eq.
  destruct (generate_image_trace cfg (slide_prompt (snd s) i) st)
    as (evs & Htr & Herr & _).
  destruct (generate_image cfg (slide_prompt (snd s) i) st)
    as [[img|e] st1] eqn:E; cbn [snd] in Htr.
  - destruct (publish_reliable i (snd s) img st1) as (st' & buf & Hp & _ & Hup).
    exists img, st'. split; [exact Hp|]. split.
    + intros e st2 H; discriminate H.
    + intros img0 st2 H. injection H as <- <-. split; [reflexivity|].
      rewrite Hup, Htr, !errors_app, Herr. cbn. rewrite !app_nil_r.
      reflexivity.
  - destruct (fallback_ok (after_error (slide_error error_prefix i e) st1))
      as (img & st2 & Hfb).
    rewrite Hfb.
    destruct (fallback_image_ok _ _ Hfb) as (raw & img0 & Hraw & Hopen & Hnorm & Htr2).
    destruct (publish_reliable i (snd s) img st2) as (st' & buf & Hp & _ & Hup).
    exists img, st'. split; [exact Hp|]. split.
    + intros e' st1' H. injection H as <- <-. split.
      * rewrite Hup, Htr2. cbn [after_error st_trace]. rewrite Htr.
        rewrite !errors_app, Herr. cbn. rewrite !app_nil_r. reflexivity.
      * exists raw, img0, (st_world st2). auto.
    + intros img1 st1' H; discriminate H.
Qed.

(** The loop under reliable fallback and upload: it ends normally, whatever
    the image service does. *)
Lemma image_loop_reliable (l : list nat) (s : option image * dict)
    (st : state) :
  exists s' st',
    for_each l body s st = (Ok s', st')
    /\ snd s' = record_images cfg cdn_url slug l (snd s)
    /\ (l <> [] -> fst s' <> None).
Proof.
  revert s st; induction l as [|i l IH]; intros s st.
  - exists s, st. repeat split. intros H; contradiction.
  - destruct (image_slide_reliable i s st) as (img & st1 & Hb & _).
    destruct (IH (Some img, dict_set (snd s) (slide_field i "image1") (url i))
                 st1) as (s' & st' & Hl & Hs & Hn).
    exists s', st'. rewrite for_each_cons, Hb. split; [exact Hl|].
    split; [exact Hs|]. intros _.
    destruct l as [|j l]; [injection Hl as <- _; discriminate|].
    apply Hn. discriminate.
Qed.

End ImageLoop.

Section ImageFunctions.
Context {R : Runtime}.
Variable cfg : config.

(** [generate_images] of [src/app.py], by cases on its steps. *)
Lemma app_generate_images_eq (story : dict) (st : state) :
  App.generate_images cfg story st =
  let st1 := State (snd (s3_client_io (st_world st)))
                   (st_trace st ++ [EvS3Client]) in
  match fst (s3_client_io (st_world st)) with
  | Raise e => (Raise e, st1)
  | Ok _ =>
      match slug_app story with
      | Raise e => (Raise e, st1)
      | Ok slug =>
          match for_each (seq 1 6)
                  (image_slide cfg App.error_prefix (App.cdn_url cfg) slug)
                  (None, story) st1 with
          | (Ok s, st2) => (Ok (snd s), st2)
          | (Raise e, st2) => (Raise e, st2)
          end
      end
  end.
Proof.
  unfold App.generate_images, bind at 1, io.
  destruct (s3_client_io (st_world st)) as [[[]|e] w]; cbn [fst snd];
    [|reflexivity].
  unfold bind at 1, lift.
  destruct (slug_app story) as [slug|e]; [|reflexivity].
  unfold bind, ret.
  destruct (for_each _ _ _ _) as [[[img story']|e] st2]; reflexivity.
Qed.

Lemma single_generate_images_eq (data : dict) (st : state) :
  Single.generate_images_and_upload cfg data st =
  let st1 := State (snd (s3_client_io (st_world st)))
                   (st_trace st ++ [EvS3Client]) in
  match fst (s3_client_io (st_world st)) with
  | Raise e => (Raise e, st1)
  | Ok _ =>
      match slug_single data with
      | Raise e => (Raise e, st1)
      | Ok slug =>
          match for_each (seq 1 6)
                  (image_slide cfg Single.error_prefix (Single.cdn_url cfg)
                     slug)
                  (None, data) st1 with
          | (Ok s, st2) => cover cfg slug s st2
          | (Raise e, st2) => (Raise e, st2)
          end
      end
  end.
Proof.
  unfold Single.generate_images_and_upload, bind at 1, io.
  destruct (s3_client_io (st_world st)) as [[[]|e] w]; cbn [fst snd];
    [|reflexivity].
  unfold bind at 1, lift.
  destruct (slug_single data) as [slug|e]; [|reflexivity].
  unfold bind at 1.
  destruct (for_each _ _ _ _) as [[[img data']|e] st2]; [|reflexivity].
  unfold cover, cover_key. cbn [fst snd].
  destruct img as [img|]; [|reflexivity].
  unfold bind, ret.
  destruct (upload_jpeg cfg img _ st2) as [[[]|e] st3]; reflexivity.
Qed.

End ImageFunctions.

(* ------------------------------------------------------------------ *)
(** * The claims on the image pipeline *)
(* ------------------------------------------------------------------ *)

Lemma script_fallback_reliable (reply : text) (cfg : config) :
  fallback_reliable (R := Script.runtime reply) cfg.
Proof. intros st. eexists; eexists; reflexivity. Qed.

Lemma script_upload_reliable (reply : text) (fetch : text -> nat -> result text * nat)
    (cfg : config) :
  upload_reliable (R := Script.make reply fetch) cfg.
Proof. intros img key st. eexists; reflexivity. Qed.

Section ImageReliable.
Context {R : Runtime}.
Variable cfg : config.
Hypothesis fallback_ok : fallback_reliable cfg.
Hypothesis upload_ok : upload_reliable cfg.

Lemma app_generate_images_reliable (story : dict) (st : state)
    (title : text) (w : world) :
  dict_get story "storytitle" = Some (VStr title) ->
  s3_client_io (st_world st) = (Ok tt, w) ->
  exists story' st' slug,
    slug_app story = Ok slug
    /\ App.generate_images cfg story st = (Ok story', st')
    /\ forall i, 1 <= i <= 6 ->
         dict_get story' (slide_field i "image1")
         = Some (VStr (App.cdn_url cfg (slide_key cfg slug i))).
Proof.
  intros Htitle Hs3.
  pose proof (slug_app_ok story Htitle) as Hslug.
  set (st1 := State w (st_trace st ++ [EvS3Client])).
  destruct (image_loop_reliable App.error_prefix (App.cdn_url cfg)
              (map hyphenate (lower title)) fallback_ok upload_ok (seq 1 6)
              (None, story) st1) as (s' & st' & Hl & Hs & _).
  exists (snd s'), st', (map hyphenate (lower title)).
  split; [exact Hslug|]. split.
  - rewrite app_generate_images_eq, Hs3, Hslug. cbn [fst snd].
    fold st1. rewrite Hl. reflexivity.
  - intros i Hi. rewrite Hs. apply record_images_in.
    apply in_seq. lia.
Qed.

Lemma single_generate_images_reliable (data : dict) (st : state)
    (title : text) (w : world) :
  dict_get data "storytitle" = Some (VStr title) ->
  s3_client_io (st_world st) = (Ok tt, w) ->
  exists data' st' slug,
    slug_single data = Ok slug
    /\ Single.generate_images_and_upload cfg data st = (Ok data', st')
    /\ forall i, 1 <= i <= 6 ->
         dict_get data' (slide_field i "image1")
         = Some (VStr (Single.cdn_url cfg (slide_key cfg slug i))).
Proof.
  intros Htitle Hs3.
  pose proof (slug_single_ok data Htitle) as Hslug.
  set (slug := filter not_colon (map hyphenate (lower title))) in *.
  set (st1 := State w (st_trace st ++ [EvS3Client])).
  destruct (image_loop_reliable Single.error_prefix (Single.cdn_url cfg)
              slug fallback_ok upload_ok (seq 1 6) (None, data) st1)
    as (s' & st' & Hl & Hs & Hn).
  destruct s' as [[img|] data'];
    [|exfalso; apply Hn; [discriminate|reflexivity]].
  destruct (upload_ok img (cover_key cfg slug) st') as (st'' & Hcover).
  exists (dict_set data' "portraitcoverurl"
            (VStr (Single.cdn_url cfg (cover_key cfg slug)))), st'', slug.
  split; [exact Hslug|]. split.
  - rewrite single_generate_images_eq, Hs3, Hslug. cbn [fst snd].
    fold st1. rewrite Hl. unfold cover. cbn [fst snd]. rewrite Hcover.
    reflexivity.
  - intros i Hi. cbn [snd] in Hs. rewrite Hs.
    rewrite dict_get_set_other.
    + apply record_images_in. apply in_seq. lia.
    + unfold slide_field. intros E.
      apply (f_equal (@rev ascii)) in E. rewrite !rev_app_distr in E.
      discriminate E.
Qed.

End ImageReliable.

Lemma seq_split_at (i : nat) :
  1 <= i <= 6 -> seq 1 6 = seq 1 (i - 1) ++ i :: seq (S i) (6 - i).
Proof.
  intros H.
  assert (i = 1 \/ i = 2 \/ i = 3 \/ i = 4 \/ i = 5 \/ i = 6) as Hi by lia.
  destruct Hi as [->|[->|[->|[->|[->| ->]]]]]; reflexivity.
Qed.

Lemma for_each_resume {R : Runtime} {A S} (l1 l2 : list A) (x : A)
    (body : A -> S -> M S) (s0 s s' : S) (st0 st st' : state) :
  for_each l1 body s0 st0 = (Ok s, st) ->
  body x s st = (Ok s', st') ->
  for_each (l1 ++ x :: l2) body s0 st0 = for_each l2 body s' st'.
Proof.
  intros H1 H2. rewrite for_each_app. unfold bind. rewrite H1.
  rewrite for_each_cons, H2. reflexivity.
Qed.

(** The iteration whose [try] block raises, call by call. *)
Lemma image_slide_fallback {R : Runtime} (cfg : config)
    (error_prefix : text) (cdn_url : text -> text) (slug : text) (i : nat)
    (s : option image * dict) (st st1 st2 st3 : state) (e : exn)
    (img : image) :
  generate_image cfg (slide_prompt (snd s) i) st = (Raise e, st1) ->
  fallback_image cfg (after_error (slide_error error_prefix i e) st1)
  = (Ok img, st2) ->
  upload_jpeg cfg img (slide_key cfg slug i) st2 = (Ok tt, st3) ->
  image_slide cfg error_prefix cdn_url slug i s st
  = (Ok (Some img,
         dict_set (snd s) (slide_field i "image1")
           (VStr (cdn_url (slide_key cfg slug i)))), st3)
  /\ errors (st_trace st3)
     = errors (st_trace st) ++ [slide_error error_prefix i e]
  /\ exists raw img0 rgb,
       get_raw_io (DEFAULT_ERROR_IMAGE cfg) (st_world st1)
       = (Ok raw, st_world st2)
       /\ image_open raw = Ok img0
       /\ image_convert img0 "RGB" = Ok rgb
       /\ image_resize rgb 720 1200 = Ok img.
Proof.
  intros Hg Hf Hu. split; [|split].
  - rewrite image_slide_eq, Hg, Hf. unfold publish. rewrite Hu. reflexivity.
  - destruct (generate_image_trace cfg (slide_prompt (snd s) i) st)
      as (evs & Htr & Herr & _).
    rewrite Hg in Htr. cbn [snd] in Htr.
    pose proof Hf as Hf'. apply fallback_image_ok in Hf'
      as (_ & _ & _ & _ & _ & Htr2).
    pose proof Hu as Hu'. apply upload_jpeg_ok in Hu' as (buf & _ & _ & Htr3).
    rewrite Htr3, Htr2. cbn [after_error st_trace]. rewrite Htr.
    rewrite !errors_app, Herr. cbn. rewrite !app_nil_r. reflexivity.
  - pose proof Hf as Hf'. apply fallback_image_ok in Hf'
      as (raw & img0 & Hraw & Hopen & Hnorm & _).
    cbn [after_error st_world] in Hraw. unfold normalize in Hnorm.
    destruct (image_convert img0 "RGB") as [rgb|e'] eqn:Ec;
      [|discriminate Hnorm].
    exists raw, img0, rgb. auto.
Qed.

(** C3 (amended).  When the request, the download, the decoding or the
    normalisation of the generated image of slide [i] raises, and in that
    iteration the fallback image is fetched, decoded and normalised and its
    encoding is uploaded without an error, then the iteration ends
    normally: exactly one error message is shown, for slide [i], with the
    text of the exception; the image is the fallback image, converted to
    RGB and resized to 720 by 1200; [s{i}image1] is recorded.  The loop
    goes on with the slides that follow, and so do [generate_images] and
    [generate_images_and_upload]: their result is the result of the
    remaining iterations.  When the fallback and the upload never fail,
    every run returns a record with the six image fields. *)
Theorem image_failure_falls_back {R : Runtime} (cfg : config)
    (error_prefix : text) (cdn_url : text -> text) (slug : text) (i : nat) :
  let body := image_slide cfg error_prefix cdn_url slug in
  (* the iteration *)
  (forall s st e st1 img st2 st3,
     generate_image cfg (slide_prompt (snd s) i) st = (Raise e, st1) ->
     fallback_image cfg
       (State (st_world st1)
          (st_trace st1
           ++ [EvError (error_prefix ++ decimal i ++ ": " ++ exn_str e)]))
     = (Ok img, st2) ->
     upload_jpeg cfg img (slide_key cfg slug i) st2 = (Ok tt, st3) ->
     body i s st
     = (Ok (Some img,
            dict_set (snd s) (slide_field i "image1")
              (VStr (cdn_url (slide_key cfg slug i)))), st3)
     /\ errors (st_trace st3)
        = errors (st_trace st)
          ++ [error_prefix ++ decimal i ++ ": " ++ exn_str e]
     /\ (exists raw img0 rgb,
           get_raw_io (DEFAULT_ERROR_IMAGE cfg) (st_world st1)
           = (Ok raw, st_world st2)
           /\ image_open raw = Ok img0
           /\ image_convert img0 "RGB" = Ok rgb
           /\ image_resize rgb 720 1200 = Ok img)
     /\ dict_get
          (dict_set (snd s) (slide_field i "image1")
             (VStr (cdn_url (slide_key cfg slug i))))
          (slide_field i "image1")
        = Some (VStr (cdn_url (slide_key cfg slug i))))
  (* the loop goes on *)
  /\ (forall l1 l2 s0 st0 s st s' st',
        for_each l1 body s0 st0 = (Ok s, st) ->
        body i s st = (Ok s', st') ->
        for_each (l1 ++ i :: l2) body s0 st0 = for_each l2 body s' st')
  (* and so do the functions *)
  /\ (forall story st0 w s st s' st',
        1 <= i <= 6 ->
        error_prefix = App.error_prefix ->
        cdn_url = App.cdn_url cfg ->
        s3_client_io (st_world st0) = (Ok tt, w) ->
        slug_app story = Ok slug ->
        for_each (seq 1 (i - 1)) body (None, story)
          (State w (st_trace st0 ++ [EvS3Client]))
        = (Ok s, st) ->
        body i s st = (Ok s', st') ->
        App.generate_images cfg story st0
        = match for_each (seq (S i) (6 - i)) body s' st' with
          | (Ok r, st4) => (Ok (snd r), st4)
          | (Raise e4, st4) => (Raise e4, st4)
          end)
  /\ (forall data st0 w s st s' st',
        1 <= i <= 6 ->
        error_prefix = Single.error_prefix ->
        cdn_url = Single.cdn_url cfg ->
        s3_client_io (st_world st0) = (Ok tt, w) ->
        slug_single data = Ok slug ->
        for_each (seq 1 (i - 1)) body (None, data)
          (State w (st_trace st0 ++ [EvS3Client]))
        = (Ok s, st) ->
        body i s st = (Ok s', st') ->
        Single.generate_images_and_upload cfg data st0
        = match for_each (seq (S i) (6 - i)) body s' st' with
          | (Ok r, st4) => cover cfg slug r st4
          | (Raise e4, st4) => (Raise e4, st4)
          end)
  (* services that never fail *)
  /\ (fallback_reliable cfg ->
      upload_reliable cfg ->
      (forall s st,
         exists img st',
           body i s st
           = (Ok (Some img,
                  dict_set (snd s) (slide_field i "image1")
                    (VStr (cdn_url (slide_key cfg slug i)))), st'))
      /\ (forall l s st,
            exists s' st',
              for_each l body s st = (Ok s', st')
              /\ forall j, In j l ->
                   dict_get (snd s') (slide_field j "image1")
                   = Some (VStr (cdn_url (slide_key cfg slug j))))
      /\ (forall story title st w,
            dict_get story "storytitle" = Some (VStr title) ->
            s3_client_io (st_world st) = (Ok tt, w) ->
            exists story' st' slug',
              slug_app story = Ok slug'
              /\ App.generate_images cfg story st = (Ok story', st')
              /\ forall j, 1 <= j <= 6 ->
                   dict_get story' (slide_field j "image1")
                   = Some (VStr (App.cdn_url cfg (slide_key cfg slug' j))))
      /\ (forall data title st w,
            dict_get data "storytitle" = Some (VStr title) ->
            s3_client_io (st_world st) = (Ok tt, w) ->
            exists data' st' slug',
              slug_single data = Ok slug'
              /\ Single.generate_images_and_upload cfg data st
                 = (Ok data', st')
              /\ forall j, 1 <= j <= 6 ->
                   dict_get data' (slide_field j "image1")
                   = Some (VStr (Single.cdn_url cfg (slide_key cfg slug' j))))).
Proof.
  intros body. unfold body.
  split; [|split; [|split; [|split]]].
  - intros s st e st1 img st2 st3 Hg Hf Hu.
    destruct (@image_slide_fallback R cfg error_prefix cdn_url slug i s st st1
                st2 st3 e img Hg Hf Hu) as (Hrun & Herr & Hfb).
    split; [exact Hrun|]. split; [exact Herr|]. split; [exact Hfb|].
    apply dict_get_set_same.
  - intros l1 l2 s0 st0 s st s' st'. apply for_each_resume.
  - intros story st0 w s st s' st' Hi -> -> Hs3 Hslug Hpre Hbody.
    rewrite app_generate_images_eq, Hs3, Hslug. cbn [fst snd].
    rewrite (seq_split_at Hi).
    rewrite (@for_each_resume _ _ _ (seq 1 (i - 1)) (seq (S i) (6 - i)) i
               _ _ _ _ _ _ _ Hpre Hbody).
    reflexivity.
  - intros data st0 w s st s' st' Hi -> -> Hs3 Hslug Hpre Hbody.
    rewrite single_generate_images_eq, Hs3, Hslug. cbn [fst snd].
    rewrite (seq_split_at Hi).
    rewrite (@for_each_resume _ _ _ (seq 1 (i - 1)) (seq (S i) (6 - i)) i
               _ _ _ _ _ _ _ Hpre Hbody).
    reflexivity.
  - intros Hfb Hup. split; [|split; [|split]].
    + intros s st.
      destruct (image_slide_reliable error_prefix cdn_url slug Hfb Hup i s st)
        as (img & st' & Hrun & _).
      exists img, st'. exact Hrun.
    + intros l s st.
      destruct (image_loop_reliable error_prefix cdn_url slug Hfb Hup l s st)
        as (s' & st' & Hl & Hs & _).
      exists s', st'. split; [exact Hl|]. intros j Hj. rewrite Hs.
      apply record_images_in. exact Hj.
    + intros story title st w.
      apply app_generate_images_reliable; assumption.
    + intros data title st w.
      apply single_generate_images_reliable; assumption.
Qed.

(** An instance: the image service rejects the prompt of slide 3, in a
    runtime whose fallback image can be downloaded now and then only. *)
Lemma image_failure_falls_back_witness :
  let R :=
    Script.make []
      (fun u w =>
         match w with
         | 0 => (Ok u, w)
         | S _ => (Raise (Script.failure "503 Service Unavailable"), w)
         end) in
  exists img st3,
    image_slide (R := R) Script.cfg_app App.error_prefix
      (App.cdn_url Script.cfg_app) "how-plants-eat-sunlight" 3
      (None, Script.story_slide3_fails) (State (R := R) 0 [])
    = (Ok (Some img,
           dict_set Script.story_slide3_fails "s3image1"
             (VStr "https://media.suvichaar.org/media/how-plants-eat-sunlight/slide3.jpg")),
       st3)
    /\ errors (st_trace st3)
       = ["Image gen failed slide 3: 400 Bad Request"].
Proof.
  intros R.
  destruct (@image_failure_falls_back R Script.cfg_app App.error_prefix
              (App.cdn_url Script.cfg_app) "how-plants-eat-sunlight" 3)
    as (Hiter & _).
  destruct (fallback_image (R := R) Script.cfg_app
              (State (R := R) 0
                 ([EvPost "https://dalle" "key" (VStr "fail")]
                  ++ [EvError "Image gen failed slide 3: 400 Bad Request"])))
    as [rf st2] eqn:Hf.
  assert (exists img, rf = Ok img) as (img & ->).
  { apply (f_equal fst) in Hf. cbn [fst] in Hf. rewrite <- Hf.
    vm_compute. eexists. reflexivity. }
  destruct (upload_jpeg (R := R) Script.cfg_app img
              "media/how-plants-eat-sunlight/slide3.jpg" st2)
    as [ru st3] eqn:Hu.
  assert (ru = Ok tt) as ->.
  { apply (f_equal fst) in Hu. cbn [fst] in Hu. rewrite <- Hu.
    unfold upload_jpeg, bind, lift, io. cbn. reflexivity. }
  destruct (Hiter (None, Script.story_slide3_fails) (State (R := R) 0 [])
              (Script.failure "400 Bad Request")
              (State (R := R) 0 [EvPost "https://dalle" "key" (VStr "fail")])
              img st2 st3 eq_refl Hf Hu) as (Hrun & Herr & _).
  exists img, st3. split; [exact Hrun|exact Herr].
Defined.

(** C3 as stated fails: when the image service fails for a slide and the
    fallback image cannot be downloaded either, the iteration raises. *)
Lemma image_failure_counterexample :
  ~ (forall (R : Runtime) (cfg : config) (error_prefix : text)
            (cdn_url : text -> text) (slug : text) (i : nat)
            (s : option image * dict) (st : state) (e : exn) (st1 : state),
       1 <= i <= 6 ->
       generate_image cfg (slide_prompt (snd s) i) st = (Raise e, st1) ->
       exists s' st',
         image_slide cfg error_prefix cdn_url slug i s st = (Ok s', st')).
Proof.
  intros H.
  pose (R := Script.offline []).
  assert (fst (image_slide Script.cfg_app App.error_prefix
                 (App.cdn_url Script.cfg_app) "slug" 3
                 (None, Script.story_slide3_fails) (State (R := R) 0 []))
          = Raise (Script.failure "503 Service Unavailable")) as Hraise
    by (vm_compute; reflexivity).
  destruct (H R Script.cfg_app App.error_prefix (App.cdn_url Script.cfg_app)
              "slug" 3 (None, Script.story_slide3_fails)
              (State (R := R) 0 []) _ _ ltac:(lia) eq_refl)
    as (s' & st' & Hrun).
  rewrite Hrun in Hraise. discriminate Hraise.
Qed.

Section ImageTraces.
Context {R : Runtime}.
Variable cfg : config.

Lemma fallback_image_posts (st : state) :
  posts (st_trace (snd (fallback_image cfg st))) = posts (st_trace st).
Proof.
  unfold fallback_image, bind, io, lift.
  destruct (get_raw_io (DEFAULT_ERROR_IMAGE cfg) (st_world st)) as [[raw|e] w];
    [destruct (image_open raw) as [img|e]|];
    cbn [snd st_trace]; rewrite posts_app; cbn; apply app_nil_r.
Qed.

Lemma upload_jpeg_posts (img : image) (key : text) (st : state) :
  posts (st_trace (snd (upload_jpeg cfg img key st))) = posts (st_trace st).
Proof.
  unfold upload_jpeg, bind, io, lift.
  destruct (image_save_jpeg img) as [buf|e]; [|reflexivity].
  destruct (upload_fileobj_io buf (AWS_BUCKET cfg) key (st_world st))
    as [r w]; cbn [snd st_trace]. rewrite posts_app; cbn; apply app_nil_r.
Qed.

Lemma publish_posts (cdn_url : text -> text) (slug : text) (i : nat)
    (data : dict) (img : image) (st : state) :
  posts (st_trace (snd (publish cfg cdn_url slug i data img st)))
  = posts (st_trace st).
Proof.
  unfold publish. rewrite <- (upload_jpeg_posts img (slide_key cfg slug i) st).
  destruct (upload_jpeg cfg img (slide_key cfg slug i) st) as [[[]|e] st'];
    reflexivity.
Qed.

(** Each iteration sends one request to the image service, with the prompt
    of its slide. *)
Lemma image_slide_posts (error_prefix : text) (cdn_url : text -> text)
    (slug : text) (i : nat) (s : option image * dict) (st : state) :
  posts (st_trace (snd (image_slide cfg error_prefix cdn_url slug i s st)))
  = posts (st_trace st) ++ [slide_prompt (snd s) i].
Proof.
  rewrite image_slide_eq.
  destruct (generate_image_trace cfg (slide_prompt (snd s) i) st)
    as (evs & Htr & _ & Hposts).
  destruct (generate_image cfg (slide_prompt (snd s) i) st) as [[img|e] st1];
    cbn [snd] in Htr.
  - rewrite publish_posts, Htr, posts_app, Hposts. reflexivity.
  - pose proof (fallback_image_posts
                  (after_error (slide_error error_prefix i e) st1)) as Hfb.
    destruct (fallback_image cfg _) as [[img|e2] st2]; cbn [snd] in Hfb |- *.
    + rewrite publish_posts, Hfb. cbn [after_error st_trace].
      rewrite Htr, !posts_app, Hposts. cbn. rewrite app_nil_r. reflexivity.
    + rewrite Hfb. cbn [after_error st_trace].
      rewrite Htr, !posts_app, Hposts. cbn. rewrite app_nil_r. reflexivity.
Qed.

Lemma slide_prompt_set_image (d : dict) (j i : nat) (v : value) :
  slide_prompt (dict_set d (slide_field j "image1") v) i = slide_prompt d i.
Proof.
  unfold slide_prompt, dict_get_default.
  rewrite dict_get_set_other; [reflexivity|].
  intros E. exact (@alt_not_image i j (eq_sym E)).
Qed.

Lemma image_loop_posts (error_prefix : text) (cdn_url : text -> text)
    (slug : text) (l : list nat) (s s' : option image * dict)
    (st st' : state) :
  for_each l (image_slide cfg error_prefix cdn_url slug) s st = (Ok s', st') ->
  posts (st_trace st')
  = posts (st_trace st) ++ map (slide_prompt (snd s)) l.
Proof.
  revert s st; induction l as [|i l IH]; intros s st H.
  - injection H as _ <-. cbn. rewrite app_nil_r. reflexivity.
  - rewrite for_each_cons in H.
    pose proof (image_slide_posts error_prefix cdn_url slug i s st) as Hp.
    destruct (image_slide cfg error_prefix cdn_url slug i s st)
      as [[s1|e] st1] eqn:E; [|discriminate].
    cbn [snd] in Hp.
    pose proof E as Hs1. apply image_slide_ok in Hs1 as (img & ->).
    rewrite (IH _ _ H), Hp. cbn [snd map]. rewrite <- app_assoc. cbn [app].
    f_equal. f_equal. apply map_ext. intros j.
    apply slide_prompt_set_image.
Qed.

(** An iteration that ends normally has just uploaded the encoding of the
    image it leaves in [img]. *)
Lemma image_slide_uploads (error_prefix : text) (cdn_url : text -> text)
    (slug : text) (i : nat) (s : option image * dict) (st st' : state)
    (img : image) (data : dict) :
  image_slide cfg error_prefix cdn_url slug i s st = (Ok (Some img, data), st') ->
  exists buf tr,
    image_save_jpeg img = Ok buf
    /\ st_trace st'
       = tr ++ [EvUploadFileobj buf (AWS_BUCKET cfg) (slide_key cfg slug i)].
Proof.
  rewrite image_slide_eq.
  destruct (generate_image cfg (slide_prompt (snd s) i) st) as [[img1|e] st1].
  - intros H. apply publish_ok in H as [H Hup]. injection H as <- _.
    apply upload_jpeg_ok in Hup as (buf & Hbuf & _ & Htr).
    exists buf, (st_trace st1). auto.
  - destruct (fallback_image cfg _) as [[img1|e2] st2]; [|discriminate].
    intros H. apply publish_ok in H as [H Hup]. injection H as <- _.
    apply upload_jpeg_ok in Hup as (buf & Hbuf & _ & Htr).
    exists buf, (st_trace st2). auto.
Qed.

End ImageTraces.

(** C7.  In [src/app-single.py], a run of [generate_images_and_upload] that
    returns has, after the loop, encoded the image that the iteration for
    slide 6 left in [img] (the generated one or the fallback) a second
    time, uploaded it under [{prefix}/{slug}/portrait_cover.jpg], and
    recorded the CDN URL of that key in [portraitcoverurl].  The image
    service has been asked six times, with the prompts of the six slides:
    no cover image is generated.  With a title, an S3 client and reliable
    fallback and upload, the run does return. *)
Theorem portrait_cover_reuses_slide6 {R : Runtime} (cfg : config)
    (data : dict) (st : state) :
  (forall data' st',
     Single.generate_images_and_upload cfg data st = (Ok data', st') ->
     exists slug w s5 st5 img data6 st6 buf,
       slug_single data = Ok slug
       /\ s3_client_io (st_world st) = (Ok tt, w)
       /\ for_each (seq 1 5)
            (image_slide cfg Single.error_prefix (Single.cdn_url cfg) slug)
            (None, data) (State w (st_trace st ++ [EvS3Client]))
          = (Ok s5, st5)
       /\ image_slide cfg Single.error_prefix (Single.cdn_url cfg) slug 6
            s5 st5
          = (Ok (Some img, data6), st6)
       /\ image_save_jpeg img = Ok buf
       /\ (exists tr,
             st_trace st6
             = tr ++ [EvUploadFileobj buf (AWS_BUCKET cfg)
                        (slide_key cfg slug 6)])
       /\ st_trace st'
          = st_trace st6
            ++ [EvUploadFileobj buf (AWS_BUCKET cfg) (cover_key cfg slug)]
       /\ data'
          = dict_set data6 "portraitcoverurl"
              (VStr (CDN_BASE cfg ++ cover_key cfg slug))
       /\ posts (st_trace st')
          = posts (st_trace st) ++ map (slide_prompt data) (seq 1 6))
  /\ (fallback_reliable cfg -> upload_reliable cfg ->
      forall title w,
        dict_get data "storytitle" = Some (VStr title) ->
        s3_client_io (st_world st) = (Ok tt, w) ->
        exists data' st',
          Single.generate_images_and_upload cfg data st = (Ok data', st')).
Proof.
  split.
  - intros data' st'. rewrite single_generate_images_eq. cbn zeta.
    destruct (s3_client_io (st_world st)) as [[[]|e] w] eqn:Es3;
      cbn [fst snd]; [|discriminate].
    destruct (slug_single data) as [slug|e]; [|discriminate].
    set (body := image_slide cfg Single.error_prefix (Single.cdn_url cfg) slug).
    set (st1 := State w (st_trace st ++ [EvS3Client])).
    destruct (for_each (seq 1 6) body (None, data) st1)
      as [[s6|e] st6] eqn:Eloop; [|discriminate].
    pose proof Eloop as Hposts. apply image_loop_posts in Hposts.
    change (seq 1 6) with (seq 1 5 ++ [6]) in Eloop.
    rewrite for_each_app in Eloop. unfold bind in Eloop.
    destruct (for_each (seq 1 5) body (None, data) st1)
      as [[s5|e] st5] eqn:E5; [|discriminate].
    rewrite for_each_cons in Eloop.
    destruct (body 6 s5 st5) as [[s6'|e] st6'] eqn:E6; [|discriminate].
    cbn [for_each] in Eloop. injection Eloop as -> ->.
    pose proof E6 as Hs6. apply image_slide_ok in Hs6 as (img & ->).
    pose proof E6 as Hu6.
    apply image_slide_uploads in Hu6 as (buf & tr & Hbuf & Htr).
    unfold cover. cbn [fst snd].
    destruct (upload_jpeg cfg img (cover_key cfg slug) st6)
      as [[[]|e] st7] eqn:Ecover; [|discriminate].
    intros H. injection H as <- <-.
    pose proof Ecover as Hc. apply upload_jpeg_ok in Hc as (buf' & Hbuf' & _ & Htr').
    assert (buf' = buf) as -> by congruence.
    eexists slug, w, s5, st5, img, _, st6, buf.
    repeat split; try eassumption; try reflexivity.
    + exists tr. exact Htr.
    + rewrite Htr', posts_app, Hposts. subst st1. cbn [st_trace snd].
      rewrite posts_app. cbn. rewrite !app_nil_r. reflexivity.
  - intros Hfb Hup title w Htitle Hs3.
    destruct (single_generate_images_reliable Hfb Hup data st Htitle Hs3)
      as (data' & st' & _ & _ & Hrun & _).
    exists data', st'. exact Hrun.
Qed.

(** An instance, with the defaults of [src/app-single.py]. *)
Lemma portrait_cover_reuses_slide6_witness :
  let R := Script.runtime [] in
  exists data' st',
    Single.generate_images_and_upload Script.cfg_single Script.story
      (State (R := R) 0 [])
    = (Ok data', st')
    /\ dict_get data' "portraitcoverurl"
       = Some (VStr "https://media.suvichaar.org/media//how-plants-eat-sunlight/portrait_cover.jpg").
Proof.
  intros R.
  destruct (@portrait_cover_reuses_slide6 R Script.cfg_single Script.story
              (State (R := R) 0 [])) as (Hshape & Hruns).
  destruct (Hruns (@script_fallback_reliable [] Script.cfg_single)
              (@script_upload_reliable [] _ Script.cfg_single)
              "How Plants Eat Sunlight" 0 eq_refl eq_refl)
    as (data' & st' & Hrun).
  exists data', st'. split; [exact Hrun|].
  destruct (Hshape data' st' Hrun)
    as (slug & w & s5 & st5 & img & data6 & st6 & buf & Hslug & _ & _ & _ & _
        & _ & _ & -> & _).
  vm_compute in Hslug. injection Hslug as <-.
  apply dict_get_set_same.
Defined.

Section ImageFailures.
Context {R : Runtime}.
Variable cfg : config.

Lemma fallback_image_fetch_fails (st : state) (e : exn) (w : world) :
  get_raw_io (DEFAULT_ERROR_IMAGE cfg) (st_world st) = (Raise e, w) ->
  fallback_image cfg st
  = (Raise e, State w (st_trace st ++ [EvGetRaw (DEFAULT_ERROR_IMAGE cfg)])).
Proof.
  intros H. unfold fallback_image, bind, io. rewrite H. reflexivity.
Qed.

Lemma fallback_image_decode_fails (st : state) (raw : blob) (e : exn)
    (w : world) :
  get_raw_io (DEFAULT_ERROR_IMAGE cfg) (st_world st) = (Ok raw, w) ->
  (image_open raw = Raise e
   \/ exists img0, image_open raw = Ok img0 /\ normalize img0 = Raise e) ->
  fallback_image cfg st
  = (Raise e, State w (st_trace st ++ [EvGetRaw (DEFAULT_ERROR_IMAGE cfg)])).
Proof.
  intros H [Ho|(img0 & Ho & Hn)]; unfold fallback_image, bind, io, lift;
    rewrite H, Ho; [|rewrite Hn]; reflexivity.
Qed.

Lemma upload_jpeg_encode_fails (img : image) (key : text) (st : state)
    (e : exn) :
  image_save_jpeg img = Raise e ->
  upload_jpeg cfg img key st = (Raise e, st).
Proof.
  intros H. unfold upload_jpeg, bind, lift. rewrite H. reflexivity.
Qed.

Lemma upload_jpeg_upload_fails (img : image) (buf : blob) (key : text)
    (st : state) (e : exn) (w : world) :
  image_save_jpeg img = Ok buf ->
  upload_fileobj_io buf (AWS_BUCKET cfg) key (st_world st) = (Raise e, w) ->
  upload_jpeg cfg img key st
  = (Raise e,
     State w (st_trace st ++ [EvUploadFileobj buf (AWS_BUCKET cfg) key])).
Proof.
  intros Hb Hu. unfold upload_jpeg, bind, lift, io. rewrite Hb, Hu.
  reflexivity.
Qed.

End ImageFailures.

(** C10.  Nothing catches an exception of the [except] branch or of the
    upload step.  When the image service has failed and the fallback image
    cannot be fetched, decoded or normalised, or when the JPEG encoding or
    the upload of a slide's image fails, the iteration raises that
    exception, the loop stops there, and both [generate_images] and
    [generate_images_and_upload] raise it: the run is aborted. *)
Theorem image_errors_propagate {R : Runtime} (cfg : config)
    (error_prefix : text) (cdn_url : text -> text) (slug : text) (i : nat)
    (s : option image * dict) :
  let body := image_slide cfg error_prefix cdn_url slug in
  (* the fallback branch raises *)
  (forall st e st1 e2 st2,
     generate_image cfg (slide_prompt (snd s) i) st = (Raise e, st1) ->
     fallback_image cfg (after_error (slide_error error_prefix i e) st1)
     = (Raise e2, st2) ->
     body i s st = (Raise e2, st2))
  /\ (forall st e w,
        get_raw_io (DEFAULT_ERROR_IMAGE cfg) (st_world st) = (Raise e, w) ->
        fst (fallback_image cfg st) = Raise e)
  /\ (forall st raw w e,
        get_raw_io (DEFAULT_ERROR_IMAGE cfg) (st_world st) = (Ok raw, w) ->
        (image_open raw = Raise e
         \/ exists img0, image_open raw = Ok img0 /\ normalize img0 = Raise e) ->
        fst (fallback_image cfg st) = Raise e)
  (* encoding or upload raises, after generation or after the fallback *)
  /\ (forall st img st1 e3 st3,
        generate_image cfg (slide_prompt (snd s) i) st = (Ok img, st1) ->
        upload_jpeg cfg img (slide_key cfg slug i) st1 = (Raise e3, st3) ->
        body i s st = (Raise e3, st3))
  /\ (forall st e st1 img st2 e3 st3,
        generate_image cfg (slide_prompt (snd s) i) st = (Raise e, st1) ->
        fallback_image cfg (after_error (slide_error error_prefix i e) st1)
        = (Ok img, st2) ->
        upload_jpeg cfg img (slide_key cfg slug i) st2 = (Raise e3, st3) ->
        body i s st = (Raise e3, st3))
  /\ (forall img key st e,
        image_save_jpeg img = Raise e ->
        upload_jpeg cfg img key st = (Raise e, st))
  /\ (forall img buf key st e w,
        image_save_jpeg img = Ok buf ->
        upload_fileobj_io buf (AWS_BUCKET cfg) key (st_world st)
        = (Raise e, w) ->
        fst (upload_jpeg cfg img key st) = Raise e)
  (* the loop and the functions stop *)
  /\ (forall l1 l2 s0 st0 st1 e st2,
        for_each l1 body s0 st0 = (Ok s, st1) ->
        body i s st1 = (Raise e, st2) ->
        for_each (l1 ++ i :: l2) body s0 st0 = (Raise e, st2))
  /\ (forall story st w slug' e st2,
        s3_client_io (st_world st) = (Ok tt, w) ->
        slug_app story = Ok slug' ->
        for_each (seq 1 6)
          (image_slide cfg App.error_prefix (App.cdn_url cfg) slug')
          (None, story) (State w (st_trace st ++ [EvS3Client]))
        = (Raise e, st2) ->
        App.generate_images cfg story st = (Raise e, st2))
  /\ (forall data st w slug' e st2,
        s3_client_io (st_world st) = (Ok tt, w) ->
        slug_single data = Ok slug' ->
        for_each (seq 1 6)
          (image_slide cfg Single.error_prefix (Single.cdn_url cfg) slug')
          (None, data) (State w (st_trace st ++ [EvS3Client]))
        = (Raise e, st2) ->
        Single.generate_images_and_upload cfg data st = (Raise e, st2)).
Proof.
  intros body. unfold body.
  split; [|split; [|split; [|split; [|split; [|split; [|split; [|split;
    [|split]]]]]]]].
  - intros st e st1 e2 st2 Hg Hf. rewrite image_slide_eq, Hg, Hf. reflexivity.
  - intros st e w H. rewrite (fallback_image_fetch_fails cfg st H). reflexivity.
  - intros st raw w e H Hd.
    rewrite (fallback_image_decode_fails cfg st H Hd). reflexivity.
  - intros st img st1 e3 st3 Hg Hu. rewrite image_slide_eq, Hg.
    unfold publish. rewrite Hu. reflexivity.
  - intros st e st1 img st2 e3 st3 Hg Hf Hu. rewrite image_slide_eq, Hg, Hf.
    unfold publish. rewrite Hu. reflexivity.
  - intros img key st e. apply upload_jpeg_encode_fails.
  - intros img buf key st e w Hb Hu.
    rewrite (upload_jpeg_upload_fails cfg img key st Hb Hu). reflexivity.
  - intros l1 l2 s0 st0 st1 e st2. apply image_loop_raise.
  - intros story st w slug' e st2 Hs3 Hslug Hloop.
    rewrite app_generate_images_eq, Hs3, Hslug. cbn [fst snd].
    rewrite Hloop. reflexivity.
  - intros data st w slug' e st2 Hs3 Hslug Hloop.
    rewrite single_generate_images_eq, Hs3, Hslug. cbn [fst snd].
    rewrite Hloop. reflexivity.
Qed.

(** An instance: slide 3 fails and the fallback image is out of reach. *)
Lemma image_errors_propagate_witness :
  let R := Script.offline [] in
  fst (App.generate_images Script.cfg_app Script.story_slide3_fails
         (State (R := R) 0 []))
  = Raise (Script.failure "503 Service Unavailable").
Proof.
  intros R.
  destruct (@image_errors_propagate R Script.cfg_app App.error_prefix
              (App.cdn_url Script.cfg_app) "how-plants-eat-sunlight" 3
              (None, Script.story_slide3_fails))
    as (_ & _ & _ & _ & _ & _ & _ & _ & Happ & _).
  assert (fst (for_each (seq 1 6)
                 (image_slide Script.cfg_app App.error_prefix
                    (App.cdn_url Script.cfg_app) "how-plants-eat-sunlight")
                 (None, Script.story_slide3_fails)
                 (State (R := R) 0 ([] ++ [EvS3Client])))
          = Raise (Script.failure "503 Service Unavailable")) as Hfst
    by (vm_compute; reflexivity).
  destruct (for_each (seq 1 6)
              (image_slide Script.cfg_app App.error_prefix
                 (App.cdn_url Script.cfg_app) "how-plants-eat-sunlight")
              (None, Script.story_slide3_fails)
              (State (R := R) 0 ([] ++ [EvS3Client])))
    as [r st2] eqn:Hloop.
  cbn [fst] in Hfst. subst r.
  rewrite (Happ Script.story_slide3_fails (State (R := R) 0 []) 0 _ _ st2
             eq_refl eq_refl Hloop).
  reflexivity.
Defined.

(* ------------------------------------------------------------------ *)
(** * The narration loop *)
(* ------------------------------------------------------------------ *)

Section Narration.
Context {R : Runtime}.
Variable cfg : config.
Variable cdn_url : text -> text.

Local Abbreviation step := (audio_step cfg cdn_url).

(** One iteration, by cases. *)
Lemma audio_step_ok (f a : text) (story urls story' urls' : dict)
    (st st' : state) :
  step (f, a) (story, urls) st = (Ok (story', urls'), st') ->
  (truthy (dict_get_none story f) = false
   /\ story' = story /\ urls' = urls /\ st' = st)
  \/ (truthy (dict_get_none story f) = true
      /\ exists fn,
           story' = dict_set story a (VStr (audio_url cfg cdn_url fn))
           /\ st_trace st'
              = st_trace st
                ++ [EvUuid; EvSynthesize (dict_get_none story f) fn;
                    EvUploadFile fn (AWS_BUCKET cfg)
                      (S3_PREFIX cfg ++ "/audio/" ++ fn)]).
Proof.
  unfold audio_step.
  destruct (truthy (dict_get_none story f)) eqn:Et; cbn [negb].
  - unfold bind at 1, io.
    destruct (uuid4_hex_io (st_world st)) as [hex w1].
    unfold bind at 1. cbn [st_world st_trace].
    destruct (synthesize_io (dict_get_none story f) (hex ++ ".mp3") w1)
      as [[[]|e] w2]; [|discriminate].
    unfold bind, ret. cbn [st_world st_trace].
    destruct (upload_file_io (hex ++ ".mp3") (AWS_BUCKET cfg)
                (S3_PREFIX cfg ++ "/audio/" ++ hex ++ ".mp3") w2)
      as [[[]|e] w3]; [|discriminate].
    intros H. injection H as <- <- <-. right. split; [reflexivity|].
    exists (hex ++ ".mp3"). split; [reflexivity|].
    cbn [st_trace]. rewrite <- !app_assoc. reflexivity.
  - unfold ret. intros H. injection H as <- <- <-. left. auto.
Qed.

Lemma audio_step_reliable (f a : text) (story urls : dict) (st : state) :
  narration_reliable ->
  exists s' st', step (f, a) (story, urls) st = (Ok s', st').
Proof.
  intros (_ & _ & Hsyn & Hup). unfold audio_step.
  destruct (truthy (dict_get_none story f)); cbn [negb].
  - unfold bind at 1, io.
    destruct (uuid4_hex_io (st_world st)) as [hex w1].
    unfold bind at 1. cbn [st_world st_trace].
    destruct (Hsyn (dict_get_none story f) (hex ++ ".mp3") w1) as (w2 & ->).
    unfold bind, ret. cbn [st_world st_trace].
    destruct (Hup (hex ++ ".mp3") (AWS_BUCKET cfg)
                (S3_PREFIX cfg ++ "/audio/" ++ hex ++ ".mp3") w2) as (w3 & ->).
    eexists; eexists; reflexivity.
  - eexists; eexists; reflexivity.
Qed.

Lemma audio_loop_reliable (l : list (text * text)) (s : dict * dict)
    (st : state) :
  narration_reliable ->
  exists s' st', for_each l step s st = (Ok s', st').
Proof.
  intros H. revert s st; induction l as [|[f a] l IH]; intros [story urls] st.
  - eexists; eexists; reflexivity.
  - destruct (audio_step_reliable f a story urls st H) as (s1 & st1 & E).
    destruct (IH s1 st1) as (s' & st' & E').
    exists s', st'. rewrite for_each_cons, E. exact E'.
Qed.

Lemma synth_events_app (a b : list event) :
  synth_events (a ++ b) = synth_events a ++ synth_events b.
Proof. apply flat_map_app. Qed.

Lemma narrated_ext (s1 s2 : dict) (l : list (text * text)) :
  (forall f, In f (map fst l) -> dict_get s1 f = dict_get s2 f) ->
  narrated s1 l = narrated s2 l.
Proof.
  intros H. unfold narrated. apply filter_ext_in. intros [f a] Hin.
  unfold speakable, dict_get_none, dict_get_default. cbn [fst].
  rewrite H; [reflexivity|]. apply in_map_iff. exists (f, a). auto.
Qed.

Lemma narrated_cons (story : dict) (f a : text) (l : list (text * text)) :
  narrated story ((f, a) :: l)
  = if truthy (dict_get_none story f)
    then (f, a) :: narrated story l
    else narrated story l.
Proof. reflexivity. Qed.

Lemma sources_apart_tail (fa : text * text) (l : list (text * text)) :
  sources_apart (fa :: l) -> sources_apart l.
Proof.
  intros H f a Hf Ha. apply H; right; assumption.
Qed.

(** The loop, when it ends normally: the entries with a speakable source
    are narrated in the order of the mapping, each into a file of its own,
    and the record receives exactly their assignments. *)
Lemma audio_loop_ok (l : list (text * text)) :
  sources_apart l ->
  forall (story urls story' urls' : dict) (st st' : state),
  for_each l step (story, urls) st = (Ok (story', urls'), st') ->
  exists fns,
    length fns = length (narrated story l)
    /\ story' = record_audio cfg cdn_url (combine (narrated story l) fns) story
    /\ synth_events (st_trace st')
       = synth_events (st_trace st)
         ++ combine (map (fun fa => dict_get_none story (fst fa))
                       (narrated story l)) fns.
Proof.
  induction l as [|[f a] l IH]; intros Hapart story urls story' urls' st st' H.
  - injection H as <- _ <-. exists []. cbn. rewrite app_nil_r. auto.
  - rewrite for_each_cons in H.
    destruct (step (f, a) (story, urls) st) as [[[story1 urls1]|e] st1] eqn:E;
      [|discriminate].
    apply audio_step_ok in E.
    specialize (IH (sources_apart_tail Hapart) _ _ _ _ _ _ H).
    destruct IH as (fns & Hlen & Hstory & Hev).
    destruct E as [(Et & -> & -> & ->)|(Et & fn & -> & Htr)].
    + exists fns. rewrite narrated_cons, Et. auto.
    + assert (narrated (dict_set story a (VStr (audio_url cfg cdn_url fn))) l
              = narrated story l) as Hnar.
      { apply narrated_ext. intros f' Hf'. apply dict_get_set_other.
        intros E. apply (Hapart f' a);
          [right; exact Hf'|left; reflexivity|symmetry; exact E]. }
      rewrite Hnar in *.
      exists (fn :: fns). rewrite narrated_cons, Et.
      cbn [length combine map]. split; [congruence|]. split.
      * rewrite Hstory. reflexivity.
      * assert (map (fun fa : text * text =>
                       dict_get_none
                         (dict_set story a (VStr (audio_url cfg cdn_url fn)))
                         (fst fa)) (narrated story l)
                = map (fun fa => dict_get_none story (fst fa))
                    (narrated story l)) as Hmap.
        { apply map_ext_in. intros [f' a'] Hin.
          unfold narrated in Hin. apply filter_In in Hin as [Hin _].
          cbn [fst]. unfold dict_get_none, dict_get_default.
          rewrite dict_get_set_other; [reflexivity|].
          intros E. apply (Hapart f' a);
            [|left; reflexivity|symmetry; exact E].
          right. apply in_map_iff. exists (f', a'). auto. }
        rewrite Hev, Hmap, Htr, synth_events_app. cbn.
        rewrite <- app_assoc. reflexivity.
Qed.

Lemma record_audio_other (ws : list ((text * text) * text)) (story : dict)
    (k : text) :
  ~ In k (map (fun w => snd (fst w)) ws) ->
  dict_get (record_audio cfg cdn_url ws story) k = dict_get story k.
Proof.
  revert story; induction ws as [|w ws IH]; intros story H; [reflexivity|].
  unfold record_audio in *. cbn [fold_left].
  rewrite IH by (intros Hin; apply H; right; exact Hin).
  apply dict_get_set_other. intros E. apply H. left. exact E.
Qed.

Lemma record_audio_in (ws : list ((text * text) * text)) (story : dict)
    (f a fn : text) :
  NoDup (map (fun w => snd (fst w)) ws) ->
  In ((f, a), fn) ws ->
  dict_get (record_audio cfg cdn_url ws story) a
  = Some (VStr (audio_url cfg cdn_url fn)).
Proof.
  revert story; induction ws as [|w ws IH]; intros story Hnd Hin;
    [contradiction|].
  cbn [map] in Hnd. apply NoDup_cons_iff in Hnd as [Hnotin Hnd].
  change (record_audio cfg cdn_url (w :: ws) story)
    with (record_audio cfg cdn_url ws
            (dict_set story (snd (fst w))
               (VStr (audio_url cfg cdn_url (snd w))))).
  destruct Hin as [->|Hin].
  - cbn [fst snd] in *.
    rewrite record_audio_other by exact Hnotin. apply dict_get_set_same.
  - apply IH; assumption.
Qed.

End Narration.

Lemma map_fst_combine {A B} (l : list A) (l' : list B) :
  length l' = length l -> map fst (combine l l') = l.
Proof.
  revert l'; induction l as [|x l IH]; intros [|y l'] H; try discriminate H;
    [reflexivity|].
  cbn. f_equal. apply IH. injection H as H. exact H.
Qed.

Lemma in_combine_exists {A B} (l : list A) (l' : list B) (x : A) :
  length l' = length l -> In x l -> exists y, In (x, y) (combine l l').
Proof.
  revert l'; induction l as [|x0 l IH]; intros [|y l'] H Hin;
    try discriminate H; try contradiction.
  injection H as H. destruct Hin as [->|Hin].
  - exists y. left; reflexivity.
  - destruct (IH l' H Hin) as (y' & Hy). exists y'. right; exact Hy.
Qed.

Lemma in_combine_map {A B C} (h : A -> C) (l : list A) (l' : list B)
    (x : A) (y : B) :
  In (x, y) (combine l l') -> In (h x, y) (combine (map h l) l').
Proof.
  revert l'; induction l as [|x0 l IH]; intros [|y0 l'] H; try contradiction.
  destruct H as [H|H].
  - injection H as -> ->. left; reflexivity.
  - right. apply IH. exact H.
Qed.

Lemma NoDup_map_filter {A B} (g : A -> B) (p : A -> bool) (l : list A) :
  NoDup (map g l) -> NoDup (map g (filter p l)).
Proof.
  induction l as [|x l IH]; intros H; [constructor|].
  cbn [map] in H. apply NoDup_cons_iff in H as [Hx Hl].
  cbn [filter]. destruct (p x); [|auto].
  cbn [map]. constructor; [|auto].
  intros Hin. apply Hx. apply in_map_iff in Hin as (y & Hy & Hin).
  apply filter_In in Hin as [Hin _]. apply in_map_iff. exists y. auto.
Qed.

Lemma NoDup_snd_inj {A B} (l : list (A * B)) (x x' : A) (y : B) :
  NoDup (map snd l) -> In (x, y) l -> In (x', y) l -> x = x'.
Proof.
  induction l as [|[x0 y0] l IH]; intros Hnd H1 H2; [contradiction|].
  cbn [map snd] in Hnd. apply NoDup_cons_iff in Hnd as [Hy Hnd].
  destruct H1 as [H1|H1], H2 as [H2|H2].
  - congruence.
  - injection H1 as -> ->. exfalso. apply Hy. apply in_map_iff.
    exists (x', y). auto.
  - injection H2 as -> ->. exfalso. apply Hy. apply in_map_iff.
    exists (x, y). auto.
  - auto.
Qed.

Lemma audio_keys_nodup : NoDup audio_keys.
Proof.
  unfold audio_keys. cbn.
  repeat (constructor; [cbn; intuition discriminate|]). constructor.
Qed.

Lemma audio_fields_apart : sources_apart audio_fields.
Proof.
  intros f a Hf Ha E. subst a. cbn in Hf, Ha.
  repeat (destruct Hf as [<-|Hf]; [intuition discriminate|]). exact Hf.
Qed.

Lemma truthy_str (s : text) : truthy (VStr s) = true <-> s <> [].
Proof.
  cbn. rewrite negb_true_iff. apply text_eqb_neq.
Qed.

Section NarrationRun.
Context {R : Runtime}.
Variable cfg : config.
Variable cdn_url : text -> text.

Lemma audio_setup_ok (st st1 : state) :
  audio_setup cfg st = (Ok tt, st1) ->
  synth_events (st_trace st1) = synth_events (st_trace st).
Proof.
  unfold audio_setup, bind, io.
  destruct (s3_client_io (st_world st)) as [[[]|e] w]; [|discriminate].
  cbn [st_world st_trace].
  destruct (speech_config_io (VOICE_NAME cfg) w) as [[[]|e] w'];
    [|discriminate].
  intros H. injection H as <-. cbn [st_trace].
  rewrite !synth_events_app. cbn. rewrite !app_nil_r. reflexivity.
Qed.

Lemma audio_setup_reliable (st : state) :
  narration_reliable -> exists st1, audio_setup cfg st = (Ok tt, st1).
Proof.
  intros (Hs3 & Hsp & _). unfold audio_setup, bind, io.
  destruct (Hs3 (st_world st)) as (w & ->). cbn [st_world st_trace].
  destruct (Hsp (VOICE_NAME cfg) w) as (w' & ->).
  eexists; reflexivity.
Qed.

(** From the exact result of the loop to the facts on single fields. *)
Lemma narration_outcome_intro (story story' : dict) (st st' : state)
    (fns : list text) :
  length fns = length (narrated story audio_fields) ->
  story' = record_audio cfg cdn_url
             (combine (narrated story audio_fields) fns) story ->
  synth_events (st_trace st')
  = synth_events (st_trace st)
    ++ combine (map (fun fa => dict_get_none story (fst fa))
                  (narrated story audio_fields)) fns ->
  narration_outcome cfg cdn_url story st story' st'.
Proof.
  intros Hlen Hstory Hev.
  set (nar := narrated story audio_fields) in *.
  assert (map (fun w : text * text * text => snd (fst w)) (combine nar fns)
          = map snd nar) as Hkeys.
  { rewrite <- (map_map fst snd). rewrite map_fst_combine by exact Hlen.
    reflexivity. }
  assert (NoDup (map snd nar)) as Hnd
    by (apply NoDup_map_filter; exact audio_keys_nodup).
  assert (forall f a, In (f, a) audio_fields ->
            truthy (dict_get_none story f) = true ->
            exists fn,
              dict_get story' a = Some (VStr (audio_url cfg cdn_url fn))
              /\ In (dict_get_none story f, fn) (synth_events (st_trace st')))
    as Hwritten.
  { intros f a Hin Ht.
    assert (In (f, a) nar) as Hnar
      by (apply filter_In; split; [exact Hin|exact Ht]).
    destruct (in_combine_exists nar fns (f, a) Hlen Hnar) as (fn & Hfn).
    exists fn. split.
    - rewrite Hstory. apply record_audio_in with (f := f); [|exact Hfn].
      rewrite Hkeys. exact Hnd.
    - rewrite Hev. apply in_or_app. right.
      apply (in_combine_map (fun fa => dict_get_none story (fst fa))) in Hfn.
      exact Hfn. }
  assert (forall f a, In (f, a) audio_fields ->
            truthy (dict_get_none story f) = false ->
            dict_get story' a = dict_get story a) as Hskipped.
  { intros f a Hin Ht. rewrite Hstory. apply record_audio_other.
    rewrite Hkeys. intros Ha. apply in_map_iff in Ha as ([f' a'] & E & Hf').
    cbn [snd] in E. subst a'. apply filter_In in Hf' as [Hf' Ht'].
    unfold speakable in Ht'. cbn [fst] in Ht'.
    assert (f = f') by (eapply NoDup_snd_inj;
                        [exact audio_keys_nodup|exact Hin|exact Hf']).
    congruence. }
  split; [exact Hwritten|]. split; [exact Hskipped|]. split; [|split; [|split]].
  - intros k Hk. rewrite Hstory. apply record_audio_other.
    rewrite Hkeys. intros Hin. apply Hk. unfold audio_keys.
    apply in_map_iff in Hin as (fa & E & Hfa). apply filter_In in Hfa as [Hfa _].
    apply in_map_iff. exists fa. auto.
  - intros Hfresh f a Hin. split.
    + intros Hset. destruct (truthy (dict_get_none story f)) eqn:Et;
        [reflexivity|].
      exfalso. apply Hset. rewrite (Hskipped f a Hin Et). apply Hfresh.
      unfold audio_keys. apply in_map_iff. exists (f, a). auto.
    + intros Ht. destruct (Hwritten f a Hin Ht) as (fn & -> & _). discriminate.
  - exists fns. auto.
  - intros Hall. unfold nar, narrated. apply forallb_filter_id.
    apply forallb_forall. intros [f a] Hin. unfold speakable. cbn [fst].
    apply Hall. apply in_map_iff. exists (f, a). auto.
Qed.

Lemma narration_loop_outcome (story urls story' urls' : dict)
    (st0 st st' : state) :
  synth_events (st_trace st) = synth_events (st_trace st0) ->
  for_each audio_fields (audio_step cfg cdn_url) (story, urls) st
  = (Ok (story', urls'), st') ->
  narration_outcome cfg cdn_url story st0 story' st'.
Proof.
  intros Hst H.
  apply (audio_loop_ok cfg cdn_url audio_fields_apart) in H
    as (fns & Hlen & Hstory & Hev).
  rewrite Hst in Hev. eapply narration_outcome_intro; eassumption.
Qed.

End NarrationRun.

Section NarrationFunctions.
Context {R : Runtime}.
Variable cfg : config.

Lemma app_synthesize_audio_outcome (story story' urls : dict)
    (st st' : state) :
  App.synthesize_audio cfg story st = (Ok (story', urls), st') ->
  narration_outcome cfg (App.cdn_url cfg) story st story' st'.
Proof.
  unfold App.synthesize_audio, bind.
  destruct (audio_setup cfg st) as [[[]|e] st1] eqn:Es; [|discriminate].
  apply audio_setup_ok in Es. intros H.
  eapply narration_loop_outcome; eassumption.
Qed.

Lemma single_synthesize_audio_outcome (data data' : dict) (st st' : state) :
  Single.synthesize_and_upload_audio cfg data st = (Ok data', st') ->
  narration_outcome cfg (Single.cdn_url cfg) data st data' st'.
Proof.
  unfold Single.synthesize_and_upload_audio, bind at 1.
  destruct (audio_setup cfg st) as [[[]|e] st1] eqn:Es; [|discriminate].
  apply audio_setup_ok in Es. unfold bind, ret.
  destruct (for_each audio_fields (audio_step cfg (Single.cdn_url cfg))
              (data, []) st1) as [[[d u]|e] st2] eqn:El; [|discriminate].
  intros H. injection H as <- <-.
  eapply narration_loop_outcome; eassumption.
Qed.

Lemma synthesize_audio_reliable (story : dict) (st : state) :
  narration_reliable ->
  (exists r st', App.synthesize_audio cfg story st = (Ok r, st'))
  /\ (exists r st',
        Single.synthesize_and_upload_audio cfg story st = (Ok r, st')).
Proof.
  intros H. destruct (audio_setup_reliable cfg st H) as (st1 & Hs). split.
  - destruct (audio_loop_reliable cfg (App.cdn_url cfg) audio_fields
                (story, []) st1 H) as (s' & st' & Hl).
    exists s', st'. unfold App.synthesize_audio, bind. rewrite Hs. exact Hl.
  - destruct (audio_loop_reliable cfg (Single.cdn_url cfg) audio_fields
                (story, []) st1 H) as ([d u] & st' & Hl).
    exists d, st'. unfold Single.synthesize_and_upload_audio, bind.
    rewrite Hs, Hl. reflexivity.
Qed.

End NarrationFunctions.

(** C4.  The narration loop runs over the fixed mapping from [storytitle]
    and the five paragraphs to [s1audio1] .. [s6audio1], in that order.  In
    a run that ends normally an entry is synthesized and its audio field
    written when its source is present and not empty, and skipped, with no
    field written, otherwise; no other field is touched; a fully populated
    record gets the six audio fields.  When the speech and storage services
    do not fail, the run ends normally. *)
Theorem narration_follows_mapping {R : Runtime} (cfg : config) :
  audio_fields
  = [("storytitle", "s1audio1"); ("s2paragraph1", "s2audio1");
     ("s3paragraph1", "s3audio1"); ("s4paragraph1", "s4audio1");
     ("s5paragraph1", "s5audio1"); ("s6paragraph1", "s6audio1")]
  /\ (forall story st story' urls st',
        App.synthesize_audio cfg story st = (Ok (story', urls), st') ->
        narration_outcome cfg (App.cdn_url cfg) story st story' st')
  /\ (forall data st data' st',
        Single.synthesize_and_upload_audio cfg data st = (Ok data', st') ->
        narration_outcome cfg (Single.cdn_url cfg) data st data' st')
  /\ (narration_reliable ->
      forall story st,
        (exists r st', App.synthesize_audio cfg story st = (Ok r, st'))
        /\ (exists r st',
              Single.synthesize_and_upload_audio cfg story st = (Ok r, st')))
  /\ (forall story f,
        (dict_get story f = None -> truthy (dict_get_none story f) = false)
        /\ (forall s, dict_get story f = Some (VStr s) ->
              (truthy (dict_get_none story f) = true <-> s <> []))).
Proof.
  split; [reflexivity|]. split; [|split; [|split]].
  - intros story st story' urls st'. apply app_synthesize_audio_outcome.
  - intros data st data' st'. apply single_synthesize_audio_outcome.
  - intros H story st. apply synthesize_audio_reliable. exact H.
  - intros story f. unfold dict_get_none, dict_get_default. split.
    + intros ->. reflexivity.
    + intros s ->. apply truthy_str.
Qed.

Lemma script_narration_reliable (reply : text) :
  narration_reliable (R := Script.runtime reply).
Proof.
  repeat split; intros; eexists; reflexivity.
Qed.

(** An instance: the fourth paragraph is empty. *)
Lemma narration_follows_mapping_witness :
  let R := Script.runtime [] in
  exists story' urls st',
    App.synthesize_audio Script.cfg_app Script.story_slide4_empty
      (State (R := R) 0 [])
    = (Ok (story', urls), st')
    /\ dict_get story' "s4audio1" = None
    /\ dict_get story' "s5audio1" <> None.
Proof.
  intros R.
  destruct (@narration_follows_mapping R Script.cfg_app)
    as (_ & Happ & _ & Hruns & _).
  destruct (Hruns (script_narration_reliable []) Script.story_slide4_empty
              (State (R := R) 0 [])) as (([story' urls] & st' & Hrun) & _).
  exists story', urls, st'. split; [exact Hrun|].
  destruct (Happ _ _ _ _ _ Hrun) as (_ & Hskip & _ & Hiff & _).
  split.
  - rewrite (Hskip "s4paragraph1" "s4audio1");
      [reflexivity|cbn; tauto|reflexivity].
  - apply (Hiff ltac:(intros k Hk; cbn in Hk;
                      repeat (destruct Hk as [<-|Hk]; [reflexivity|]);
                      contradiction)
             "s5paragraph1" "s5audio1"); [cbn; tauto|reflexivity].
Defined.

(* ------------------------------------------------------------------ *)
(** * Stages only add fields *)
(* ------------------------------------------------------------------ *)

Lemma text_eq_dec (a b : text) : {a = b} + {a <> b}.
Proof. apply list_eq_dec. apply ascii_dec. Defined.

Lemma dict_update_cons (story : dict) (k : text) (v : value) (d : dict) :
  dict_update story ((k, v) :: d) = dict_update (dict_set story k v) d.
Proof. reflexivity. Qed.

Lemma dict_update_other (story d : dict) (k : text) :
  ~ In k (keys d) -> dict_get (dict_update story d) k = dict_get story k.
Proof.
  revert story; induction d as [|[k1 v1] d IH]; intros story H; [reflexivity|].
  rewrite dict_update_cons, IH by (intros Hin; apply H; right; exact Hin).
  apply dict_get_set_other. intros E. apply H. left. exact E.
Qed.

Lemma dict_update_source (story d : dict) (k : text) (v : value) :
  dict_get (dict_update story d) k = Some v ->
  dict_get story k = Some v \/ In (k, v) d.
Proof.
  revert story; induction d as [|[k1 v1] d IH]; intros story H; [left; exact H|].
  rewrite dict_update_cons in H. apply IH in H as [H|H]; [|right; right; exact H].
  rewrite dict_get_set in H. destruct (text_eqb k1 k) eqn:E.
  - apply text_eqb_eq in E. subst k1. injection H as ->. right; left; reflexivity.
  - left; exact H.
Qed.

Lemma seo_merge_adds (story d : dict) :
  fresh (keys d) story ->
  all_str d = true ->
  extends story (dict_update story d) /\ adds_str story (dict_update story d).
Proof.
  intros Hfresh Hstr. split.
  - intros k v Hk. rewrite dict_update_other; [exact Hk|].
    intros Hin. rewrite (Hfresh k Hin) in Hk. discriminate.
  - intros k v Hnone Hget. apply dict_update_source in Hget as [Hget|Hin];
      [congruence|].
    unfold all_str in Hstr. rewrite forallb_forall in Hstr.
    exact (Hstr (k, v) Hin).
Qed.

Section Frames.
Context {R : Runtime}.
Variable cfg : config.

Lemma record_images_adds (cdn_url : text -> text) (slug : text) (story : dict) :
  fresh image_keys story ->
  extends story (record_images cfg cdn_url slug (seq 1 6) story)
  /\ adds_str story (record_images cfg cdn_url slug (seq 1 6) story).
Proof.
  intros Hfresh.
  assert (forall k, ~ In k image_keys ->
            forall i, In i (seq 1 6) -> k <> slide_field i "image1") as Hout.
  { intros k Hk i Hi ->. apply Hk. unfold image_keys.
    apply in_map_iff. exists i. auto. }
  split.
  - intros k v Hk. rewrite record_images_other; [exact Hk|].
    apply Hout. intros Hin. rewrite (Hfresh k Hin) in Hk. discriminate.
  - intros k v Hnone Hget.
    destruct (in_dec text_eq_dec k image_keys) as [Hin|Hnin].
    + unfold image_keys in Hin. apply in_map_iff in Hin as (i & <- & Hi).
      rewrite record_images_in in Hget by exact Hi. injection Hget as <-.
      reflexivity.
    + rewrite record_images_other in Hget by (apply Hout; exact Hnin).
      congruence.
Qed.

End Frames.

Section Stages.
Context {R : Runtime}.
Variable cfg : config.

Lemma app_generate_images_adds (story story' : dict) (st st' : state) :
  App.generate_images cfg story st = (Ok story', st') ->
  fresh image_keys story ->
  extends story story' /\ adds_str story story'.
Proof.
  rewrite app_generate_images_eq. cbn zeta.
  destruct (fst (s3_client_io (st_world st))) as [[]|e]; [|discriminate].
  destruct (slug_app story) as [slug|e]; [|discriminate].
  destruct (for_each _ _ _ _) as [[s|e] st2] eqn:El; [|discriminate].
  intros H Hfresh. injection H as <- <-.
  apply image_loop_ok in El. rewrite El. cbn [snd].
  apply record_images_adds. exact Hfresh.
Qed.

Lemma single_generate_images_adds (data data' : dict) (st st' : state) :
  Single.generate_images_and_upload cfg data st = (Ok data', st') ->
  fresh ("portraitcoverurl" :: image_keys) data ->
  extends data data' /\ adds_str data data'.
Proof.
  rewrite single_generate_images_eq. cbn zeta.
  destruct (fst (s3_client_io (st_world st))) as [[]|e]; [|discriminate].
  destruct (slug_single data) as [slug|e]; [|discriminate].
  destruct (for_each _ _ _ _) as [[s|e] st2] eqn:El; [|discriminate].
  unfold cover. destruct (fst s) as [img|]; [|discriminate].
  destruct (upload_jpeg cfg img (cover_key cfg slug) st2) as [[[]|e] st3];
    [|discriminate].
  intros H Hfresh. injection H as <- <-.
  apply image_loop_ok in El. rewrite El. cbn [snd].
  destruct (record_images_adds cfg (Single.cdn_url cfg) slug (story := data))
    as [Hext Hadd].
  { intros k Hk. apply Hfresh. right. exact Hk. }
  split.
  - intros k v Hk. rewrite dict_get_set_other; [apply Hext; exact Hk|].
    intros <-. rewrite (Hfresh "portraitcoverurl") in Hk by (left; reflexivity).
    discriminate.
  - intros k v Hnone Hget. rewrite dict_get_set in Hget.
    destruct (text_eqb "portraitcoverurl" k).
    + injection Hget as <-. reflexivity.
    + apply (Hadd k v Hnone Hget).
Qed.

Lemma narration_outcome_adds (cdn_url : text -> text) (story story' : dict)
    (st st' : state) :
  narration_outcome cfg cdn_url story st story' st' ->
  fresh audio_keys story ->
  extends story story' /\ adds_str story story'.
Proof.
  intros (Hwritten & Hskipped & Hframe & _) Hfresh. split.
  - intros k v Hk. rewrite Hframe; [exact Hk|].
    intros Hin. rewrite (Hfresh k Hin) in Hk. discriminate.
  - intros k v Hnone Hget.
    destruct (in_dec text_eq_dec k audio_keys) as [Hin|Hnin].
    + unfold audio_keys in Hin. apply in_map_iff in Hin as ([f a] & E & Hfa).
      cbn [snd] in E. subst a.
      destruct (truthy (dict_get_none story f)) eqn:Et.
      * destruct (Hwritten f k Hfa Et) as (fn & Hfn & _).
        rewrite Hfn in Hget. injection Hget as <-. reflexivity.
      * rewrite (Hskipped f k Hfa Et) in Hget. congruence.
    + rewrite (Hframe k Hnin) in Hget. congruence.
Qed.

End Stages.

Lemma narrative_record_fresh (story : dict) (ks : list text) :
  narrative_record story ->
  (forall k, In k ks -> ~ In k narrative_fields) ->
  fresh ks story.
Proof.
  intros Hrec Hks k Hk.
  destruct (dict_get story k) as [v|] eqn:E; [|reflexivity].
  exfalso. apply (Hks k Hk). apply Hrec. rewrite E. discriminate.
Qed.

Ltac not_narrative :=
  let k := fresh "k" in
  let H := fresh "H" in
  let Hn := fresh "Hn" in
  intros k H Hn; cbn in H;
  repeat (destruct H as [<-|H];
          [cbn in Hn; intuition discriminate|]);
  exact H.

(** C8 (amended).  The image pipelines and the narration pipelines only add
    fields: on a record that does not yet hold the fields they write, in
    particular on a record with the narrative field names only, the output
    keeps every field of the input with its value, and every field it adds
    holds a string.  The merge of the SEO record does the same when the
    value returned by [generate_seo] is a mapping whose keys are not fields
    of the record and whose values are strings, as the default record is on
    a narrative record. *)
Theorem stages_only_add_fields {R : Runtime} (cfg : config) :
  (forall story st story' st',
     App.generate_images cfg story st = (Ok story', st') ->
     fresh image_keys story ->
     extends story story' /\ adds_str story story')
  /\ (forall data st data' st',
        Single.generate_images_and_upload cfg data st = (Ok data', st') ->
        fresh ("portraitcoverurl" :: image_keys) data ->
        extends data data' /\ adds_str data data')
  /\ (forall story st story' urls st',
        App.synthesize_audio cfg story st = (Ok (story', urls), st') ->
        fresh audio_keys story ->
        extends story story' /\ adds_str story story')
  /\ (forall data st data' st',
        Single.synthesize_and_upload_audio cfg data st = (Ok data', st') ->
        fresh audio_keys data ->
        extends data data' /\ adds_str data data')
  /\ (forall story d,
        fresh (keys d) story ->
        all_str d = true ->
        seo_merge story (VDict d) = Ok (dict_update story d)
        /\ extends story (dict_update story d)
        /\ adds_str story (dict_update story d))
  /\ (forall story,
        narrative_record story ->
        fresh image_keys story
        /\ fresh ("portraitcoverurl" :: image_keys) story
        /\ fresh audio_keys story
        /\ fresh ["metadescription"; "metakeywords"] story).
Proof.
  split; [|split; [|split; [|split; [|split]]]].
  - intros story st story' st'. apply app_generate_images_adds.
  - intros data st data' st'. apply single_generate_images_adds.
  - intros story st story' urls st' H.
    eapply narration_outcome_adds. eapply app_synthesize_audio_outcome.
    exact H.
  - intros data st data' st' H.
    eapply narration_outcome_adds. eapply single_synthesize_audio_outcome.
    exact H.
  - intros story d Hfresh Hstr. split; [reflexivity|].
    apply seo_merge_adds; assumption.
  - intros story Hrec.
    repeat split; apply narrative_record_fresh; try exact Hrec; not_narrative.
Qed.

Lemma script_story_narrative : narrative_record Script.story.
Proof.
  intros k H. unfold Script.story in H. cbn [dict_get] in H.
  repeat match type of H with
         | context [text_eqb ?a k] =>
             destruct (text_eqb a k) eqn:E;
             [apply text_eqb_eq in E; subst k; cbn; tauto|clear E]
         end.
  congruence.
Qed.

(** An instance: the title survives the image pipeline. *)
Lemma stages_only_add_fields_witness :
  let R := Script.runtime [] in
  exists story' st',
    App.generate_images Script.cfg_app Script.story (State (R := R) 0 [])
    = (Ok story', st')
    /\ dict_get story' "storytitle" = Some (VStr "How Plants Eat Sunlight").
Proof.
  intros R.
  destruct (@app_generate_images_reliable R Script.cfg_app
              (@script_fallback_reliable [] Script.cfg_app)
              (@script_upload_reliable [] _ Script.cfg_app)
              Script.story (State (R := R) 0 []) "How Plants Eat Sunlight" 0
              eq_refl eq_refl)
    as (story' & st' & _ & _ & Hrun & _).
  exists story', st'. split; [exact Hrun|].
  destruct (@stages_only_add_fields R Script.cfg_app) as (Himg & _ & _ & _ & _ & Hfresh).
  destruct (Hfresh Script.story script_story_narrative) as (Hf & _).
  destruct (Himg _ _ _ _ Hrun Hf) as (Hext & _).
  apply Hext. reflexivity.
Defined.

(** C8 as stated fails for the merge of the SEO record: the reply of the
    chat service is merged as it was parsed, and a reply that names a
    narrative field replaces that field's value. *)
Lemma seo_merge_counterexample :
  ~ (forall (R : Runtime) (story : dict) (st : state) (story' : dict)
            (st' : state),
       narrative_record story ->
       App.seo_stage story st = (Ok story', st') ->
       extends story story' /\ adds_str story story').
Proof.
  intros H.
  pose (R := Script.runtime Script.reply_with_title).
  assert (fst (App.seo_stage Script.story (State (R := R) 0 []))
          = Ok (dict_set Script.story "storytitle" (VStr "x"))) as Hfst
    by (vm_compute; reflexivity).
  destruct (App.seo_stage Script.story (State (R := R) 0 []))
    as [r st'] eqn:Hrun.
  cbn [fst] in Hfst. subst r.
  destruct (H R Script.story _ _ _ script_story_narrative Hrun) as (Hext & _).
  specialize (Hext "storytitle" (VStr "How Plants Eat Sunlight") eq_refl).
  vm_compute in Hext. discriminate Hext.
Qed.

(* ------------------------------------------------------------------ *)
(** * More on [fill_template] *)
(* ------------------------------------------------------------------ *)

Lemma all_str_app (a b : dict) :
  all_str (a ++ b) = all_str a && all_str b.
Proof. apply forallb_app. Qed.

(** The loop of [fill_template] ends normally exactly when every value of
    the record is a [str].  Otherwise it raises the [TypeError] of
    [str.replace] for the first value, in the order of the record, that is
    not a [str], whether or not the template has a placeholder for it. *)
Theorem fill_template_str_or_type_error (template : text) (story : dict) :
  (all_str story = true -> exists out, fill_template template story = Ok out)
  /\ (all_str story = false ->
      exists pre k v post,
        story = pre ++ (k, v) :: post
        /\ all_str pre = true
        /\ is_str v = false
        /\ fill_template template story
           = Raise (Exn TypeError
                      ("replace() argument 2 must be str, not "
                       ++ argument_type v))).
Proof.
  revert template. induction story as [|[k v] rest IH]; intros template.
  - split; [intros _; exists template; reflexivity | discriminate].
  - destruct (is_str v) eqn:Ev.
    + destruct v as [| | | | | |s| |]; try discriminate Ev.
      cbn [fill_template all_str forallb snd is_str andb].
      destruct (IH (replace (placeholder k) s template)) as [IH1 IH2].
      split; [exact IH1|].
      intros H. destruct (IH2 H) as (pre & k' & v' & post & E & Hp & Hv & Hr).
      exists ((k, VStr s) :: pre), k', v', post.
      split; [rewrite E; reflexivity|].
      split; [exact Hp|]. split; [exact Hv|exact Hr].
    + split.
      * cbn [all_str forallb snd]. rewrite Ev. discriminate.
      * intros _. exists [], k, v, rest.
        split; [reflexivity|]. split; [reflexivity|]. split; [exact Ev|].
        destruct v; try reflexivity. discriminate Ev.
Qed.

(** A list of keywords in the record stops the assembly of a template that
    does not mention it. *)
Lemma fill_template_str_or_type_error_witness :
  exists pre k v post,
    [("storytitle", VStr "T"); ("metakeywords", VList [VStr "a"; VStr "b"]);
     ("s1alt1", VStr "x")]
    = pre ++ (k, v) :: post
    /\ all_str pre = true
    /\ is_str v = false
    /\ fill_template "<p>{{storytitle}}</p>"
         [("storytitle", VStr "T"); ("metakeywords", VList [VStr "a"; VStr "b"]);
          ("s1alt1", VStr "x")]
       = Raise (Exn TypeError
                  ("replace() argument 2 must be str, not "
                   ++ argument_type v)).
Proof.
  exact (proj2 (fill_template_str_or_type_error "<p>{{storytitle}}</p>"
                  [("storytitle", VStr "T");
                   ("metakeywords", VList [VStr "a"; VStr "b"]);
                   ("s1alt1", VStr "x")])
               eq_refl).
Defined.

Lemma replace_no_open_brace (k v s : text) :
  no_open_brace s = true -> replace (placeholder k) v s = s.
Proof.
  induction s as [|c s IH]; intros H; [reflexivity|].
  unfold no_open_brace in H. cbn [forallb] in H.
  apply andb_true_iff in H as [Hc Hs].
  rewrite replace_placeholder_lit.
  - f_equal. apply IH. exact Hs.
  - apply negb_true_iff, Ascii.eqb_neq in Hc. exact Hc.
Qed.

(** A template without an opening brace has no placeholder: for a record of
    strings, whatever its field names and values, [fill_template] returns
    it unchanged. *)
Theorem fill_template_no_placeholder (template : text) (story : dict) :
  no_open_brace template = true ->
  all_str story = true ->
  fill_template template story = Ok template.
Proof.
  intros Ht. induction story as [|[k v] rest IH]; intros Hs; [reflexivity|].
  cbn [all_str forallb snd] in Hs. apply andb_true_iff in Hs as [Hv Hrest].
  destruct v as [| | | | | |s| |]; try discriminate Hv.
  cbn [fill_template]. rewrite replace_no_open_brace by exact Ht.
  apply IH. exact Hrest.
Qed.

(** Values and names with braces do not matter here. *)
Lemma fill_template_no_placeholder_witness :
  fill_template "<p>a } b</p>" [("a } b", VStr "{{x}}"); ("x", VStr "y")]
  = Ok "<p>a } b</p>".
Proof.
  exact (@fill_template_no_placeholder "<p>a } b</p>"
           [("a } b", VStr "{{x}}"); ("x", VStr "y")] eq_refl eq_refl).
Defined.

Lemma record_ok_get (story : dict) (name v : text) :
  record_ok story = true ->
  dict_get story name = Some (VStr v) ->
  brace_free v = true.
Proof.
  induction story as [|[k w] rest IH]; intros Hrec Hget; [discriminate|].
  cbn [record_ok forallb] in Hrec. apply andb_true_iff in Hrec as [Hkv Hrest].
  cbn [dict_get] in Hget. destruct (text_eqb k name).
  - injection Hget as ->. unfold field_ok in Hkv. cbn [fst snd] in Hkv.
    apply andb_true_iff in Hkv as [_ Hv]. exact Hv.
  - apply IH; assumption.
Qed.

Lemma token_ok_lits (v : text) :
  brace_free v = true -> forallb token_ok (map Lit v) = true.
Proof.
  induction v as [|c v IH]; intros H; [reflexivity|].
  unfold brace_free in H. cbn [forallb] in H.
  apply andb_true_iff in H as [Hc Hv].
  cbn [map forallb token_ok]. rewrite Hc. apply IH. exact Hv.
Qed.

Lemma resolve_cons (story : dict) (tok : token) (toks : list token) :
  resolve story (tok :: toks) = resolve story [tok] ++ resolve story toks.
Proof. unfold resolve. cbn [flat_map]. rewrite app_nil_r. reflexivity. Qed.

Lemma render_resolve (story : dict) (toks : list token) :
  render (resolve story toks) = instantiate story toks.
Proof.
  induction toks as [|tok toks IH]; [reflexivity|].
  rewrite resolve_cons, render_app, IH.
  change (instantiate story (tok :: toks))
    with (fill_token story tok ++ instantiate story toks).
  f_equal. unfold resolve. cbn [flat_map]. rewrite app_nil_r.
  destruct tok as [c|n]; [reflexivity|].
  cbn [fill_token].
  destruct (dict_get story n) as [[| | | | | |s| |]|];
    try (cbn [render flat_map render_token]; apply app_nil_r).
  apply render_lits.
Qed.

Lemma resolve_ok (story : dict) (toks : list token) :
  record_ok story = true ->
  forallb token_ok toks = true ->
  forallb token_ok (resolve story toks) = true.
Proof.
  intros Hrec. induction toks as [|tok toks IH]; [reflexivity|].
  cbn [forallb]. rewrite andb_true_iff. intros [Htok Htoks].
  rewrite resolve_cons, forallb_app, (IH Htoks), andb_true_r.
  unfold resolve. cbn [flat_map]. rewrite app_nil_r.
  destruct tok as [c|n].
  - cbn [forallb]. rewrite Htok. reflexivity.
  - destruct (dict_get story n) as [[| | | | | |s| |]|] eqn:E;
      try (cbn [forallb]; rewrite Htok; reflexivity).
    apply token_ok_lits. eapply record_ok_get; eassumption.
Qed.

Lemma instantiate_resolve (story : dict) (toks : list token) :
  instantiate story (resolve story toks) = instantiate story toks.
Proof.
  induction toks as [|tok toks IH]; [reflexivity|].
  rewrite resolve_cons, instantiate_app, IH.
  change (instantiate story (tok :: toks))
    with (fill_token story tok ++ instantiate story toks).
  f_equal. unfold resolve. cbn [flat_map]. rewrite app_nil_r.
  destruct tok as [c|n]; [reflexivity|].
  destruct (dict_get story n) as [[| | | | | |s| |]|] eqn:E;
    try (cbn [instantiate flat_map fill_token]; rewrite E; apply app_nil_r).
  cbn [fill_token]. rewrite E. apply instantiate_lits.
Qed.

(** Filling is idempotent on well-formed input: the output of
    [fill_template] is a fixed point of [fill_template] with the same
    record.  The placeholders that are left name no string field, and the
    values put in bring no placeholder with them. *)
Theorem fill_template_idempotent (toks : list token) (story : dict) :
  forallb token_ok toks = true ->
  record_ok story = true ->
  exists out,
    fill_template (render toks) story = Ok out
    /\ fill_template out story = Ok out.
Proof.
  intros Htoks Hrec. exists (instantiate story toks).
  split; [apply fill_template_tokens; assumption|].
  rewrite <- (render_resolve story toks) at 1.
  rewrite fill_template_tokens by (try apply resolve_ok; assumption).
  rewrite instantiate_resolve. reflexivity.
Qed.

Lemma fill_template_idempotent_witness :
  exists out,
    fill_template "<h1>{{storytitle}}</h1>{{unknown_field}}"
      [("storytitle", VStr "Hi"); ("s2paragraph1", VStr "text")] = Ok out
    /\ fill_template out
         [("storytitle", VStr "Hi"); ("s2paragraph1", VStr "text")] = Ok out.
Proof.
  exact (@fill_template_idempotent
           [Lit "<"; Lit "h"; Lit "1"; Lit ">"; Hole "storytitle";
            Lit "<"; Lit "/"; Lit "h"; Lit "1"; Lit ">";
            Hole "unknown_field"]
           [("storytitle", VStr "Hi"); ("s2paragraph1", VStr "text")]
           eq_refl eq_refl).
Defined.

Lemma dict_get_not_in (d : dict) (k : text) :
  ~ In k (keys d) -> dict_get d k = None.
Proof.
  induction d as [|[k' v] d IH]; intros H; [reflexivity|].
  cbn [dict_get]. destruct (text_eqb k' k) eqn:E.
  - apply text_eqb_eq in E. subst. exfalso. apply H. left. reflexivity.
  - apply IH. intros Hin. apply H. right. exact Hin.
Qed.

Lemma dict_get_permutation (d d' : dict) (k : text) :
  Permutation d d' -> NoDup (keys d) -> dict_get d k = dict_get d' k.
Proof.
  induction 1 as [|[k1 v1] d d' Hp IH|[k1 v1] [k2 v2] d|d d' d'' Hp1 IH1 Hp2 IH2];
    intros Hnd.
  - reflexivity.
  - cbn [dict_get]. destruct (text_eqb k1 k); [reflexivity|].
    apply IH. cbn [keys map fst] in Hnd. inversion Hnd; assumption.
  - cbn [dict_get].
    destruct (text_eqb k1 k) eqn:E1, (text_eqb k2 k) eqn:E2; try reflexivity.
    apply text_eqb_eq in E1, E2. subst k1 k2.
    cbn [keys map fst] in Hnd. inversion Hnd as [|? ? Hnin _]; subst.
    exfalso. apply Hnin. left. reflexivity.
  - rewrite IH1 by exact Hnd. apply IH2.
    unfold keys in *. eapply Permutation_NoDup; [|exact Hnd].
    apply Permutation_map. exact Hp1.
Qed.

Lemma record_ok_permutation (d d' : dict) :
  Permutation d d' -> record_ok d = true -> record_ok d' = true.
Proof.
  intros Hp H. unfold record_ok in *. rewrite forallb_forall in *.
  intros kv Hin. apply H. eapply Permutation_in; [|exact Hin].
  apply Permutation_sym. exact Hp.
Qed.

Lemma instantiate_ext (d d' : dict) (toks : list token) :
  (forall k, dict_get d k = dict_get d' k) ->
  instantiate d toks = instantiate d' toks.
Proof.
  intros H. unfold instantiate. apply flat_map_ext.
  intros [c|n]; [reflexivity|]. cbn [fill_token]. rewrite H. reflexivity.
Qed.

(** On well-formed input the order of the fields does not matter: two
    records with the same fields, in any order, give the same document. *)
Theorem fill_template_order_irrelevant (toks : list token)
    (story story' : dict) :
  forallb token_ok toks = true ->
  record_ok story = true ->
  NoDup (keys story) ->
  Permutation story story' ->
  fill_template (render toks) story' = fill_template (render toks) story.
Proof.
  intros Htoks Hrec Hnd Hp.
  rewrite !fill_template_tokens;
    try assumption; try (eapply record_ok_permutation; eassumption).
  f_equal. apply instantiate_ext. intros k. symmetry.
  apply dict_get_permutation; assumption.
Qed.

Lemma fill_template_order_irrelevant_witness :
  fill_template "{{a}}-{{b}}" [("b", VStr "2"); ("a", VStr "1")]
  = fill_template "{{a}}-{{b}}" [("a", VStr "1"); ("b", VStr "2")].
Proof.
  refine (@fill_template_order_irrelevant
            [Hole "a"; Lit "-"; Hole "b"]
            [("a", VStr "1"); ("b", VStr "2")]
            [("b", VStr "2"); ("a", VStr "1")]
            eq_refl eq_refl _ _).
  - repeat constructor; simpl; intuition discriminate.
  - apply perm_swap.
Defined.

(* ------------------------------------------------------------------ *)
(** * [generate_story] and the errors of the chat stages *)
(* ------------------------------------------------------------------ *)

Section Story.
Context {R : Runtime}.

Lemma app_generate_story_eq (text : text) (st : state) :
  AppStory.generate_story text st =
  let st1 :=
    State (snd (chat_io (AppStory.story_request text) (st_world st)))
          (st_trace st ++ [EvChat (AppStory.story_request text)]) in
  match fst (chat_io (AppStory.story_request text) (st_world st)) with
  | Ok content => (json_loads content, st1)
  | Raise e => (Raise e, st1)
  end.
Proof.
  unfold AppStory.generate_story, bind, lift, io.
  destruct (chat_io (AppStory.story_request text) (st_world st))
    as [[content|e] w]; reflexivity.
Qed.

Lemma single_generate_story_eq (text : text) (st : state) :
  SingleStory.generate_story text st =
  let st1 :=
    State (snd (chat_io (SingleStory.story_request text) (st_world st)))
          (st_trace st ++ [EvChat (SingleStory.story_request text)]) in
  match fst (chat_io (SingleStory.story_request text) (st_world st)) with
  | Ok content => (json_loads content, st1)
  | Raise e => (Raise e, st1)
  end.
Proof.
  unfold SingleStory.generate_story, bind, lift, io.
  destruct (chat_io (SingleStory.story_request text) (st_world st))
    as [[content|e] w]; reflexivity.
Qed.

End Story.

Lemma json_backtick (fuel : nat) (r : text) :
  Json.parse_value fuel ("`"%char :: r) = None.
Proof. destruct fuel; reflexivity. Qed.

Lemma json_loads_backtick (s r : text) :
  Json.skip_ws s = "`"%char :: r -> Json.loads s = Raise Json.decode_error.
Proof.
  intros H. unfold Json.loads. rewrite H, json_backtick.
  destruct (strip_prefix Json.bom s); reflexivity.
Qed.

(** [generate_story] has no fallback.  In both variants it sends one chat
    request and hands the reply to [json.loads] as it is: when the decoder
    raises, also with [JSONDecodeError], the error leaves the function, and
    no warning is shown. *)
Theorem generate_story_decode_error {R : Runtime} (text content : text)
    (e : exn) (st : state) :
  json_loads content = Raise e ->
  (forall w,
     chat_io (AppStory.story_request text) (st_world st) = (Ok content, w) ->
     AppStory.generate_story text st
     = (Raise e,
        State w (st_trace st ++ [EvChat (AppStory.story_request text)])))
  /\ (forall w,
        chat_io (SingleStory.story_request text) (st_world st)
        = (Ok content, w) ->
        SingleStory.generate_story text st
        = (Raise e,
           State w (st_trace st ++ [EvChat (SingleStory.story_request text)]))).
Proof.
  intros Hjson. split; intros w Hchat.
  - rewrite app_generate_story_eq, Hchat. cbn [fst snd]. rewrite Hjson.
    reflexivity.
  - rewrite single_generate_story_eq, Hchat. cbn [fst snd]. rewrite Hjson.
    reflexivity.
Qed.

(** A reply in plain words. *)
Lemma generate_story_decode_error_witness :
  let R := Script.runtime "Sorry, I cannot help with that." in
  AppStory.generate_story (R := R) "notes" (State (R := R) 0 [])
  = (Raise Json.decode_error,
     State (R := R) 0 [EvChat (AppStory.story_request "notes")]).
Proof.
  intros R.
  exact (proj1 (@generate_story_decode_error R "notes"
                  "Sorry, I cannot help with that." Json.decode_error
                  (State (R := R) 0 []) eq_refl) 0 eq_refl).
Defined.

(** The fence that [generate_seo] asks for and strips is fatal to
    [generate_story]: with a decoder that follows the JSON grammar, a reply
    whose first character after white space is a backtick makes both
    variants raise [JSONDecodeError]. *)
Theorem generate_story_fenced_reply {R : Runtime} (text content rest : text)
    (st : state) :
  json_loads content = Json.loads content ->
  Json.skip_ws content = "`"%char :: rest ->
  (forall w,
     chat_io (AppStory.story_request text) (st_world st) = (Ok content, w) ->
     fst (AppStory.generate_story text st) = Raise Json.decode_error)
  /\ (forall w,
        chat_io (SingleStory.story_request text) (st_world st)
        = (Ok content, w) ->
        fst (SingleStory.generate_story text st) = Raise Json.decode_error).
Proof.
  intros Href Hws.
  pose proof (json_loads_backtick _ Hws) as Hraise.
  split; intros w Hchat.
  - rewrite app_generate_story_eq, Hchat. cbn [fst snd].
    rewrite Href. exact Hraise.
  - rewrite single_generate_story_eq, Hchat. cbn [fst snd].
    rewrite Href. exact Hraise.
Qed.

(** The fenced reply that [generate_seo] parses. *)
Lemma generate_story_fenced_reply_witness :
  let reply := "```json" ++ [newline] ++ example_json ++ [newline] ++ "```" in
  let R := Script.runtime reply in
  fst (SingleStory.generate_story (R := R) "notes" (State (R := R) 0 []))
  = Raise Json.decode_error
  /\ fst (Single.generate_seo (R := R) Script.story (State (R := R) 0 []))
     = Ok example_seo.
Proof.
  intros reply R. split.
  - exact (proj2 (@generate_story_fenced_reply R "notes" reply
                    ("``json" ++ [newline] ++ example_json ++ [newline]
                     ++ "```")
                    (State (R := R) 0 []) eq_refl eq_refl) 0 eq_refl).
  - vm_compute. reflexivity.
Defined.

(** Outside the parsing of the reply, [generate_seo] has no fallback either.
    An error of the chat service leaves the function, and so does an error
    of [json.loads] that is not a [JSONDecodeError]; no warning is shown and
    the default record is not returned. *)
Theorem generate_seo_other_errors {R : Runtime} (story : dict) (st : state)
    (e : exn) :
  (forall p w,
     App.seo_prompt story = Ok p ->
     chat_io (App.seo_request p) (st_world st) = (Raise e, w) ->
     App.generate_seo story st
     = (Raise e, State w (st_trace st ++ [EvChat (App.seo_request p)])))
  /\ (forall p w,
        Single.seo_prompt story = Ok p ->
        chat_io (Single.seo_request p) (st_world st) = (Raise e, w) ->
        Single.generate_seo story st
        = (Raise e, State w (st_trace st ++ [EvChat (Single.seo_request p)])))
  /\ (forall p w content,
        is_json_decode_error e = false ->
        json_loads (seo_raw content) = Raise e ->
        App.seo_prompt story = Ok p ->
        chat_io (App.seo_request p) (st_world st) = (Ok content, w) ->
        App.generate_seo story st
        = (Raise e, State w (st_trace st ++ [EvChat (App.seo_request p)])))
  /\ (forall p w content,
        is_json_decode_error e = false ->
        json_loads (seo_raw content) = Raise e ->
        Single.seo_prompt story = Ok p ->
        chat_io (Single.seo_request p) (st_world st) = (Ok content, w) ->
        Single.generate_seo story st
        = (Raise e, State w (st_trace st ++ [EvChat (Single.seo_request p)]))).
Proof.
  split; [|split; [|split]].
  - intros p w Hp Hchat. rewrite app_generate_seo_eq, Hp, Hchat. reflexivity.
  - intros p w Hp Hchat. rewrite single_generate_seo_eq, Hp, Hchat.
    reflexivity.
  - intros p w content He Hjson Hp Hchat.
    rewrite app_generate_seo_eq, Hp, Hchat. cbn [fst snd].
    unfold parse_seo_response, try_except_json, lift. rewrite Hjson, He.
    reflexivity.
  - intros p w content He Hjson Hp Hchat.
    rewrite single_generate_seo_eq, Hp, Hchat. cbn [fst snd].
    unfold parse_seo_response, try_except_json, lift. rewrite Hjson, He.
    reflexivity.
Qed.

(** The chat service is down; the decoder gives up on a deep reply. *)
Lemma generate_seo_other_errors_witness :
  fst (App.generate_seo (R := Outage.chat_down) Script.story
         (State (R := Outage.chat_down) 0 []))
  = Raise Outage.unavailable
  /\ fst (Single.generate_seo (R := Outage.deep_reply "[[[[")
            Script.story (State (R := Outage.deep_reply "[[[[") 0 []))
     = Raise Outage.too_deep.
Proof.
  split.
  - rewrite (proj1 (@generate_seo_other_errors Outage.chat_down Script.story
                      (State (R := Outage.chat_down) 0 [])
                      Outage.unavailable) _ 0 eq_refl eq_refl).
    reflexivity.
  - rewrite (proj2 (proj2 (proj2
               (@generate_seo_other_errors (Outage.deep_reply "[[[[")
                  Script.story
                  (State (R := Outage.deep_reply "[[[[") 0 [])
                  Outage.too_deep))) _ 0 "[[[[" eq_refl eq_refl eq_refl
               eq_refl).
    reflexivity.
Defined.

Ltac read_field story k :=
  destruct (dict_get story k) eqn:?;
  [cbn [bind_result]
  |match goal with
   | H : Some _ = Some _ |- _ => injection H as <-; reflexivity
   end].

(** Which missing field [generate_seo] reports.  Each variant raises the
    [KeyError] of the first field it reads and does not find:
    [src/app-single.py] reads the title first, [src/app.py] reads it after
    the five paragraphs.  A record that lacks the title and a paragraph
    gives different errors in the two variants. *)
Theorem generate_seo_first_missing {R : Runtime} (story : dict) (st : state)
    (k : text) :
  (first_missing app_seo_order story = Some k ->
   App.generate_seo story st = (Raise (key_error k), st))
  /\ (first_missing single_seo_order story = Some k ->
      Single.generate_seo story st = (Raise (key_error k), st)).
Proof.
  split; intros H.
  - rewrite app_generate_seo_eq.
    unfold first_missing, app_seo_order in H. cbn [find] in H.
    unfold App.seo_prompt, dict_item, key_error.
    read_field story ("s2paragraph1" : text).
    read_field story ("s3paragraph1" : text).
    read_field story ("s4paragraph1" : text).
    read_field story ("s5paragraph1" : text).
    read_field story ("s6paragraph1" : text).
    read_field story ("storytitle" : text).
    discriminate H.
  - rewrite single_generate_seo_eq.
    unfold first_missing, single_seo_order in H. cbn [find] in H.
    unfold Single.seo_prompt, dict_item, key_error.
    read_field story ("storytitle" : text).
    read_field story ("s2paragraph1" : text).
    read_field story ("s3paragraph1" : text).
    read_field story ("s4paragraph1" : text).
    read_field story ("s5paragraph1" : text).
    read_field story ("s6paragraph1" : text).
    discriminate H.
Qed.

(** A record without title and without third paragraph. *)
Lemma generate_seo_first_missing_witness :
  let R := Script.runtime [] in
  let story := [("s2paragraph1", VStr "p2"); ("s4paragraph1", VStr "p4")] in
  App.generate_seo (R := R) story (State (R := R) 0 [])
  = (Raise (key_error "s3paragraph1"), State (R := R) 0 [])
  /\ Single.generate_seo (R := R) story (State (R := R) 0 [])
     = (Raise (key_error "storytitle"), State (R := R) 0 []).
Proof.
  intros R story. split.
  - exact (proj1 (@generate_seo_first_missing R story (State (R := R) 0 [])
                    "s3paragraph1") eq_refl).
  - exact (proj2 (@generate_seo_first_missing R story (State (R := R) 0 [])
                    "storytitle") eq_refl).
Defined.

(** The SEO stage after a reply that does not parse.  [generate_seo]
    returns its default record and [story.update] merges it: in the record
    that goes on to the next stage both SEO fields hold the empty string,
    also when the narrative had given them a value, and every other field
    is as it was. *)
Theorem seo_stage_after_parse_failure {R : Runtime} (story : dict)
    (st : state) (content : text) (e : exn) :
  json_loads (seo_raw content) = Raise e ->
  is_json_decode_error e = true ->
  let merged :=
    dict_set (dict_set story "metadescription" (VStr []))
      "metakeywords" (VStr []) in
  (forall p w,
     App.seo_prompt story = Ok p ->
     chat_io (App.seo_request p) (st_world st) = (Ok content, w) ->
     App.seo_stage story st
     = (Ok merged,
        State w (st_trace st ++ [EvChat (App.seo_request p);
                                 EvWarning App.seo_warning])))
  /\ (forall p w,
        Single.seo_prompt story = Ok p ->
        chat_io (Single.seo_request p) (st_world st) = (Ok content, w) ->
        Single.seo_stage story st
        = (Ok merged,
           State w (st_trace st ++ [EvChat (Single.seo_request p);
                                    EvWarning Single.seo_warning])))
  /\ dict_get merged "metadescription" = Some (VStr [])
  /\ dict_get merged "metakeywords" = Some (VStr [])
  /\ (forall k,
        k <> "metadescription" -> k <> "metakeywords" ->
        dict_get merged k = dict_get story k).
Proof.
  intros Hjson He merged. split; [|split; [|split; [|split]]].
  - intros p w Hp Hchat. unfold App.seo_stage, bind.
    rewrite app_generate_seo_eq, Hp, Hchat. cbn [fst snd].
    rewrite (parse_seo_response_decode_error _ _ _ Hjson He).
    cbn [st_world st_trace]. rewrite <- app_assoc. reflexivity.
  - intros p w Hp Hchat. unfold Single.seo_stage, bind.
    rewrite single_generate_seo_eq, Hp, Hchat. cbn [fst snd].
    rewrite (parse_seo_response_decode_error _ _ _ Hjson He).
    cbn [st_world st_trace]. rewrite <- app_assoc. reflexivity.
  - unfold merged. rewrite dict_get_set_other by discriminate.
    apply dict_get_set_same.
  - apply dict_get_set_same.
  - intros k H1 H2. unfold merged.
    rewrite !dict_get_set_other by congruence. reflexivity.
Qed.

(** A narrative that came with a description loses it. *)
Lemma seo_stage_after_parse_failure_witness :
  let R := Script.runtime "Sorry, I cannot help with that." in
  let story := Script.story ++ [("metadescription", VStr "from the model")] in
  exists story',
    fst (App.seo_stage (R := R) story (State (R := R) 0 [])) = Ok story'
    /\ dict_get story' "metadescription" = Some (VStr [])
    /\ dict_get story' "storytitle" = dict_get story "storytitle".
Proof.
  intros R story.
  destruct (@seo_stage_after_parse_failure R story (State (R := R) 0 [])
              "Sorry, I cannot help with that." Json.decode_error
              eq_refl eq_refl) as (Happ & _ & Hd & _ & Hother).
  eexists. split; [|split].
  - rewrite (Happ _ 0 eq_refl eq_refl). reflexivity.
  - exact Hd.
  - apply Hother; discriminate.
Defined.

(* ------------------------------------------------------------------ *)
(** * Requests, uploads and reruns of the image functions *)
(* ------------------------------------------------------------------ *)

Lemma NoDup_map_inj {A B} (f : A -> B) (l : list A) :
  (forall x y, In x l -> In y l -> f x = f y -> x = y) ->
  NoDup l -> NoDup (map f l).
Proof.
  intros Hinj. induction 1 as [|x l Hx Hnd IH]; [constructor|].
  cbn [map]. constructor.
  - intros Hin. apply in_map_iff in Hin as (y & E & Hy).
    apply Hx. rewrite (Hinj x y); [exact Hy|left; reflexivity|right; exact Hy|].
    symmetry; exact E.
  - apply IH. intros a b Ha Hb. apply Hinj; right; assumption.
Qed.

Lemma dict_set_same_value (d : dict) (k : text) (v : value) :
  dict_get d k = Some v -> dict_set d k v = d.
Proof.
  induction d as [|[k' v'] d IH]; intros H; [discriminate|].
  cbn [dict_get dict_set] in *. destruct (text_eqb k' k).
  - injection H as ->. reflexivity.
  - f_equal. apply IH. exact H.
Qed.

Lemma title_not_image (i : nat) : "storytitle" <> slide_field i "image1".
Proof.
  unfold slide_field. intros E.
  apply (f_equal (@rev ascii)) in E. rewrite !rev_app_distr in E.
  discriminate E.
Qed.

Lemma cover_not_image (i : nat) : "portraitcoverurl" <> slide_field i "image1".
Proof. unfold slide_field. intros E. discriminate E. Qed.

Section ImageUploads.
Context {R : Runtime}.
Variable cfg : config.

Lemma uploads_app (a b : list event) :
  uploads (a ++ b) = uploads a ++ uploads b.
Proof. apply flat_map_app. Qed.

Lemma generate_image_uploads (prompt : value) (st : state) :
  uploads (st_trace (snd (generate_image cfg prompt st)))
  = uploads (st_trace st).
Proof.
  unfold generate_image, bind, io, lift.
  destruct (post_io (DALE_ENDPOINT cfg) (DALE_KEY cfg) prompt (st_world st))
    as [[dr|e] w]; cbn [snd st_trace st_world].
  2:{ rewrite uploads_app. apply app_nil_r. }
  destruct (raise_for_status dr) as [[]|e]; cbn [snd st_trace st_world].
  2:{ rewrite uploads_app. apply app_nil_r. }
  destruct (response_image_url dr) as [url|e]; cbn [snd st_trace st_world].
  2:{ rewrite uploads_app. apply app_nil_r. }
  destruct (get_content_io url w) as [[data|e] w']; cbn [snd st_trace st_world].
  2:{ rewrite !uploads_app. cbn. rewrite !app_nil_r. reflexivity. }
  destruct (image_open data) as [img|e]; cbn [snd st_trace st_world];
    rewrite !uploads_app; cbn; rewrite !app_nil_r; reflexivity.
Qed.

Lemma fallback_image_uploads (st : state) :
  uploads (st_trace (snd (fallback_image cfg st))) = uploads (st_trace st).
Proof.
  unfold fallback_image, bind, io, lift.
  destruct (get_raw_io (DEFAULT_ERROR_IMAGE cfg) (st_world st)) as [[raw|e] w];
    [destruct (image_open raw) as [img|e]|];
    cbn [snd st_trace]; rewrite uploads_app; cbn; apply app_nil_r.
Qed.

Lemma publish_uploads (cdn_url : text -> text) (slug : text) (i : nat)
    (data : dict) (img : image) (st : state) (s' : option image * dict)
    (st' : state) :
  publish cfg cdn_url slug i data img st = (Ok s', st') ->
  uploads (st_trace st') = uploads (st_trace st) ++ [slide_key cfg slug i].
Proof.
  intros H. apply publish_ok in H as [_ H].
  apply upload_jpeg_ok in H as (buf & _ & _ & Htr).
  rewrite Htr, uploads_app. reflexivity.
Qed.

(** An iteration that ends normally has made one upload, under the key of
    its slide. *)
Lemma image_slide_upload_key (error_prefix : text) (cdn_url : text -> text)
    (slug : text) (i : nat) (s s' : option image * dict) (st st' : state) :
  image_slide cfg error_prefix cdn_url slug i s st = (Ok s', st') ->
  uploads (st_trace st') = uploads (st_trace st) ++ [slide_key cfg slug i].
Proof.
  rewrite image_slide_eq.
  pose proof (generate_image_uploads (slide_prompt (snd s) i) st) as Hg.
  destruct (generate_image cfg (slide_prompt (snd s) i) st) as [[img|e] st1];
    cbn [snd] in Hg.
  - intros H. apply publish_uploads in H. rewrite H, Hg. reflexivity.
  - pose proof (fallback_image_uploads
                  (after_error (slide_error error_prefix i e) st1)) as Hf.
    destruct (fallback_image cfg _) as [[img|e2] st2]; [|discriminate].
    cbn [snd] in Hf. intros H. apply publish_uploads in H.
    rewrite H, Hf. cbn [after_error st_trace].
    rewrite uploads_app, Hg. cbn. rewrite app_nil_r. reflexivity.
Qed.

Lemma image_loop_uploads (error_prefix : text) (cdn_url : text -> text)
    (slug : text) (l : list nat) (s s' : option image * dict)
    (st st' : state) :
  for_each l (image_slide cfg error_prefix cdn_url slug) s st = (Ok s', st') ->
  uploads (st_trace st')
  = uploads (st_trace st) ++ map (slide_key cfg slug) l.
Proof.
  revert s st; induction l as [|i l IH]; intros s st H.
  - injection H as _ <-. cbn. rewrite app_nil_r. reflexivity.
  - rewrite for_each_cons in H.
    destruct (image_slide cfg error_prefix cdn_url slug i s st)
      as [[s1|e] st1] eqn:E; [|discriminate].
    apply image_slide_upload_key in E.
    rewrite (IH _ _ H), E. cbn [map]. rewrite <- app_assoc. reflexivity.
Qed.

Lemma slide_key_inj (slug : text) (i j : nat) :
  slide_key cfg slug i = slide_key cfg slug j -> i = j.
Proof.
  unfold slide_key. intros H.
  apply app_inv_head in H. injection H as H.
  apply app_inv_head in H.
  change ("/slide" ++ decimal i ++ ".jpg")
    with ("/slide" ++ (decimal i ++ ".jpg")) in H.
  apply (app_inv_head "/slide") in H. apply app_inv_tail in H.
  apply decimal_inj. exact H.
Qed.

Lemma slide_keys_nodup (slug : text) (l : list nat) :
  NoDup l -> NoDup (map (slide_key cfg slug) l).
Proof.
  apply NoDup_map_inj. intros x y _ _. apply slide_key_inj.
Qed.

Lemma cover_key_not_slide (slug : text) (i : nat) :
  cover_key cfg slug <> slide_key cfg slug i.
Proof.
  unfold cover_key, slide_key. intros H.
  apply app_inv_head in H. injection H as H.
  apply app_inv_head in H. discriminate H.
Qed.

(** What a run of [generate_images] that returns has computed. *)
Lemma app_generate_images_ok (story story' : dict) (st st' : state) :
  App.generate_images cfg story st = (Ok story', st') ->
  exists slug w s,
    slug_app story = Ok slug
    /\ s3_client_io (st_world st) = (Ok tt, w)
    /\ for_each (seq 1 6)
         (image_slide cfg App.error_prefix (App.cdn_url cfg) slug)
         (None, story) (State w (st_trace st ++ [EvS3Client]))
       = (Ok s, st')
    /\ story' = record_images cfg (App.cdn_url cfg) slug (seq 1 6) story.
Proof.
  rewrite app_generate_images_eq. cbn zeta.
  destruct (s3_client_io (st_world st)) as [[[]|e] w]; cbn [fst snd];
    [|discriminate].
  destruct (slug_app story) as [slug|e]; [|discriminate].
  destruct (for_each _ _ _ _) as [[s|e] st2] eqn:El; [|discriminate].
  intros H. injection H as <- <-.
  exists slug, w, s. repeat split; try assumption.
  apply image_loop_ok in El. exact El.
Qed.

Lemma single_generate_images_ok (data data' : dict) (st st' : state) :
  Single.generate_images_and_upload cfg data st = (Ok data', st') ->
  exists slug w s st6 img,
    slug_single data = Ok slug
    /\ s3_client_io (st_world st) = (Ok tt, w)
    /\ for_each (seq 1 6)
         (image_slide cfg Single.error_prefix (Single.cdn_url cfg) slug)
         (None, data) (State w (st_trace st ++ [EvS3Client]))
       = (Ok s, st6)
    /\ upload_jpeg cfg img (cover_key cfg slug) st6 = (Ok tt, st')
    /\ data'
       = dict_set
           (record_images cfg (Single.cdn_url cfg) slug (seq 1 6) data)
           "portraitcoverurl" (VStr (Single.cdn_url cfg (cover_key cfg slug))).
Proof.
  rewrite single_generate_images_eq. cbn zeta.
  destruct (s3_client_io (st_world st)) as [[[]|e] w]; cbn [fst snd];
    [|discriminate].
  destruct (slug_single data) as [slug|e]; [|discriminate].
  destruct (for_each _ _ _ _) as [[s|e] st6] eqn:El; [|discriminate].
  unfold cover. destruct (fst s) as [img|]; [|discriminate].
  destruct (upload_jpeg cfg img (cover_key cfg slug) st6) as [[[]|e] st7] eqn:Ec;
    [|discriminate].
  intros H. injection H as <- <-.
  exists slug, w, s, st6, img. repeat split; try assumption.
  apply image_loop_ok in El. rewrite El. reflexivity.
Qed.

Lemma record_images_fixed (cdn_url : text -> text) (slug : text)
    (l : list nat) (d : dict) :
  (forall i, In i l ->
     dict_get d (slide_field i "image1")
     = Some (VStr (cdn_url (slide_key cfg slug i)))) ->
  record_images cfg cdn_url slug l d = d.
Proof.
  induction l as [|i l IH]; intros H; [reflexivity|].
  rewrite record_images_cons, dict_set_same_value
    by (apply H; left; reflexivity).
  apply IH. intros j Hj. apply H. right. exact Hj.
Qed.

Lemma slug_app_ext (d d' : dict) :
  dict_get d' "storytitle" = dict_get d "storytitle" ->
  slug_app d' = slug_app d.
Proof. intros H. unfold slug_app, dict_item. rewrite H. reflexivity. Qed.

Lemma slug_single_ext (d d' : dict) :
  dict_get d' "storytitle" = dict_get d "storytitle" ->
  slug_single d' = slug_single d.
Proof. intros H. unfold slug_single, dict_item. rewrite H. reflexivity. Qed.

End ImageUploads.

(** The requests and uploads of [generate_images] ([src/app.py]).  A run
    that returns has asked the image service six times, with the prompts of
    the slides 1 to 6 in that order, and has made six uploads, under six
    different keys [{prefix}/{slug}/slide{i}.jpg] in the same order; the
    URL recorded for slide [i] is the CDN base, a slash and the key of the
    [i]-th upload. *)
Theorem app_image_uploads {R : Runtime} (cfg : config) (story story' : dict)
    (st st' : state) :
  App.generate_images cfg story st = (Ok story', st') ->
  exists slug,
    slug_app story = Ok slug
    /\ posts (st_trace st')
       = posts (st_trace st) ++ map (slide_prompt story) (seq 1 6)
    /\ uploads (st_trace st')
       = uploads (st_trace st) ++ map (slide_key cfg slug) (seq 1 6)
    /\ NoDup (map (slide_key cfg slug) (seq 1 6))
    /\ (forall i, In i (seq 1 6) ->
          dict_get story' (slide_field i "image1")
          = Some (VStr (CDN_BASE cfg ++ "/" ++ slide_key cfg slug i))).
Proof.
  intros H. apply app_generate_images_ok in H
    as (slug & w & s & Hslug & Hs3 & Hloop & ->).
  exists slug. split; [exact Hslug|].
  split; [|split; [|split]].
  - pose proof Hloop as Hp. apply image_loop_posts in Hp.
    rewrite Hp. cbn [st_trace snd].
    rewrite posts_app. cbn. rewrite app_nil_r. reflexivity.
  - pose proof Hloop as Hu. apply image_loop_uploads in Hu.
    rewrite Hu. cbn [st_trace].
    rewrite uploads_app. cbn. rewrite app_nil_r. reflexivity.
  - apply slide_keys_nodup. apply seq_NoDup.
  - intros i Hi. apply (record_images_in cfg (App.cdn_url cfg)). exact Hi.
Qed.

(** An instance, with the defaults of [src/app.py]. *)
Lemma app_image_uploads_witness :
  let R := Script.runtime [] in
  exists story' st',
    App.generate_images Script.cfg_app Script.story (State (R := R) 0 [])
    = (Ok story', st')
    /\ uploads (st_trace st')
       = ["media/how-plants-eat-sunlight/slide1.jpg";
          "media/how-plants-eat-sunlight/slide2.jpg";
          "media/how-plants-eat-sunlight/slide3.jpg";
          "media/how-plants-eat-sunlight/slide4.jpg";
          "media/how-plants-eat-sunlight/slide5.jpg";
          "media/how-plants-eat-sunlight/slide6.jpg"].
Proof.
  intros R.
  destruct (@app_generate_images_reliable R Script.cfg_app
              (@script_fallback_reliable [] Script.cfg_app)
              (@script_upload_reliable [] _ Script.cfg_app)
              Script.story (State (R := R) 0 []) "How Plants Eat Sunlight" 0
              eq_refl eq_refl)
    as (story' & st' & slug0 & _ & Hrun & _).
  exists story', st'. split; [exact Hrun|].
  destruct (@app_image_uploads R Script.cfg_app Script.story story'
              (State (R := R) 0 []) st' Hrun)
    as (slug & Hslug & _ & Hup & _).
  vm_compute in Hslug. injection Hslug as <-.
  rewrite Hup. vm_compute. reflexivity.
Defined.

(** The uploads of [generate_images_and_upload] ([src/app-single.py]).  A
    run that returns has made seven uploads under seven different keys: the
    six slides in order, then the portrait cover.  The recorded URLs are
    the CDN base followed, without a separator, by the keys. *)
Theorem single_image_uploads {R : Runtime} (cfg : config) (data data' : dict)
    (st st' : state) :
  Single.generate_images_and_upload cfg data st = (Ok data', st') ->
  exists slug,
    slug_single data = Ok slug
    /\ uploads (st_trace st')
       = uploads (st_trace st)
         ++ map (slide_key cfg slug) (seq 1 6) ++ [cover_key cfg slug]
    /\ NoDup (map (slide_key cfg slug) (seq 1 6) ++ [cover_key cfg slug])
    /\ (forall i, In i (seq 1 6) ->
          dict_get data' (slide_field i "image1")
          = Some (VStr (CDN_BASE cfg ++ slide_key cfg slug i)))
    /\ dict_get data' "portraitcoverurl"
       = Some (VStr (CDN_BASE cfg ++ cover_key cfg slug)).
Proof.
  intros H. apply single_generate_images_ok in H
    as (slug & w & s & st6 & img & Hslug & Hs3 & Hloop & Hcover & ->).
  exists slug. split; [exact Hslug|].
  split; [|split; [|split]].
  - apply upload_jpeg_ok in Hcover as (buf & _ & _ & Htr).
    pose proof Hloop as Hu. apply image_loop_uploads in Hu.
    rewrite Htr, uploads_app, Hu.
    cbn [st_trace]. rewrite uploads_app. cbn [uploads flat_map app].
    rewrite app_nil_r, <- app_assoc. reflexivity.
  - apply NoDup_app.
    + apply slide_keys_nodup. apply seq_NoDup.
    + repeat constructor. intros [].
    + intros k Hk [<-|[]]. apply in_map_iff in Hk as (i & E & _).
      exact (cover_key_not_slide cfg slug i (eq_sym E)).
  - intros i Hi. rewrite dict_get_set_other by apply cover_not_image.
    apply (record_images_in cfg (Single.cdn_url cfg)). exact Hi.
  - apply dict_get_set_same.
Qed.

(** An instance, with the defaults of [src/app-single.py]. *)
Lemma single_image_uploads_witness :
  let R := Script.runtime [] in
  exists data' st',
    Single.generate_images_and_upload Script.cfg_single Script.story
      (State (R := R) 0 [])
    = (Ok data', st')
    /\ uploads (st_trace st')
       = ["media//how-plants-eat-sunlight/slide1.jpg";
          "media//how-plants-eat-sunlight/slide2.jpg";
          "media//how-plants-eat-sunlight/slide3.jpg";
          "media//how-plants-eat-sunlight/slide4.jpg";
          "media//how-plants-eat-sunlight/slide5.jpg";
          "media//how-plants-eat-sunlight/slide6.jpg";
          "media//how-plants-eat-sunlight/portrait_cover.jpg"].
Proof.
  intros R.
  destruct (@single_generate_images_reliable R Script.cfg_single
              (@script_fallback_reliable [] Script.cfg_single)
              (@script_upload_reliable [] _ Script.cfg_single)
              Script.story (State (R := R) 0 []) "How Plants Eat Sunlight" 0
              eq_refl eq_refl)
    as (data' & st' & slug0 & _ & Hrun & _).
  exists data', st'. split; [exact Hrun|].
  destruct (@single_image_uploads R Script.cfg_single Script.story data'
              (State (R := R) 0 []) st' Hrun)
    as (slug & Hslug & Hup & _).
  vm_compute in Hslug. injection Hslug as <-.
  rewrite Hup. vm_compute. reflexivity.
Defined.

(** The image functions need a title that is a [str].  The S3 client is
    created first; then a record without [storytitle] raises [KeyError],
    and a title that is not a [str] raises [AttributeError], in both
    variants.  Nothing has been asked of the image service and nothing has
    been uploaded at that point. *)
Theorem image_functions_need_title {R : Runtime} (cfg : config) (story : dict)
    (st : state) (w : world) :
  s3_client_io (st_world st) = (Ok tt, w) ->
  let st1 := State w (st_trace st ++ [EvS3Client]) in
  (dict_get story "storytitle" = None ->
   App.generate_images cfg story st = (Raise (key_error "storytitle"), st1)
   /\ Single.generate_images_and_upload cfg story st
      = (Raise (key_error "storytitle"), st1))
  /\ (forall v,
        dict_get story "storytitle" = Some v ->
        is_str v = false ->
        let e :=
          Exn AttributeError
            ("'" ++ type_name v ++ "' object has no attribute 'lower'") in
        App.generate_images cfg story st = (Raise e, st1)
        /\ Single.generate_images_and_upload cfg story st = (Raise e, st1)).
Proof.
  intros Hs3 st1. split.
  - intros Hnone.
    rewrite app_generate_images_eq, single_generate_images_eq, Hs3.
    unfold slug_app, slug_single, dict_item. rewrite Hnone.
    split; reflexivity.
  - intros v Hv Hstr e.
    rewrite app_generate_images_eq, single_generate_images_eq, Hs3.
    unfold slug_app, slug_single, dict_item. rewrite Hv.
    destruct v; try discriminate Hstr; split; reflexivity.
Qed.

(** A record without title, and a title that is a number. *)
Lemma image_functions_need_title_witness :
  let R := Script.runtime [] in
  App.generate_images Script.cfg_app [("s1alt1", VStr "a1")]
    (State (R := R) 0 [])
  = (Raise (key_error "storytitle"), State (R := R) 0 [EvS3Client])
  /\ fst (Single.generate_images_and_upload Script.cfg_single
            [("storytitle", VInt 7)] (State (R := R) 0 []))
     = Raise (Exn AttributeError "'int' object has no attribute 'lower'").
Proof.
  intros R. split.
  - exact (proj1 (proj1 (@image_functions_need_title R Script.cfg_app
                           [("s1alt1", VStr "a1")] (State (R := R) 0 []) 0
                           eq_refl) eq_refl)).
  - rewrite (proj2 (proj2 (@image_functions_need_title R Script.cfg_single
                             [("storytitle", VInt 7)] (State (R := R) 0 []) 0
                             eq_refl) (VInt 7) eq_refl eq_refl)).
    reflexivity.
Defined.

(** Running the image function again on its own output, from any state,
    gives the same record again: the slug, the keys and the URLs depend on
    the title and the settings only, and every assignment rewrites the value
    that is already there.  This holds for both variants. *)
Theorem images_rerun_same_record {R : Runtime} (cfg : config) (story : dict)
    (st : state) :
  (forall story1 st1 st2 story2 st3,
     App.generate_images cfg story st = (Ok story1, st1) ->
     App.generate_images cfg story1 st2 = (Ok story2, st3) ->
     story2 = story1)
  /\ (forall data1 st1 st2 data2 st3,
        Single.generate_images_and_upload cfg story st = (Ok data1, st1) ->
        Single.generate_images_and_upload cfg data1 st2 = (Ok data2, st3) ->
        data2 = data1).
Proof.
  split.
  - intros story1 st1 st2 story2 st3 H1 H2.
    apply app_generate_images_ok in H1 as (slug & _ & _ & Hslug & _ & _ & ->).
    apply app_generate_images_ok in H2 as (slug' & _ & _ & Hslug' & _ & _ & ->).
    rewrite (@slug_app_ext story) in Hslug'
      by (apply record_images_other; intros i _; apply title_not_image).
    assert (slug' = slug) as -> by congruence.
    apply record_images_fixed. intros i Hi. apply record_images_in. exact Hi.
  - intros data1 st1 st2 data2 st3 H1 H2.
    apply single_generate_images_ok in H1
      as (slug & _ & _ & _ & _ & Hslug & _ & _ & _ & ->).
    apply single_generate_images_ok in H2
      as (slug' & _ & _ & _ & _ & Hslug' & _ & _ & _ & ->).
    rewrite (@slug_single_ext story) in Hslug'.
    2:{ rewrite dict_get_set_other by discriminate.
        apply record_images_other. intros i _. apply title_not_image. }
    assert (slug' = slug) as -> by congruence.
    rewrite record_images_fixed.
    + apply dict_set_same_value. apply dict_get_set_same.
    + intros i Hi. rewrite dict_get_set_other by apply cover_not_image.
      apply record_images_in. exact Hi.
Qed.

(** An instance: two runs of [generate_images] in a row. *)
Lemma images_rerun_same_record_witness :
  let R := Script.runtime [] in
  exists story1 st1 story2 st2,
    App.generate_images Script.cfg_app Script.story (State (R := R) 0 [])
    = (Ok story1, st1)
    /\ App.generate_images Script.cfg_app story1 st1 = (Ok story2, st2)
    /\ story2 = story1.
Proof.
  intros R.
  pose proof (@script_fallback_reliable [] Script.cfg_app) as Hfb.
  pose proof (@script_upload_reliable [] (fun u w => (Ok u, w))
                Script.cfg_app) as Hup.
  destruct (@app_generate_images_reliable R Script.cfg_app Hfb Hup
              Script.story (State (R := R) 0 []) "How Plants Eat Sunlight" 0
              eq_refl eq_refl)
    as (story1 & st1 & slug1 & _ & Hrun1 & _).
  assert (dict_get story1 "storytitle"
          = Some (VStr "How Plants Eat Sunlight")) as Htitle.
  { pose proof Hrun1 as H. apply app_generate_images_ok in H
      as (slug & _ & _ & _ & _ & _ & ->).
    rewrite record_images_other by (intros i _; apply title_not_image).
    reflexivity. }
  destruct (@app_generate_images_reliable R Script.cfg_app Hfb Hup
              story1 st1 "How Plants Eat Sunlight" (st_world st1)
              Htitle eq_refl)
    as (story2 & st2 & slug2 & _ & Hrun2 & _).
  exists story1, st1, story2, st2.
  split; [exact Hrun1|]. split; [exact Hrun2|].
  exact (proj1 (@images_rerun_same_record R Script.cfg_app Script.story
                  (State (R := R) 0 []))
           story1 st1 st1 story2 st2 Hrun1 Hrun2).
Defined.

(* ------------------------------------------------------------------ *)
(** * The calls of the narration loop and the table of [src/app.py] *)
(* ------------------------------------------------------------------ *)

Lemma for_each_raise {R : Runtime} {A S} (l1 l2 : list A) (x : A)
    (body : A -> S -> M S) (s s1 : S) (st st1 st2 : state) (e : exn) :
  for_each l1 body s st = (Ok s1, st1) ->
  body x s1 st1 = (Raise e, st2) ->
  for_each (l1 ++ x :: l2) body s st = (Raise e, st2).
Proof.
  intros H1 H2. rewrite for_each_app. unfold bind. rewrite H1.
  rewrite for_each_cons, H2. reflexivity.
Qed.

Section NarrationCalls.
Context {R : Runtime}.
Variable cfg : config.
Variable cdn_url : text -> text.

Local Abbreviation step := (audio_step cfg cdn_url).

(** One iteration that ends normally, with the file and the table. *)
Lemma audio_step_exact (f a : text) (story urls story' urls' : dict)
    (st st' : state) :
  step (f, a) (story, urls) st = (Ok (story', urls'), st') ->
  (truthy (dict_get_none story f) = false
   /\ story' = story /\ urls' = urls /\ st' = st)
  \/ (truthy (dict_get_none story f) = true
      /\ exists hex,
           let fn := hex ++ ".mp3" in
           hex = fst (uuid4_hex_io (st_world st))
           /\ story' = dict_set story a (VStr (audio_url cfg cdn_url fn))
           /\ urls' = dict_set urls f (VStr (audio_url cfg cdn_url fn))
           /\ st_trace st'
              = st_trace st
                ++ [EvUuid; EvSynthesize (dict_get_none story f) fn;
                    EvUploadFile fn (AWS_BUCKET cfg)
                      (S3_PREFIX cfg ++ "/audio/" ++ fn)]
           /\ st_world st'
              = snd (upload_file_io fn (AWS_BUCKET cfg)
                       (S3_PREFIX cfg ++ "/audio/" ++ fn)
                       (snd (synthesize_io (dict_get_none story f) fn
                               (snd (uuid4_hex_io (st_world st))))))).
Proof.
  unfold audio_step.
  destruct (truthy (dict_get_none story f)) eqn:Et; cbn [negb].
  - unfold bind at 1, io.
    destruct (uuid4_hex_io (st_world st)) as [hex w1].
    unfold bind at 1. cbn [st_world st_trace].
    destruct (synthesize_io (dict_get_none story f) (hex ++ ".mp3") w1)
      as [[[]|e] w2] eqn:Esyn; [|discriminate].
    unfold bind, ret. cbn [st_world st_trace].
    destruct (upload_file_io (hex ++ ".mp3") (AWS_BUCKET cfg)
                (S3_PREFIX cfg ++ "/audio/" ++ hex ++ ".mp3") w2)
      as [[[]|e] w3] eqn:Eup; [|discriminate].
    intros H. injection H as <- <- <-. right. split; [reflexivity|].
    exists hex. cbn zeta. cbn [fst snd].
    split; [reflexivity|]. split; [reflexivity|]. split; [reflexivity|].
    split; [cbn [st_trace]; rewrite <- !app_assoc; reflexivity|].
    cbn [st_world]. rewrite Esyn. cbn [snd]. rewrite Eup. reflexivity.
  - unfold ret. intros H. injection H as <- <- <-. left. auto.
Qed.

(** An iteration whose synthesizer or upload raises. *)
Lemma audio_step_raises (f a : text) (story urls : dict) (st : state)
    (hex : text) (w1 : world) (e : exn) :
  truthy (dict_get_none story f) = true ->
  uuid4_hex_io (st_world st) = (hex, w1) ->
  let txt := dict_get_none story f in
  let fn := hex ++ ".mp3" in
  let key := S3_PREFIX cfg ++ "/audio/" ++ fn in
  (forall w2,
     synthesize_io txt fn w1 = (Raise e, w2) ->
     step (f, a) (story, urls) st
     = (Raise e, State w2 (st_trace st ++ [EvUuid; EvSynthesize txt fn])))
  /\ (forall w2 w3,
        synthesize_io txt fn w1 = (Ok tt, w2) ->
        upload_file_io fn (AWS_BUCKET cfg) key w2 = (Raise e, w3) ->
        step (f, a) (story, urls) st
        = (Raise e,
           State w3 (st_trace st
                     ++ [EvUuid; EvSynthesize txt fn;
                         EvUploadFile fn (AWS_BUCKET cfg) key]))).
Proof.
  intros Et Hid txt fn key. subst txt fn key. unfold audio_step. rewrite Et.
  cbn [negb]. split.
  - intros w2 Hsyn. unfold bind at 1, io. rewrite Hid.
    unfold bind at 1. cbn [st_world st_trace]. rewrite Hsyn.
    rewrite <- app_assoc. reflexivity.
  - intros w2 w3 Hsyn Hup. unfold bind at 1, io. rewrite Hid.
    unfold bind at 1. cbn [st_world st_trace]. rewrite Hsyn.
    unfold bind. cbn [st_world st_trace]. rewrite Hup.
    rewrite <- !app_assoc. reflexivity.
Qed.

Lemma record_table_cons (w : (text * text) * text)
    (ws : list ((text * text) * text)) (urls : dict) :
  record_table cfg cdn_url (w :: ws) urls
  = record_table cfg cdn_url ws
      (dict_set urls (fst (fst w)) (VStr (audio_url cfg cdn_url (snd w)))).
Proof. reflexivity. Qed.

Lemma record_audio_cons (w : (text * text) * text)
    (ws : list ((text * text) * text)) (story : dict) :
  record_audio cfg cdn_url (w :: ws) story
  = record_audio cfg cdn_url ws
      (dict_set story (snd (fst w)) (VStr (audio_url cfg cdn_url (snd w)))).
Proof. reflexivity. Qed.


Lemma flat_map_ext_in {A B} (f g : A -> list B) (l : list A) :
  (forall x, In x l -> f x = g x) -> flat_map f l = flat_map g l.
Proof.
  induction l as [|x l IH]; intros H; [reflexivity|].
  cbn [flat_map]. rewrite (H x) by (left; reflexivity).
  f_equal. apply IH. intros y Hy. apply H. right. exact Hy.
Qed.

Lemma in_combine_narrated (story : dict) (l : list (text * text))
    (fns : list text) (w : (text * text) * text) :
  In w (combine (narrated story l) fns) -> In (fst (fst w)) (map fst l).
Proof.
  destruct w as [[f a] fn]. intros H. apply in_combine_l in H.
  apply filter_In in H as [H _]. apply in_map_iff. exists (f, a). auto.
Qed.

Lemma clip_names_ext (s1 s2 : dict) (l : list (text * text)) (w : world) :
  (forall f, In f (map fst l) -> dict_get s1 f = dict_get s2 f) ->
  clip_names cfg s1 l w = clip_names cfg s2 l w.
Proof.
  revert w. induction l as [|[f a] l IH]; intros w H; [reflexivity|].
  cbn [clip_names fst]. unfold dict_get_none, dict_get_default.
  rewrite (H f) by (left; reflexivity).
  assert (forall w', clip_names cfg s1 l w' = clip_names cfg s2 l w') as Hl
    by (intros w'; apply IH; intros f' Hf'; apply H; right; exact Hf').
  destruct (truthy match dict_get s2 f with Some v => v | None => VNone end).
  - cbn zeta. rewrite Hl. reflexivity.
  - apply Hl.
Qed.

(** The loop, when it ends normally, call by call.  The files are named
    after the identifiers that [uuid4] hands out during the run. *)
Lemma audio_loop_exact (l : list (text * text)) :
  sources_apart l ->
  forall (story urls story' urls' : dict) (st st' : state),
  for_each l step (story, urls) st = (Ok (story', urls'), st') ->
  exists fns,
    fns = clip_names cfg story l (st_world st)
    /\ length fns = length (narrated story l)
    /\ Forall is_mp3 fns
    /\ story' = record_audio cfg cdn_url (combine (narrated story l) fns) story
    /\ urls' = record_table cfg cdn_url (combine (narrated story l) fns) urls
    /\ st_trace st'
       = st_trace st
         ++ flat_map (clip_events cfg story) (combine (narrated story l) fns).
Proof.
  induction l as [|[f a] l IH]; intros Hapart story urls story' urls' st st' H.
  - injection H as <- <- <-. exists []. cbn. rewrite app_nil_r.
    repeat split. constructor.
  - rewrite for_each_cons in H.
    destruct (step (f, a) (story, urls) st) as [[[story1 urls1]|e] st1] eqn:E;
      [|discriminate].
    apply audio_step_exact in E.
    specialize (IH (sources_apart_tail Hapart) _ _ _ _ _ _ H).
    destruct IH as (fns & Hnames & Hlen & Hmp3 & Hstory & Hurls & Htr).
    destruct E as [(Et & -> & -> & ->)
                  |(Et & hex & Hhex & -> & -> & Htr1 & Hw1)].
    + exists fns. rewrite narrated_cons, Et. cbn [clip_names fst].
      rewrite Et. repeat (split; [assumption|]). assumption.
    + set (fn := hex ++ ".mp3") in *.
      assert (forall f', In f' (map fst l) ->
                dict_get (dict_set story a (VStr (audio_url cfg cdn_url fn))) f'
                = dict_get story f') as Hsame.
      { intros f' Hf'. apply dict_get_set_other. intros E.
        apply (Hapart f' a);
          [right; exact Hf'|left; reflexivity|symmetry; exact E]. }
      rewrite (narrated_ext _ story l Hsame) in *.
      rewrite (clip_names_ext _ story l _ Hsame) in Hnames.
      exists (fn :: fns). rewrite narrated_cons, Et.
      cbn [length combine]. split; [|split; [congruence|]].
      { cbn [clip_names fst]. rewrite Et. cbn zeta.
        rewrite <- Hhex. fold fn. rewrite <- Hw1, <- Hnames. reflexivity. }
      split; [constructor; [exists hex; reflexivity|exact Hmp3]|].
      split; [exact Hstory|]. split; [exact Hurls|].
      rewrite Htr, Htr1. cbn [flat_map]. rewrite <- app_assoc.
      f_equal. f_equal.
      apply flat_map_ext_in. intros w Hw.
      apply in_combine_narrated in Hw. unfold clip_events.
      unfold dict_get_none, dict_get_default. rewrite (Hsame _ Hw).
      reflexivity.
Qed.

Lemma audio_setup_trace (st st1 : state) :
  audio_setup cfg st = (Ok tt, st1) ->
  st_trace st1 = st_trace st ++ [EvS3Client; EvSpeechConfig (VOICE_NAME cfg)]
  /\ st_world st1 = setup_world cfg (st_world st).
Proof.
  unfold audio_setup, bind, io, setup_world.
  destruct (s3_client_io (st_world st)) as [[[]|e] w]; [|discriminate].
  cbn [st_world st_trace snd].
  destruct (speech_config_io (VOICE_NAME cfg) w) as [[[]|e] w'];
    [|discriminate].
  intros H. injection H as <-. cbn [st_trace st_world snd].
  rewrite <- app_assoc. split; reflexivity.
Qed.

Lemma clip_fails_step (f a : text) (story urls : dict) (st : state) (e : exn) :
  clip_fails cfg story f st e ->
  fst (step (f, a) (story, urls) st) = Raise e.
Proof.
  intros [Et H]. cbn zeta in H.
  destruct (uuid4_hex_io (st_world st)) as [hex w1] eqn:Hid.
  cbn [fst snd] in H.
  destruct (@audio_step_raises f a story urls st hex w1 e Et Hid)
    as [Hsyn Hup].
  destruct H as [(w2 & H)|(w2 & w3 & H1 & H2)].
  - rewrite (Hsyn w2 H). reflexivity.
  - rewrite (Hup w2 w3 H1 H2). reflexivity.
Qed.

Lemma audio_loop_raises (l1 l2 : list (text * text)) (f a : text)
    (s0 : dict * dict) (story urls : dict) (st0 st : state) (e : exn) :
  for_each l1 step s0 st0 = (Ok (story, urls), st) ->
  clip_fails cfg story f st e ->
  fst (for_each (l1 ++ (f, a) :: l2) step s0 st0) = Raise e.
Proof.
  intros H1 H2. apply clip_fails_step with (a := a) (urls := urls) in H2.
  destruct (step (f, a) (story, urls) st) as [r st2] eqn:E.
  cbn [fst] in H2. subst r.
  rewrite (@for_each_raise _ _ _ l1 l2 (f, a) step s0 (story, urls) st0 st
             st2 e H1 E).
  reflexivity.
Qed.

End NarrationCalls.

Section FoldSet.
Context {W : Type}.
Variable key : W -> text.
Variable val : W -> value.

Local Abbreviation fold_set ws d :=
  (fold_left (fun d w => dict_set d (key w) (val w)) ws d).

Lemma fold_set_other (ws : list W) (d : dict) (k : text) :
  ~ In k (map key ws) -> dict_get (fold_set ws d) k = dict_get d k.
Proof.
  revert d; induction ws as [|w ws IH]; intros d H; [reflexivity|].
  cbn [fold_left]. rewrite IH by (intros Hin; apply H; right; exact Hin).
  apply dict_get_set_other. intros E. apply H. left. exact E.
Qed.

Lemma fold_set_in (ws : list W) (d : dict) (w : W) :
  NoDup (map key ws) -> In w ws ->
  dict_get (fold_set ws d) (key w) = Some (val w).
Proof.
  revert d; induction ws as [|w0 ws IH]; intros d Hnd Hin; [contradiction|].
  cbn [map] in Hnd. apply NoDup_cons_iff in Hnd as [Hnotin Hnd].
  cbn [fold_left]. destruct Hin as [->|Hin].
  - rewrite fold_set_other by exact Hnotin. apply dict_get_set_same.
  - apply IH; assumption.
Qed.

Lemma keys_set_fresh (d : dict) (k : text) (v : value) :
  dict_get d k = None -> keys (dict_set d k v) = keys d ++ [k].
Proof.
  induction d as [|[k' v'] d IH]; intros H; [reflexivity|].
  cbn [dict_get dict_set] in *. destruct (text_eqb k' k); [discriminate|].
  cbn [keys map fst app]. f_equal. apply IH. exact H.
Qed.

Lemma keys_set_present (d : dict) (k : text) (v : value) :
  dict_get d k <> None -> keys (dict_set d k v) = keys d.
Proof.
  induction d as [|[k' v'] d IH]; intros H; [contradiction H; reflexivity|].
  cbn [dict_get dict_set] in *. destruct (text_eqb k' k); [reflexivity|].
  cbn [keys map fst]. f_equal. apply IH. exact H.
Qed.

Lemma fold_set_keys (ws : list W) (d : dict) :
  NoDup (map key ws) ->
  (forall w, In w ws -> dict_get d (key w) = None) ->
  keys (fold_set ws d) = keys d ++ map key ws.
Proof.
  revert d; induction ws as [|w ws IH]; intros d Hnd Hfresh.
  - cbn. rewrite app_nil_r. reflexivity.
  - cbn [map] in Hnd. apply NoDup_cons_iff in Hnd as [Hnotin Hnd].
    cbn [fold_left]. rewrite IH.
    + rewrite keys_set_fresh by (apply Hfresh; left; reflexivity).
      rewrite <- app_assoc. reflexivity.
    + exact Hnd.
    + intros w' Hw'. rewrite dict_get_set_other.
      * apply Hfresh. right. exact Hw'.
      * intros E. apply Hnotin. rewrite E. apply in_map. exact Hw'.
Qed.

Lemma all_str_set (d : dict) (k : text) (v : value) :
  all_str d = true -> is_str v = true -> all_str (dict_set d k v) = true.
Proof.
  intros Hd Hv. induction d as [|[k' v'] d IH]; cbn [dict_set].
  - cbn. rewrite Hv. reflexivity.
  - cbn [all_str forallb snd] in Hd. apply andb_true_iff in Hd as [H1 H2].
    destruct (text_eqb k' k); cbn [all_str forallb snd].
    + rewrite Hv. exact H2.
    + rewrite H1. apply IH. exact H2.
Qed.

Lemma fold_set_all_str (ws : list W) (d : dict) :
  all_str d = true ->
  (forall w, In w ws -> is_str (val w) = true) ->
  all_str (fold_set ws d) = true.
Proof.
  revert d; induction ws as [|w ws IH]; intros d Hd Hv; [exact Hd|].
  cbn [fold_left]. apply IH.
  - apply all_str_set; [exact Hd|]. apply Hv. left. reflexivity.
  - intros w' Hw'. apply Hv. right. exact Hw'.
Qed.

End FoldSet.

Lemma audio_sources_nodup : NoDup (map fst audio_fields).
Proof.
  cbn. repeat (constructor; [cbn; intuition discriminate|]). constructor.
Qed.

Section NarrationShape.
Context {R : Runtime}.
Variable cfg : config.

(** What a run of the narration functions that returns has computed. *)
Lemma app_synthesize_audio_ok (story story' urls : dict) (st st' : state) :
  App.synthesize_audio cfg story st = (Ok (story', urls), st') ->
  exists st1,
    audio_setup cfg st = (Ok tt, st1)
    /\ for_each audio_fields (audio_step cfg (App.cdn_url cfg)) (story, []) st1
       = (Ok (story', urls), st').
Proof.
  unfold App.synthesize_audio, bind.
  destruct (audio_setup cfg st) as [[[]|e] st1]; [|discriminate].
  intros H. exists st1. auto.
Qed.

Lemma single_synthesize_audio_ok (data data' : dict) (st st' : state) :
  Single.synthesize_and_upload_audio cfg data st = (Ok data', st') ->
  exists st1 urls,
    audio_setup cfg st = (Ok tt, st1)
    /\ for_each audio_fields (audio_step cfg (Single.cdn_url cfg))
         (data, []) st1
       = (Ok (data', urls), st').
Proof.
  unfold Single.synthesize_and_upload_audio, bind at 1.
  destruct (audio_setup cfg st) as [[[]|e] st1]; [|discriminate].
  unfold bind, ret.
  destruct (for_each audio_fields (audio_step cfg (Single.cdn_url cfg))
              (data, []) st1) as [[[d u]|e] st2] eqn:El; [|discriminate].
  intros H. injection H as <- <-. exists st1, u. auto.
Qed.

Lemma narration_loop_calls (cdn_url : text -> text)
    (story story' urls : dict) (st st1 st' : state) :
  audio_setup cfg st = (Ok tt, st1) ->
  for_each audio_fields (audio_step cfg cdn_url) (story, []) st1
  = (Ok (story', urls), st') ->
  let fns := clip_names cfg story audio_fields (setup_world cfg (st_world st)) in
  length fns = length (narrated story audio_fields)
  /\ Forall is_mp3 fns
  /\ story' = record_audio cfg cdn_url
                (combine (narrated story audio_fields) fns) story
  /\ urls = record_table cfg cdn_url
              (combine (narrated story audio_fields) fns) []
  /\ st_trace st'
     = st_trace st
       ++ [EvS3Client; EvSpeechConfig (VOICE_NAME cfg)]
       ++ flat_map (clip_events cfg story)
            (combine (narrated story audio_fields) fns).
Proof.
  intros Hsetup Hloop. apply audio_setup_trace in Hsetup as [Htr1 Hw1].
  apply (audio_loop_exact cfg cdn_url audio_fields_apart) in Hloop
    as (fns & Hnames & Hlen & Hmp3 & Hstory & Hurls & Htr).
  rewrite Hw1 in Hnames. cbn zeta. rewrite <- Hnames.
  rewrite Htr, Htr1, <- app_assoc. auto.
Qed.

End NarrationShape.

(** The calls of the narration functions.  A run that returns has created
    the S3 client and the speech configuration once and then, for each
    entry of the mapping whose source text is present and not empty, in the
    order of the mapping, drawn an identifier, synthesized the source text
    into the file named by that identifier and [.mp3], and uploaded that
    file under [{prefix}/audio/] and its name; it has made no other call,
    and none for a skipped entry.  The record has received the audio fields
    of those entries. *)
Theorem narration_calls {R : Runtime} (cfg : config) (story : dict)
    (st : state) :
  let fns := clip_names cfg story audio_fields (setup_world cfg (st_world st)) in
  (forall story' urls st',
     App.synthesize_audio cfg story st = (Ok (story', urls), st') ->
     length fns = length (narrated story audio_fields)
     /\ Forall is_mp3 fns
     /\ st_trace st'
        = st_trace st
          ++ [EvS3Client; EvSpeechConfig (VOICE_NAME cfg)]
          ++ flat_map (clip_events cfg story)
               (combine (narrated story audio_fields) fns)
     /\ story' = record_audio cfg (App.cdn_url cfg)
                   (combine (narrated story audio_fields) fns) story)
  /\ (forall data' st',
        Single.synthesize_and_upload_audio cfg story st = (Ok data', st') ->
        length fns = length (narrated story audio_fields)
        /\ Forall is_mp3 fns
        /\ st_trace st'
           = st_trace st
             ++ [EvS3Client; EvSpeechConfig (VOICE_NAME cfg)]
             ++ flat_map (clip_events cfg story)
                  (combine (narrated story audio_fields) fns)
        /\ data' = record_audio cfg (Single.cdn_url cfg)
                     (combine (narrated story audio_fields) fns) story)
  (* the first file is named after the first identifier drawn *)
  /\ (forall f a l,
        narrated story audio_fields = (f, a) :: l ->
        exists rest,
          fns
          = (fst (uuid4_hex_io (setup_world cfg (st_world st))) ++ ".mp3")
            :: rest).
Proof.
  intros fns. split; [|split].
  - intros story' urls st' H.
    apply app_synthesize_audio_ok in H as (st1 & Hsetup & Hloop).
    destruct (@narration_loop_calls _ cfg _ _ _ _ _ _ _ Hsetup Hloop)
      as (Hlen & Hmp3 & Hstory & _ & Htr).
    auto.
  - intros data' st' H.
    apply single_synthesize_audio_ok in H as (st1 & urls & Hsetup & Hloop).
    destruct (@narration_loop_calls _ cfg _ _ _ _ _ _ _ Hsetup Hloop)
      as (Hlen & Hmp3 & Hstory & _ & Htr).
    auto.
  - intros f a l Hnar. unfold fns.
    generalize (setup_world cfg (st_world st)). revert Hnar.
    generalize audio_fields as fields.
    induction fields as [|[f0 a0] fields IH]; intros Hnar w;
      [discriminate Hnar|].
    rewrite narrated_cons in Hnar. cbn [clip_names fst].
    destruct (truthy (dict_get_none story f0)).
    + cbn zeta. eexists. reflexivity.
    + apply IH. exact Hnar.
Qed.

(** An instance: with an empty fourth paragraph there are five clips, that
    is two calls for the setup and three for each clip; the scripted
    runtime numbers its identifiers. *)
Lemma narration_calls_witness :
  let R := Script.runtime [] in
  exists story' urls st',
    App.synthesize_audio Script.cfg_app Script.story_slide4_empty
      (State (R := R) 0 [])
    = (Ok (story', urls), st')
    /\ length (st_trace st') = 17
    /\ clip_names (R := R) Script.cfg_app Script.story_slide4_empty
         audio_fields 0
       = ["id0.mp3"; "id1.mp3"; "id2.mp3"; "id3.mp3"; "id4.mp3"].
Proof.
  intros R.
  destruct (proj1 (@synthesize_audio_reliable R Script.cfg_app
                     Script.story_slide4_empty (State (R := R) 0 [])
                     (script_narration_reliable [])))
    as ([story' urls] & st' & Hrun).
  exists story', urls, st'. split; [exact Hrun|].
  destruct (proj1 (@narration_calls R Script.cfg_app
                     Script.story_slide4_empty (State (R := R) 0 []))
              story' urls st' Hrun) as (_ & _ & Htr & _).
  split; [rewrite Htr; reflexivity|reflexivity].
Defined.

(** The table [cdn_urls] of [src/app.py].  After a run that returns, its
    keys are the source fields of the narrated entries, in the order of the
    mapping; each of them maps to the URL that the record holds under the
    audio field of the entry, which is the CDN base, a slash and the key
    under which the run has uploaded the clip synthesized from the text of
    that field; a field whose text is absent or empty is not in the
    table. *)
Theorem narration_table {R : Runtime} (cfg : config)
    (story story' urls : dict) (st st' : state) :
  App.synthesize_audio cfg story st = (Ok (story', urls), st') ->
  keys urls = map fst (narrated story audio_fields)
  /\ (forall f a,
        In (f, a) audio_fields ->
        truthy (dict_get_none story f) = true ->
        exists fn,
          is_mp3 fn
          /\ In fn (clip_names cfg story audio_fields
                      (setup_world cfg (st_world st)))
          /\ In (EvSynthesize (dict_get_none story f) fn) (st_trace st')
          /\ In (EvUploadFile fn (AWS_BUCKET cfg)
                   (S3_PREFIX cfg ++ "/audio/" ++ fn)) (st_trace st')
          /\ dict_get urls f
             = Some (VStr (CDN_BASE cfg ++ "/" ++ S3_PREFIX cfg ++ "/audio/"
                           ++ fn))
          /\ dict_get story' a = dict_get urls f)
  /\ (forall f,
        truthy (dict_get_none story f) = false -> dict_get urls f = None).
Proof.
  intros H. apply app_synthesize_audio_ok in H as (st1 & Hsetup & Hloop).
  destruct (@narration_loop_calls _ cfg _ _ _ _ _ _ _ Hsetup Hloop)
    as (Hlen & Hmp3 & -> & -> & Htr).
  set (fns := clip_names cfg story audio_fields
                (setup_world cfg (st_world st))) in *.
  set (nar := narrated story audio_fields) in *.
  set (ws := combine nar fns) in *.
  assert (map (fun w : text * text * text => fst (fst w)) ws = map fst nar)
    as Hsrc.
  { unfold ws. rewrite <- (map_map fst fst).
    rewrite map_fst_combine by exact Hlen. reflexivity. }
  assert (map (fun w : text * text * text => snd (fst w)) ws = map snd nar)
    as Hdst.
  { unfold ws. rewrite <- (map_map fst snd).
    rewrite map_fst_combine by exact Hlen. reflexivity. }
  assert (NoDup (map fst nar)) as Hnd1
    by (apply NoDup_map_filter; exact audio_sources_nodup).
  assert (NoDup (map snd nar)) as Hnd2
    by (apply NoDup_map_filter; exact audio_keys_nodup).
  split; [|split].
  - unfold record_table.
    rewrite (fold_set_keys (fun w : text * text * text => fst (fst w))).
    + rewrite Hsrc. reflexivity.
    + rewrite Hsrc. exact Hnd1.
    + reflexivity.
  - intros f a Hin Ht.
    assert (In (f, a) nar) as Hnar
      by (apply filter_In; split; [exact Hin|exact Ht]).
    destruct (in_combine_exists nar fns (f, a) Hlen Hnar) as (fn & Hfn).
    fold ws in Hfn.
    assert (dict_get (record_table cfg (App.cdn_url cfg) ws []) f
            = Some (VStr (audio_url cfg (App.cdn_url cfg) fn))) as Hurl.
    { unfold record_table.
      apply (fold_set_in (fun w : text * text * text => fst (fst w))
               (fun w => VStr (audio_url cfg (App.cdn_url cfg) (snd w)))
               ws [] ((f, a), fn)); [rewrite Hsrc; exact Hnd1|exact Hfn]. }
    assert (In fn fns) as Hfns by (apply in_combine_r in Hfn; exact Hfn).
    assert (forall ev, In ev (clip_events cfg story ((f, a), fn)) ->
                       In ev (st_trace st')) as Hev.
    { intros ev Hev. rewrite Htr. apply in_or_app. right.
      apply in_or_app. right. apply in_flat_map.
      exists ((f, a), fn). split; [exact Hfn|exact Hev]. }
    exists fn. split; [|split; [|split; [|split; [|split]]]].
    + rewrite Forall_forall in Hmp3. apply Hmp3. exact Hfns.
    + exact Hfns.
    + apply Hev. right. left. reflexivity.
    + apply Hev. right. right. left. reflexivity.
    + exact Hurl.
    + rewrite Hurl. apply record_audio_in with (f := f); [|exact Hfn].
      rewrite Hdst. exact Hnd2.
  - intros f Ht. unfold record_table.
    rewrite (fold_set_other (fun w : text * text * text => fst (fst w)));
      [reflexivity|].
    rewrite Hsrc. intros Hin. apply in_map_iff in Hin as ([f' a'] & E & Hf').
    cbn [fst] in E. subst f'. apply filter_In in Hf' as [_ Ht'].
    unfold speakable in Ht'. cbn [fst] in Ht'. congruence.
Qed.

(** An instance: the empty fourth paragraph has no row in the table. *)
Lemma narration_table_witness :
  let R := Script.runtime [] in
  exists story' urls st',
    App.synthesize_audio Script.cfg_app Script.story_slide4_empty
      (State (R := R) 0 [])
    = (Ok (story', urls), st')
    /\ keys urls
       = ["storytitle"; "s2paragraph1"; "s3paragraph1"; "s5paragraph1";
          "s6paragraph1"].
Proof.
  intros R.
  destruct (proj1 (@synthesize_audio_reliable R Script.cfg_app
                     Script.story_slide4_empty (State (R := R) 0 [])
                     (script_narration_reliable [])))
    as ([story' urls] & st' & Hrun).
  exists story', urls, st'. split; [exact Hrun|].
  rewrite (proj1 (@narration_table R Script.cfg_app
                    Script.story_slide4_empty story' urls
                    (State (R := R) 0 []) st' Hrun)).
  reflexivity.
Defined.

(** Nothing catches an exception in the narration functions.  When the S3
    client cannot be created, or when the synthesis or the upload of the
    clip of an entry that is not skipped raises, both
    [synthesize_audio] and [synthesize_and_upload_audio] raise that
    exception: the entries that follow are not narrated and no record is
    returned. *)
Theorem narration_errors_propagate {R : Runtime} (cfg : config)
    (story : dict) (st : state) (e : exn) :
  (forall w,
     s3_client_io (st_world st) = (Raise e, w) ->
     fst (App.synthesize_audio cfg story st) = Raise e
     /\ fst (Single.synthesize_and_upload_audio cfg story st) = Raise e)
  /\ (forall l1 f a l2 st1,
        audio_fields = l1 ++ (f, a) :: l2 ->
        audio_setup cfg st = (Ok tt, st1) ->
        (forall s1 u1 st2,
           for_each l1 (audio_step cfg (App.cdn_url cfg)) (story, []) st1
           = (Ok (s1, u1), st2) ->
           clip_fails cfg s1 f st2 e ->
           fst (App.synthesize_audio cfg story st) = Raise e)
        /\ (forall s1 u1 st2,
              for_each l1 (audio_step cfg (Single.cdn_url cfg)) (story, [])
                st1
              = (Ok (s1, u1), st2) ->
              clip_fails cfg s1 f st2 e ->
              fst (Single.synthesize_and_upload_audio cfg story st)
              = Raise e)).
Proof.
  split.
  - intros w Hs3.
    unfold App.synthesize_audio, Single.synthesize_and_upload_audio,
      audio_setup, bind, io.
    rewrite Hs3. split; reflexivity.
  - intros l1 f a l2 st1 Hfields Hsetup. split.
    + intros s1 u1 st2 Hloop Hfail.
      unfold App.synthesize_audio, bind. rewrite Hsetup, Hfields.
      eapply audio_loop_raises; eassumption.
    + intros s1 u1 st2 Hloop Hfail.
      pose proof (audio_loop_raises (Single.cdn_url cfg) l1 l2 a
                    (story, []) st1 Hloop Hfail) as Hraise.
      unfold Single.synthesize_and_upload_audio, bind at 1.
      rewrite Hsetup. unfold bind. rewrite Hfields.
      destruct (for_each (l1 ++ (f, a) :: l2)
                  (audio_step cfg (Single.cdn_url cfg)) (story, []) st1)
        as [r st3].
      cbn [fst] in Hraise. subst r. reflexivity.
Qed.

(** An instance: the synthesizer is down when the title is to be read. *)
Lemma narration_errors_propagate_witness :
  let R := Outage.speech_down in
  fst (Single.synthesize_and_upload_audio Script.cfg_single Script.story
         (State (R := R) 0 []))
  = Raise Outage.unavailable.
Proof.
  intros R.
  refine (proj2 (proj2 (@narration_errors_propagate R Script.cfg_single
                          Script.story (State (R := R) 0 [])
                          Outage.unavailable)
                   [] "storytitle" "s1audio1" _ _ eq_refl eq_refl)
            Script.story [] _ eq_refl _).
  split; [reflexivity|]. left. exists 1. reflexivity.
Defined.

(* ------------------------------------------------------------------ *)
(** * The record after the image and narration stages *)
(* ------------------------------------------------------------------ *)

Lemma fill_template_all_str (template : text) (story : dict) :
  all_str story = true -> exists out, fill_template template story = Ok out.
Proof.
  revert template. induction story as [|[k v] rest IH]; intros template H.
  - exists template. reflexivity.
  - cbn [all_str forallb snd] in H. apply andb_true_iff in H as [Hv Hrest].
    destruct v as [| | | | | |s| |]; try discriminate Hv.
    cbn [fill_template]. apply IH. exact Hrest.
Qed.

Lemma image_keys_nodup : NoDup image_keys.
Proof.
  unfold image_keys. apply NoDup_map_inj; [|apply seq_NoDup].
  intros i j _ _. apply slide_field_inj.
Qed.

Lemma source_not_image (f : text) (i : nat) :
  In f (map fst audio_fields) -> f <> slide_field i "image1".
Proof.
  intros H E. unfold slide_field in E.
  apply (f_equal (@rev ascii)) in E. rewrite !rev_app_distr in E.
  cbn in H. repeat (destruct H as [<-|H]; [discriminate E|]). exact H.
Qed.

Lemma audio_not_image (a : text) (i : nat) :
  In a audio_keys -> a <> slide_field i "image1".
Proof.
  intros H E. unfold slide_field in E.
  apply (f_equal (@rev ascii)) in E. rewrite !rev_app_distr in E.
  cbn in H. repeat (destruct H as [<-|H]; [discriminate E|]). exact H.
Qed.

Section RecordShape.
Context {R : Runtime}.
Variable cfg : config.
Variable cdn_url : text -> text.

Lemma record_images_keys (slug : text) (story : dict) :
  fresh image_keys story ->
  keys (record_images cfg cdn_url slug (seq 1 6) story)
  = keys story ++ image_keys.
Proof.
  intros Hfresh. unfold record_images.
  rewrite (fold_set_keys (fun i => slide_field i "image1")).
  - reflexivity.
  - exact image_keys_nodup.
  - intros i Hi. apply Hfresh. unfold image_keys.
    apply (in_map (fun i => slide_field i "image1")). exact Hi.
Qed.

Lemma record_images_all_str (slug : text) (l : list nat) (story : dict) :
  all_str story = true ->
  all_str (record_images cfg cdn_url slug l story) = true.
Proof.
  intros H. unfold record_images.
  apply (fold_set_all_str (fun i => slide_field i "image1")
           (fun i => VStr (cdn_url (slide_key cfg slug i)))); [exact H|].
  reflexivity.
Qed.

Lemma record_audio_dst (nar : list (text * text)) (fns : list text) :
  length fns = length nar ->
  map (fun w : text * text * text => snd (fst w)) (combine nar fns)
  = map snd nar.
Proof.
  intros Hlen. rewrite <- (map_map fst snd).
  rewrite map_fst_combine by exact Hlen. reflexivity.
Qed.

Lemma record_audio_keys (story0 s1 : dict) (fns : list text) :
  length fns = length (narrated story0 audio_fields) ->
  fresh audio_keys s1 ->
  keys (record_audio cfg cdn_url
          (combine (narrated story0 audio_fields) fns) s1)
  = keys s1 ++ map snd (narrated story0 audio_fields).
Proof.
  intros Hlen Hfresh. unfold record_audio.
  rewrite (fold_set_keys (fun w : text * text * text => snd (fst w))).
  - rewrite record_audio_dst by exact Hlen. reflexivity.
  - rewrite record_audio_dst by exact Hlen.
    apply NoDup_map_filter. exact audio_keys_nodup.
  - intros [[f a] fn] Hw. cbn [fst snd]. apply Hfresh.
    apply in_combine_l in Hw. apply filter_In in Hw as [Hw _].
    unfold audio_keys. apply in_map_iff. exists (f, a). auto.
Qed.

Lemma record_audio_all_str (ws : list ((text * text) * text)) (story : dict) :
  all_str story = true ->
  all_str (record_audio cfg cdn_url ws story) = true.
Proof.
  intros H. unfold record_audio.
  apply (fold_set_all_str (fun w : text * text * text => snd (fst w))
           (fun w => VStr (audio_url cfg cdn_url (snd w)))); [exact H|].
  reflexivity.
Qed.

End RecordShape.

(** The record of [src/app.py] after the image stage and the narration
    stage, run on a record that has none of their fields yet.  Its keys are
    the keys it had, in their order, then the six image fields, then the
    audio fields of the narrated entries in the order of the mapping.  When
    every value was a [str], every value still is, so that [fill_template]
    returns for every template. *)
Theorem app_pipeline_record {R : Runtime} (cfg : config)
    (story s1 s2 urls : dict) (st st1 st2 st3 : state) :
  App.generate_images cfg story st = (Ok s1, st1) ->
  App.synthesize_audio cfg s1 st2 = (Ok (s2, urls), st3) ->
  fresh image_keys story ->
  fresh audio_keys story ->
  keys s2
  = keys story ++ image_keys ++ map snd (narrated story audio_fields)
  /\ (all_str story = true ->
      all_str s2 = true
      /\ forall template, exists out, fill_template template s2 = Ok out).
Proof.
  intros H1 H2 Himg Haud.
  apply app_generate_images_ok in H1 as (slug & _ & _ & _ & _ & _ & ->).
  apply app_synthesize_audio_ok in H2 as (st0 & Hsetup & Hloop).
  destruct (@narration_loop_calls _ cfg _ _ _ _ _ _ _ Hsetup Hloop)
    as (Hlen & _ & -> & _ & _).
  set (s1 := record_images cfg (App.cdn_url cfg) slug (seq 1 6) story) in *.
  set (fns := clip_names cfg s1 audio_fields (setup_world cfg (st_world st2)))
    in *.
  assert (narrated s1 audio_fields = narrated story audio_fields) as Hnar.
  { apply narrated_ext. intros f Hf. apply record_images_other.
    intros i _. apply source_not_image. exact Hf. }
  rewrite Hnar in *.
  assert (fresh audio_keys s1) as Haud1.
  { intros a Ha. unfold s1. rewrite record_images_other; [apply Haud; exact Ha|].
    intros i _. apply audio_not_image. exact Ha. }
  split.
  - rewrite record_audio_keys by assumption.
    unfold s1. rewrite record_images_keys by assumption.
    rewrite <- app_assoc. reflexivity.
  - intros Hstr.
    assert (all_str (record_audio cfg (App.cdn_url cfg)
                       (combine (narrated story audio_fields) fns) s1) = true)
      as Hall by (apply record_audio_all_str, record_images_all_str; exact Hstr).
    split; [exact Hall|].
    intros template. apply fill_template_all_str. exact Hall.
Qed.

(** An instance: the twelve narrative fields, six images, six clips. *)
Lemma app_pipeline_record_witness :
  let R := Script.runtime [] in
  exists s1 st1 s2 urls st2,
    App.generate_images Script.cfg_app Script.story (State (R := R) 0 [])
    = (Ok s1, st1)
    /\ App.synthesize_audio Script.cfg_app s1 st1 = (Ok (s2, urls), st2)
    /\ keys s2
       = ["storytitle"; "s2paragraph1"; "s3paragraph1"; "s4paragraph1";
          "s5paragraph1"; "s6paragraph1"; "s1alt1"; "s2alt1"; "s3alt1";
          "s4alt1"; "s5alt1"; "s6alt1"; "s1image1"; "s2image1"; "s3image1";
          "s4image1"; "s5image1"; "s6image1"; "s1audio1"; "s2audio1";
          "s3audio1"; "s4audio1"; "s5audio1"; "s6audio1"].
Proof.
  intros R.
  destruct (@app_generate_images_reliable R Script.cfg_app
              (@script_fallback_reliable [] Script.cfg_app)
              (@script_upload_reliable [] _ Script.cfg_app)
              Script.story (State (R := R) 0 []) "How Plants Eat Sunlight" 0
              eq_refl eq_refl)
    as (s1 & st1 & slug & _ & Hrun1 & _).
  destruct (proj1 (@synthesize_audio_reliable R Script.cfg_app s1 st1
                     (script_narration_reliable [])))
    as ([s2 urls] & st2 & Hrun2).
  exists s1, st1, s2, urls, st2.
  split; [exact Hrun1|]. split; [exact Hrun2|].
  refine (proj1 (@app_pipeline_record R Script.cfg_app Script.story s1 s2 urls
                   (State (R := R) 0 []) st1 st1 st2 Hrun1 Hrun2 _ _)).
  - intros k Hk. cbn in Hk.
    repeat (destruct Hk as [<-|Hk]; [reflexivity|]). contradiction.
  - intros k Hk. cbn in Hk.
    repeat (destruct Hk as [<-|Hk]; [reflexivity|]). contradiction.
Defined.

(** The same for [src/app-single.py], where the cover field comes between
    the image fields and the audio fields. *)
Theorem single_pipeline_record {R : Runtime} (cfg : config)
    (data d1 d2 : dict) (st st1 st2 st3 : state) :
  Single.generate_images_and_upload cfg data st = (Ok d1, st1) ->
  Single.synthesize_and_upload_audio cfg d1 st2 = (Ok d2, st3) ->
  fresh ("portraitcoverurl" :: image_keys) data ->
  fresh audio_keys data ->
  keys d2
  = keys data ++ image_keys ++ ["portraitcoverurl"]
    ++ map snd (narrated data audio_fields)
  /\ (all_str data = true ->
      all_str d2 = true
      /\ forall template, exists out, fill_template template d2 = Ok out).
Proof.
  intros H1 H2 Himg Haud.
  apply single_generate_images_ok in H1
    as (slug & _ & _ & _ & _ & _ & _ & _ & _ & ->).
  apply single_synthesize_audio_ok in H2 as (st0 & urls & Hsetup & Hloop).
  destruct (@narration_loop_calls _ cfg _ _ _ _ _ _ _ Hsetup Hloop)
    as (Hlen & _ & -> & _ & _).
  set (r := record_images cfg (Single.cdn_url cfg) slug (seq 1 6) data) in *.
  set (d1 := dict_set r "portraitcoverurl"
               (VStr (Single.cdn_url cfg (cover_key cfg slug)))) in *.
  set (fns := clip_names cfg d1 audio_fields (setup_world cfg (st_world st2)))
    in *.
  assert (forall k, k <> "portraitcoverurl" ->
            (forall i, k <> slide_field i "image1") ->
            dict_get d1 k = dict_get data k) as Hframe.
  { intros k Hk1 Hk2. unfold d1. rewrite dict_get_set_other by congruence.
    apply record_images_other. intros i _. apply Hk2. }
  assert (narrated d1 audio_fields = narrated data audio_fields) as Hnar.
  { apply narrated_ext. intros f Hf. apply Hframe.
    - cbn in Hf. intros ->.
      repeat (destruct Hf as [Hf|Hf]; [discriminate Hf|]). exact Hf.
    - intros i. apply source_not_image. exact Hf. }
  rewrite Hnar in *.
  assert (fresh audio_keys d1) as Haud1.
  { intros a Ha. rewrite Hframe; [apply Haud; exact Ha| |].
    - cbn in Ha. intros ->.
      repeat (destruct Ha as [Ha|Ha]; [discriminate Ha|]). exact Ha.
    - intros i. apply audio_not_image. exact Ha. }
  split.
  - rewrite record_audio_keys by assumption.
    unfold d1. rewrite keys_set_fresh.
    + unfold r. rewrite record_images_keys
        by (intros k Hk; apply Himg; right; exact Hk).
      rewrite <- !app_assoc. reflexivity.
    + unfold r. rewrite record_images_other
        by (intros i _; apply cover_not_image).
      apply Himg. left. reflexivity.
  - intros Hstr.
    assert (all_str (record_audio cfg (Single.cdn_url cfg)
                       (combine (narrated data audio_fields) fns) d1) = true)
      as Hall.
    { apply record_audio_all_str. unfold d1. apply all_str_set; [|reflexivity].
      apply record_images_all_str. exact Hstr. }
    split; [exact Hall|].
    intros template. apply fill_template_all_str. exact Hall.
Qed.

(** An instance: with an empty fourth paragraph there is no [s4audio1]. *)
Lemma single_pipeline_record_witness :
  let R := Script.runtime [] in
  exists d1 st1 d2 st2,
    Single.generate_images_and_upload Script.cfg_single
      Script.story_slide4_empty (State (R := R) 0 [])
    = (Ok d1, st1)
    /\ Single.synthesize_and_upload_audio Script.cfg_single d1 st1
       = (Ok d2, st2)
    /\ keys d2
       = ["storytitle"; "s2paragraph1"; "s3paragraph1"; "s4paragraph1";
          "s5paragraph1"; "s6paragraph1"; "s1alt1"; "s2alt1"; "s3alt1";
          "s4alt1"; "s5alt1"; "s6alt1"; "s1image1"; "s2image1"; "s3image1";
          "s4image1"; "s5image1"; "s6image1"; "portraitcoverurl";
          "s1audio1"; "s2audio1"; "s3audio1"; "s5audio1"; "s6audio1"].
Proof.
  intros R.
  destruct (@single_generate_images_reliable R Script.cfg_single
              (@script_fallback_reliable [] Script.cfg_single)
              (@script_upload_reliable [] _ Script.cfg_single)
              Script.story_slide4_empty (State (R := R) 0 [])
              "How Plants Eat Sunlight" 0 eq_refl eq_refl)
    as (d1 & st1 & slug & _ & Hrun1 & _).
  destruct (proj2 (@synthesize_audio_reliable R Script.cfg_single d1 st1
                     (script_narration_reliable [])))
    as (d2 & st2 & Hrun2).
  exists d1, st1, d2, st2.
  split; [exact Hrun1|]. split; [exact Hrun2|].
  refine (proj1 (@single_pipeline_record R Script.cfg_single
                   Script.story_slide4_empty d1 d2
                   (State (R := R) 0 []) st1 st1 st2 Hrun1 Hrun2 _ _)).
  - intros k Hk. cbn in Hk.
    repeat (destruct Hk as [<-|Hk]; [reflexivity|]). contradiction.
  - intros k Hk. cbn in Hk.
    repeat (destruct Hk as [<-|Hk]; [reflexivity|]). contradiction.
Defined.

(* ------------------------------------------------------------------ *)
(** * The characters of a slug *)
(* ------------------------------------------------------------------ *)

Lemma hyphenate_char (c : ascii) :
  is_capital c = false ->
  hyphenate c <> " "%char /\ is_capital (hyphenate c) = false.
Proof.
  intros H. unfold hyphenate. destruct (Ascii.eqb c " "%char) eqn:E.
  - split; [discriminate|reflexivity].
  - apply Ascii.eqb_neq in E. split; assumption.
Qed.

(** Whatever the title, the slug has no space and none of the letters A to
    Z; the slug of [src/app-single.py] has no colon either and is the slug
    of [src/app.py] without its colons, so that two titles that differ in
    colons only share one folder there.  For an ASCII title the slug of
    [src/app.py] has the length of the title. *)
Theorem slug_characters (story : dict) (title : text) :
  dict_get story "storytitle" = Some (VStr title) ->
  exists sa ss,
    slug_app story = Ok sa
    /\ slug_single story = Ok ss
    /\ ss = filter not_colon sa
    /\ (forall c, In c sa ->
          c <> " "%char /\ ~ (65 <= byte c <= 90)%N)
    /\ (forall c, In c ss ->
          c <> " "%char /\ c <> ":"%char /\ ~ (65 <= byte c <= 90)%N)
    /\ (is_ascii title = true -> length sa = length title).
Proof.
  intros H.
  exists (map hyphenate (lower title)),
         (filter not_colon (map hyphenate (lower title))).
  split; [apply slug_app_ok; exact H|].
  split; [apply slug_single_ok; exact H|].
  split; [reflexivity|].
  assert (forall c, In c (map hyphenate (lower title)) ->
            c <> " "%char /\ ~ (65 <= byte c <= 90)%N) as Hsa.
  { intros c Hc. apply in_map_iff in Hc as (c0 & <- & Hc0).
    apply lower_no_capital in Hc0.
    destruct (hyphenate_char c0 Hc0) as [H1 H2]. split; [exact H1|].
    unfold is_capital in H2. intros [A B].
    apply N.leb_le in A, B. rewrite A, B in H2. discriminate H2. }
  split; [exact Hsa|]. split.
  - intros c Hc. apply filter_In in Hc as [Hc Hcolon].
    destruct (Hsa c Hc) as [H1 H2]. split; [exact H1|]. split; [|exact H2].
    unfold not_colon in Hcolon. apply negb_true_iff, Ascii.eqb_neq in Hcolon.
    exact Hcolon.
  - intros Hascii. rewrite (lower_ascii title Hascii), !length_map.
    reflexivity.
Qed.

(** Two titles that differ in a colon. *)
Lemma slug_characters_witness :
  exists sa ss,
    slug_app [("storytitle", VStr "Plants: A Primer")] = Ok sa
    /\ slug_single [("storytitle", VStr "Plants: A Primer")] = Ok ss
    /\ slug_single [("storytitle", VStr "Plants A Primer")] = Ok ss
    /\ length sa = 16.
Proof.
  destruct (@slug_characters [("storytitle", VStr "Plants: A Primer")]
              "Plants: A Primer" eq_refl)
    as (sa & ss & Ha & Hs & _ & _ & _ & Hlen).
  exists sa, ss. split; [exact Ha|]. split; [exact Hs|].
  split; [|exact (Hlen eq_refl)].
  rewrite <- Hs. vm_compute. reflexivity.
Defined.
